(** * maxGraph: the object/XML codec and the edge handler

    A shallow embedding of
    - [packages/core/src/util/serialization/mxObjectCodec.js] (module [Codec]) and
    - [packages/core/src/view/cell/edge/EdgeHandler.ts] (module [EdgeHandler]),
    with the properties of the specification stated over it.

    Further code of these sources follows in modules of its own: the class
    [mxCellPath] (module [CellPath]), more methods of the edge handler
    (module [EdgeHandlerMore]) and
    [packages/core/src/handler/mxEdgeSegmentHandler.js] (module
    [EdgeSegmentHandler]); their properties are in [CodecMore],
    [CellPathSpec], [EdgeHandlerMoreSpec] and [EdgeSegmentHandlerSpec]. *)

From Stdlib Require Import Ascii String.
From stdpp Require Import gmap strings list fin_maps pretty.

Set Warnings "-register-all".

Open Scope string_scope.

(** * JavaScript values, objects, the XML tree and the effect monad *)
Module Js.

(** Object identities. *)
Definition loc := positive.

Section Values.
(** The JavaScript Number type is left abstract: every statement below holds
    for IEEE doubles as well as for the integer model used in the examples. *)
Context {number : Type}.

Inductive value :=
| VUndefined
| VNull
| VBool (b : bool)
| VNum (n : number)
| VStr (s : string)
| VFun (src : string)   (* a function, identified with its source text *)
| VObj (l : loc).       (* a reference to an object of the heap *)

(** An object: its constructor name, its own enumerable properties in
    enumeration order and, for arrays, the array length.  Inherited members,
    accessors and frozen objects are outside the model; a new key is appended
    to the enumeration. *)
Record object := Object {
  ctor : string;
  alen : option nat;
  props : list (string * value)
}.

(** A DOM node: an element or any other kind of node (text, comment). *)
Inductive node :=
| Element (nodeName : string) (attributes : list (string * string)) (childNodes : list node)
| Text (data : string).

(** The mutable state the codec runs in: the heap, the decoder's
    [objects] table, and the warnings sent to [mxLog.warn]. *)
Record world := World {
  heap : gmap loc object;
  objects : gmap string value;
  log : list string
}.

(** A computation returns a result or throws an [Error] with a message; the
    state reached is kept in both cases. *)
Inductive outcome (A : Type) :=
| Ok (a : A) (w : world)
| Throw (msg : string) (w : world).

Definition M (A : Type) : Type := world -> outcome A.

End Values.

Arguments value : clear implicits.
Arguments object : clear implicits.
Arguments world : clear implicits.
Arguments outcome : clear implicits.
Arguments M : clear implicits.
Arguments Object {number} ctor alen props.
Arguments World {number} heap objects log.
Arguments Ok {number A} a w.
Arguments Throw {number A} msg w.

Section Monad.
Context {number : Type}.

Definition ret {A} (a : A) : M number A := fun w => Ok a w.

Definition bind {A B} (m : M number A) (k : A -> M number B) : M number B :=
  fun w => match m w with
           | Ok a w' => k a w'
           | Throw e w' => Throw e w'
           end.

Definition throw {A} (msg : string) : M number A := fun w => Throw msg w.

(** Reads the state without changing it. *)
Definition reads {A} (f : world number -> A) : M number A := fun w => Ok (f w) w.

(** [try { m } catch (e) { h e.message }] *)
Definition try_catch {A} (m : M number A) (h : string -> M number A) : M number A :=
  fun w => match m w with
           | Ok a w' => Ok a w'
           | Throw e w' => h e w'
           end.

(** [mxLog.warn(msg)] *)
Definition warn (msg : string) : M number unit :=
  fun w => Ok tt (World (heap w) (objects w) (log w ++ [msg])).

End Monad.

Notation "'do' x <- m ; k" := (bind m (fun x => k))
  (at level 10, x name, m at level 100, k at level 200).

Section Dom.
Context {number : Type}.

(** [for (...; i < l.length; ...) f(l[i])] and [for (const i in ...)],
    threading an accumulator. *)
Fixpoint foldM {A B} (f : B -> A -> M number B) (l : list A) (b : B) : M number B :=
  match l with
  | [] => ret b
  | a :: l' => do b' <- f b a ; foldM f l' b'
  end.

Fixpoint assoc_get {V} (k : string) (l : list (string * V)) : option V :=
  match l with
  | [] => None
  | (k', v) :: l' => if decide (k = k') then Some v else assoc_get k l'
  end.

(** Assignment to a key: in place when the key exists, appended otherwise. *)
Fixpoint assoc_set {V} (k : string) (v : V) (l : list (string * V)) : list (string * V) :=
  match l with
  | [] => [(k, v)]
  | (k', v') :: l' =>
      if decide (k = k') then (k, v) :: l' else (k', v') :: assoc_set k v l'
  end.

(** [document.createElement(name)] *)
Definition createElement (name : string) : node := Element name [] [].

(** [document.createTextNode(data)] *)
Definition createTextNode (data : string) : node := Text data.

(** [node.getAttribute(name)]: [None] is [null]. *)
Definition getAttribute (n : node) (name : string) : option string :=
  match n with
  | Element _ attrs _ => assoc_get name attrs
  | Text _ => None
  end.

(** [node.setAttribute(name, value)]; only elements have the method. *)
Definition setAttribute (n : node) (name value : string) : option node :=
  match n with
  | Element nm attrs ch => Some (Element nm (assoc_set name value attrs) ch)
  | Text _ => None
  end.

(** [node.appendChild(child)] *)
Definition appendChild (n child : node) : option node :=
  match n with
  | Element nm attrs ch => Some (Element nm attrs (ch ++ [child]))
  | Text _ => None
  end.

Definition node_name (n : node) : string :=
  match n with
  | Element nm _ _ => nm
  | Text _ => "#text"
  end.

Definition node_attributes (n : node) : list (string * string) :=
  match n with
  | Element _ attrs _ => attrs
  | Text _ => []
  end.

Definition node_children (n : node) : list node :=
  match n with
  | Element _ _ ch => ch
  | Text _ => []
  end.

(** [child.nodeType === NODETYPE_ELEMENT] *)
Definition is_element (n : node) : bool :=
  match n with
  | Element _ _ _ => true
  | Text _ => false
  end.

(** A DOM call on a node that lacks the method raises a TypeError. *)
Definition dom_call (what : string) (r : option node) : M number node :=
  match r with
  | Some n => ret n
  | None => throw (what ++ " is not a function")
  end.

(** [v == null] *)
Definition is_null (v : value number) : bool :=
  match v with
  | VUndefined | VNull => true
  | _ => false
  end.

(** [typeof v === 'object'] *)
Definition typeof_object (v : value number) : bool :=
  match v with
  | VNull | VObj _ => true
  | _ => false
  end.

(** [typeof v === 'function'] *)
Definition typeof_function (v : value number) : bool :=
  match v with
  | VFun _ => true
  | _ => false
  end.

(** A property key as JavaScript coerces it: [null] is the key ["null"]. *)
Definition key_of (name : option string) : string :=
  match name with
  | Some k => k
  | None => "null"
  end.

(** [o[k]] on an object of the heap. *)
Definition get_prop (o : object number) (k : string) : value number :=
  default VUndefined (assoc_get k (props o)).

(** The canonical array index a key denotes, if any. *)
Definition digit_of (a : Ascii.ascii) : option N :=
  let n := Ascii.N_of_ascii a in
  if ((48 <=? n) && (n <=? 57))%N then Some (n - 48)%N else None.

Fixpoint digits_val (acc : N) (s : string) : option N :=
  match s with
  | EmptyString => Some acc
  | String a s' =>
      match digit_of a with
      | Some d => digits_val (10 * acc + d)%N s'
      | None => None
      end
  end.

Definition index_of (k : string) : option nat :=
  match k with
  | EmptyString => None
  | _ =>
      match digits_val 0 k with
      | Some n => if decide (pretty n = k) then Some (N.to_nat n) else None
      | None => None
      end
  end.

(** [o[k] = v]: an array grows to hold an index at or past its length. *)
Definition set_prop (o : object number) (k : string) (v : value number) : object number :=
  let len :=
    match alen o, index_of k with
    | Some n, Some i => Some (Nat.max n (S i))
    | l, _ => l
    end in
  Object (ctor o) len (assoc_set k v (props o)).

(** [obj[k]] for any value: primitives have no own enumerable property. *)
Definition get (w : world number) (obj : value number) (k : string) : value number :=
  match obj with
  | VObj l =>
      match heap w !! l with
      | Some o => get_prop o k
      | None => VUndefined
      end
  | _ => VUndefined
  end.

(** [obj[k] = v] in strict mode (the source is an ES module): creating a
    property on a primitive raises a TypeError. *)
Definition set (obj : value number) (k : string) (v : value number) : M number unit :=
  fun w =>
    match obj with
    | VObj l =>
        match heap w !! l with
        | Some o => Ok tt (World (<[l := set_prop o k v]> (heap w)) (objects w) (log w))
        | None => Throw ("Cannot create property '" ++ k ++ "'") w
        end
    | _ => Throw ("Cannot create property '" ++ k ++ "'") w
    end.

(** [obj.push(v)]: only arrays have the method. *)
Definition push (obj : value number) (v : value number) : M number unit :=
  fun w =>
    match obj with
    | VObj l =>
        match heap w !! l with
        | Some o =>
            match alen o with
            | Some n =>
                Ok tt (World (<[l := set_prop o (pretty n) v]> (heap w)) (objects w) (log w))
            | None => Throw "obj.push is not a function" w
            end
        | None => Throw "obj.push is not a function" w
        end
    | _ => Throw "obj.push is not a function" w
    end.

(** [v instanceof Array && v.length > 0] *)
Definition is_nonempty_array (w : world number) (v : value number) : bool :=
  match v with
  | VObj l =>
      match heap w !! l with
      | Some o =>
          match alen o with
          | Some n => bool_decide (0 < n)
          | None => false
          end
      | None => false
      end
  | _ => false
  end.

(** [typeof v.length === 'undefined'] for a non-null [v]. *)
Definition length_undefined (w : world number) (v : value number) : bool :=
  match v with
  | VStr _ | VFun _ => false
  | VObj l =>
      match heap w !! l with
      | Some o =>
          match alen o with
          | Some _ => false
          | None => match get_prop o "length" with VUndefined => true | _ => false end
          end
      | None => true
      end
  | _ => true
  end.

End Dom.

End Js.

(** * mxObjectCodec *)
Module Codec.
Import Js.

(** What the codec calls and the sources do not define: the Number built-ins
    of the language, [eval], [new], and the helpers it imports from [Utils],
    [DomUtils], [mxXmlRequest], [mxObjectIdentity] and [mxCodec].  They are
    parameters of every definition and statement below. *)
Class Env (number : Type) := {
  (** the literals [0] and [1] *)
  num_zero : number;
  num_one : number;
  (** [===] on numbers *)
  num_eqb : number -> number -> bool;
  (** [Number.isNaN], [Number.isFinite], [parseFloat], [String(n)], [Number(s)] *)
  isNaN : number -> bool;
  isFinite : number -> bool;
  parseFloat : string -> number;
  num_toString : number -> string;
  str_toNumber : string -> number;
  (** conversion of an object to a primitive ([==]) and to a string *)
  obj_toPrimitive : world number -> loc -> value number;
  obj_toString : world number -> loc -> string;
  (** the object [new C()] builds for the constructor named [C] *)
  construct : string -> object number;
  (** [eval(text)] *)
  js_eval : string -> M number (value number);
  (** [Utils.isInteger], [Utils.isNumeric], [DomUtils.getTextContent] *)
  isInteger : string -> bool;
  isNumeric : string -> bool;
  getTextContent : node -> string;
  (** [load(name).getDocumentElement()] of [mxXmlRequest] *)
  load : string -> M number (option node);
  (** [mxObjectIdentity.FIELD_NAME] *)
  FIELD_NAME : string;
  (** [mxCodec]: the [encodeDefaults] switch, [getId], [encode], [getObject], [decode] *)
  encodeDefaults : bool;
  getId : world number -> value number -> option string;
  enc_encode : value number -> M number (option node);
  getObject : value number -> M number (value number);
  dec_decode : node -> value number -> M number (value number);
  (** the static switch [mxObjectCodec.allowEval] *)
  allowEval : bool
}.

Section Definitions.
Context {number : Type} `{Env number}.

(** ** Coercions of the language *)

(** [String(v)], as template literals, attribute values and text nodes apply it. *)
Definition to_string (w : world number) (v : value number) : string :=
  match v with
  | VUndefined => "undefined"
  | VNull => "null"
  | VBool true => "true"
  | VBool false => "false"
  | VNum n => num_toString n
  | VStr s => s
  | VFun src => src
  | VObj l => obj_toString w l
  end.

Definition bool_num (b : bool) : number := if b then num_one else num_zero.

(** [a === b] *)
Definition strict_eq (a b : value number) : bool :=
  match a, b with
  | VUndefined, VUndefined => true
  | VNull, VNull => true
  | VBool x, VBool y => bool_decide (x = y)
  | VNum x, VNum y => num_eqb x y
  | VStr x, VStr y => bool_decide (x = y)
  | VFun x, VFun y => bool_decide (x = y)
  | VObj x, VObj y => bool_decide (x = y)
  | _, _ => false
  end.

(** [a == b] for two primitives, neither of them [null] or [undefined]:
    a boolean is compared as a number, a string against a number as a number. *)
Definition prim_loose_eq (a b : value number) : bool :=
  match a, b with
  | VNum x, VNum y => num_eqb x y
  | VStr x, VStr y => bool_decide (x = y)
  | VBool x, VBool y => bool_decide (x = y)
  | VNum x, VStr y => num_eqb x (str_toNumber y)
  | VStr x, VNum y => num_eqb (str_toNumber x) y
  | VBool x, VNum y => num_eqb (bool_num x) y
  | VNum x, VBool y => num_eqb x (bool_num y)
  | VBool x, VStr y => num_eqb (bool_num x) (str_toNumber y)
  | VStr x, VBool y => num_eqb (str_toNumber x) (bool_num y)
  | _, _ => false
  end.

Definition to_primitive (w : world number) (v : value number) : value number :=
  match v with
  | VObj l => obj_toPrimitive w l
  | VFun src => VStr src
  | _ => v
  end.

(** [a == b] *)
Definition loose_eq (w : world number) (a b : value number) : bool :=
  match a, b with
  | VObj x, VObj y => bool_decide (x = y)
  | VFun x, VFun y => bool_decide (x = y)
  | VObj _, VFun _ | VFun _, VObj _ => false
  | _, _ =>
      if is_null a || is_null b then is_null a && is_null b
      else prim_loose_eq (to_primitive w a) (to_primitive w b)
  end.

(** The truth value of [v] in [v || ...]. *)
Definition truthy (v : value number) : bool :=
  match v with
  | VUndefined | VNull => false
  | VBool b => b
  | VNum n => negb (num_eqb n num_zero || isNaN n)
  | VStr s => negb (bool_decide (s = ""))
  | VFun _ | VObj _ => true
  end.

(** [obj.constructor === C] for the class named [C]. *)
Definition constructor_is (w : world number) (obj : value number) (C : string) : bool :=
  match obj with
  | VObj l =>
      match heap w !! l with
      | Some o => bool_decide (ctor o = C)
      | None => false
      end
  | _ => false
  end.

(** ** mxCodec helpers *)

(** Modelled from the spec: [mxCodec.setAttribute] is not under [src/].
    Primitives are serialized "as attributes" of the element: the helper sets
    the attribute to the string form of the value, and sets nothing when the
    name or the value is null (an object without id gets no id attribute). *)
Definition enc_setAttribute (n : node) (attribute : option string) (v : value number)
  : M number node :=
  match attribute with
  | Some a =>
      if is_null v then ret n
      else do s <- reads (fun w => to_string w v) ;
           dom_call "node.setAttribute" (setAttribute n a s)
  | None => ret n
  end.

(** Modelled from the spec: [mxCodec.putObject] is not under [src/]; it enters
    the object into the "decode-time object cache" [objects] under its id. *)
Definition putObject (id : string) (obj : value number) : M number unit :=
  fun w => Ok tt (World (heap w) (<[id := obj]> (objects w)) (log w)).

(** ** The codec *)

Record codec := Codec {
  template : object number;
  exclude : list string;
  idrefs : list string;
  mapping : list (string * string);
  reverse : list (string * string)
}.

(** The constructor: absent arguments default to empty tables and [reverse]
    inverts [mapping], a later field winning an attribute name. *)
Definition mxObjectCodec (template : object number) (exclude idrefs : option (list string))
    (mapping : option (list (string * string))) : codec :=
  let mapping := default [] mapping in
  {| template := template;
     exclude := default [] exclude;
     idrefs := default [] idrefs;
     mapping := mapping;
     reverse := foldl (fun r fa => assoc_set (snd fa) (fst fa) r) [] mapping |}.

Definition getName (c : codec) : string := ctor (template c).

(** [new this.template.constructor()]: a fresh object. *)
Definition cloneTemplate (c : codec) : M number (value number) :=
  fun w =>
    let l := fresh (dom (heap w)) in
    Ok (VObj l) (World (<[l := construct (getName c)]> (heap w)) (objects w) (log w)).

Definition getFieldName (c : codec) (attributename : option string) : option string :=
  match attributename with
  | Some a =>
      match assoc_get a (reverse c) with
      | Some mapped => Some mapped
      | None => Some a
      end
  | None => None
  end.

Definition getAttributeName (c : codec) (fieldname : option string) : option string :=
  match fieldname with
  | Some f =>
      match assoc_get f (mapping c) with
      | Some mapped => Some mapped
      | None => Some f
      end
  | None => None
  end.

(** [isExcluded(obj, attr, value, write)]; only [attr] is looked at. *)
Definition isExcluded (c : codec) (attr : string) : bool :=
  bool_decide (attr = FIELD_NAME) || bool_decide (attr ∈ exclude c).

(** [isReference(obj, attr, value, write)]; [attr] may be null. *)
Definition isReference (c : codec) (attr : option string) : bool :=
  match attr with
  | Some a => bool_decide (a ∈ idrefs c)
  | None => false
  end.

(** ** Encoding *)

Definition isBooleanAttribute (v : value number) : M number bool :=
  if is_null v then throw "Cannot read properties of null (reading 'length')"
  else reads (fun w =>
         length_undefined w v &&
         (loose_eq w v (VBool true) || loose_eq w v (VBool false))).

Definition convertAttributeToXml (v : value number) : M number (value number) :=
  do b <- isBooleanAttribute v ;
  if b then
    do t <- reads (fun w => loose_eq w v (VBool true)) ;
    ret (VStr (if t then "1" else "0"))
  else ret v.

Definition writePrimitiveAttribute (c : codec) (name : option string) (v : value number)
    (n : node) : M number node :=
  do v' <- convertAttributeToXml v ;
  match name with
  | None =>
      let child := createElement "add" in
      do child' <-
        (if typeof_function v' then
           do s <- reads (fun w => to_string w v') ;
           dom_call "child.appendChild" (appendChild child (createTextNode s))
         else enc_setAttribute child (Some "value") v') ;
      dom_call "node.appendChild" (appendChild n child')
  | Some a =>
      if negb (typeof_function v') then enc_setAttribute n (Some a) v' else ret n
  end.

Definition writeComplexAttribute (c : codec) (name : option string) (v : value number)
    (n : node) : M number node :=
  do child <- enc_encode v ;
  match child with
  | Some ch =>
      do ch' <-
        (match name with
         | Some a => dom_call "child.setAttribute" (setAttribute ch "as" a)
         | None => ret ch
         end) ;
      dom_call "node.appendChild" (appendChild n ch')
  | None =>
      do s <- reads (fun w => to_string w v) ;
      do _ <- warn ("mxObjectCodec.encode: No node for " ++ getName c ++ "."
                    ++ key_of name ++ ": " ++ s) ;
      ret n
  end.

Definition writeAttribute (c : codec) (name : option string) (v : value number)
    (n : node) : M number node :=
  if negb (typeof_object v) then writePrimitiveAttribute c name v n
  else writeComplexAttribute c name v n.

(** The reference step of [encodeValue]: [None] is the early exit. *)
Definition encodeReference (c : codec) (name : option string) (v : value number)
  : M number (option (value number)) :=
  if isReference c name then
    do tmp <- reads (fun w => getId w v) ;
    match tmp with
    | None =>
        do s <- reads (fun w => to_string w v) ;
        do _ <- warn ("mxObjectCodec.encode: No ID for " ++ getName c ++ "."
                      ++ key_of name ++ "=" ++ s) ;
        ret None
    | Some id => ret (Some (VStr id))
    end
  else ret (Some v).

Definition encodeValue (c : codec) (name : option string) (v : value number) (n : node)
  : M number node :=
  if negb (is_null v) then
    do r <- encodeReference c name v ;
    match r with
    | None => ret n
    | Some v' =>
        let defaultValue := get_prop (template c) (key_of name) in
        do differs <- reads (fun w => negb (loose_eq w defaultValue v')) ;
        if bool_decide (name = None) || encodeDefaults || differs then
          writeAttribute c (getAttributeName c name) v' n
        else ret n
    end
  else ret n.

(** One round of the [for (const i in obj)] loop of [encodeObject]. *)
Definition encodeMember (c : codec) (obj : loc) (n : node) (i : string) : M number node :=
  do v <- reads (fun w => get w (VObj obj) i) ;
  if negb (is_null v) && negb (isExcluded c i) then
    encodeValue c (if isInteger i then None else Some i) v n
  else ret n.

(** The keys [for (const i in obj)] enumerates. *)
Definition keys (w : world number) (obj : loc) : list string :=
  match heap w !! obj with
  | Some o => (props o).*1
  | None => []
  end.

Definition encodeObject (c : codec) (obj : loc) (n : node) : M number node :=
  do id <- reads (fun w => getId w (VObj obj)) ;
  do n' <- enc_setAttribute n (Some "id")
             (match id with Some s => VStr s | None => VNull end) ;
  do ks <- reads (fun w => keys w obj) ;
  foldM (encodeMember c obj) ks n'.

(** [beforeEncode] returns the object and [afterEncode] the node. *)
Definition encode (c : codec) (obj : loc) : M number node :=
  encodeObject c obj (createElement (getName c)).

(** ** Decoding *)

Definition isNumericAttribute (w : world number) (attr : string * string)
    (obj : value number) : bool :=
  (constructor_is w obj "Geometry" &&
     (bool_decide (attr.1 = "x") || bool_decide (attr.1 = "y") ||
      bool_decide (attr.1 = "width") || bool_decide (attr.1 = "height"))) ||
  (constructor_is w obj "Point" &&
     (bool_decide (attr.1 = "x") || bool_decide (attr.1 = "y"))) ||
  isNumeric attr.2.

Definition convertAttributeFromXml (w : world number) (attr : string * string)
    (obj : value number) : value number :=
  if isNumericAttribute w attr obj then
    let v := parseFloat attr.2 in
    if isNaN v || negb (isFinite v) then VNum num_zero else VNum v
  else VStr attr.2.

Definition isIgnoredAttribute (attr : string * string) : bool :=
  bool_decide (attr.1 = "as") || bool_decide (attr.1 = "id").

(** The reference step of [decodeAttribute]: [None] is the early exit. *)
Definition decodeReference (c : codec) (attr : string * string) (v : value number)
  : M number (option (value number)) :=
  if isReference c (getFieldName c (Some attr.1)) then
    do tmp <- getObject v ;
    if is_null tmp then
      do s <- reads (fun w => to_string w v) ;
      do _ <- warn ("mxObjectCodec.decode: No object for " ++ getName c ++ "."
                    ++ attr.1 ++ "=" ++ s) ;
      ret None
    else ret (Some tmp)
  else ret (Some v).

Definition decodeAttribute (c : codec) (attr : string * string) (obj : value number)
  : M number unit :=
  if negb (isIgnoredAttribute attr) then
    let name := attr.1 in
    do v <- reads (fun w => convertAttributeFromXml w attr obj) ;
    do r <- decodeReference c attr v ;
    match r with
    | None => ret tt
    | Some v' => if negb (isExcluded c name) then set obj name v' else ret tt
    end
  else ret tt.

Definition decodeAttributes (c : codec) (n : node) (obj : value number) : M number unit :=
  foldM (fun _ attr => decodeAttribute c attr obj) (node_attributes n) tt.

Definition getFieldTemplate (w : world number) (obj : value number)
    (fieldname : option string) : value number :=
  let template := get w obj (key_of fieldname) in
  if is_nonempty_array w template then VNull else template.

Definition addObjectValue (obj : value number) (fieldname : option string)
    (v template : value number) : M number unit :=
  if negb (is_null v) && negb (strict_eq v template) then
    match fieldname with
    | Some f => if bool_decide (0 < String.length f) then set obj f v else push obj v
    | None => push obj v
    end
  else ret tt.

(** [try { ... } catch (e) { // ignore }] *)
Definition ignore_errors (m : M number unit) : M number unit :=
  try_catch m (fun _ => ret tt).

Definition processInclude (n : node) (into : value number) : M number bool :=
  if bool_decide (node_name n = "include") then
    do _ <-
      (match getAttribute n "name" with
       | Some name =>
           ignore_errors
             (do xml <- load name ;
              match xml with
              | Some x => do _ <- dec_decode x into ; ret tt
              | None => ret tt
              end)
       | None => ret tt
       end) ;
    ret true
  else ret false.

Definition decodeChild (c : codec) (child : node) (obj : value number) : M number unit :=
  let fieldname := getFieldName c (getAttribute child "as") in
  if bool_decide (fieldname = None) || negb (isExcluded c (key_of fieldname)) then
    do template <- reads (fun w => getFieldTemplate w obj fieldname) ;
    do v <-
      (if bool_decide (node_name child = "add") then
         match getAttribute child "value" with
         | Some s => ret (VStr s)
         | None =>
             if allowEval then js_eval (getTextContent child) else ret VNull
         end
       else dec_decode child template) ;
    try_catch (addObjectValue obj fieldname v template)
      (fun message => throw (message ++ " for " ++ node_name child))
  else ret tt.

Definition decodeChildren (c : codec) (n : node) (obj : value number) : M number unit :=
  foldM (fun _ child =>
           if is_element child then
             do included <- processInclude child obj ;
             if negb included then decodeChild c child obj else ret tt
           else ret tt)
        (node_children n) tt.

(** [node] may be null after a [beforeDecode] hook. *)
Definition decodeNode (c : codec) (n : option node) (obj : value number) : M number unit :=
  match n with
  | Some n => do _ <- decodeAttributes c n obj ; decodeChildren c n obj
  | None => ret tt
  end.

(** [beforeDecode] returns the node and [afterDecode] the object. *)
Definition decode (c : codec) (n : node) (into : value number) : M number (value number) :=
  let id := getAttribute n "id" in
  do cached <- reads (fun w => default VUndefined (objects w !! key_of id)) ;
  do obj <-
    (if is_null cached then
       do o <- (if truthy into then ret into else cloneTemplate c) ;
       do _ <- (match id with
                | Some i => putObject i o
                | None => ret tt
                end) ;
       ret o
     else ret cached) ;
  do _ <- decodeNode c (Some n) obj ;
  ret obj.

End Definitions.

Arguments codec : clear implicits.

(** ** A small runtime for the examples

    Numbers are the integers with [NaN] and the two infinities; the parsing
    functions are those of the language on strings without fraction or
    exponent.  The examples and counterexamples below run in it. *)

Inductive num := NaN | Inf (negative : bool) | Int (z : Z).

(** The value of the longest prefix of decimal digits, if there is one. *)
Fixpoint digits_prefix (acc : option N) (s : string) : option N :=
  match s with
  | EmptyString => acc
  | String a s' =>
      match digit_of a with
      | Some d => digits_prefix (Some (10 * default 0%N acc + d)%N) s'
      | None => acc
      end
  end.

Definition signed (f : string -> option N) (s : string) : option Z :=
  match s with
  | String "-"%char s' => (fun n => (- Z.of_N n)%Z) <$> f s'
  | String "+"%char s' => Z.of_N <$> f s'
  | _ => Z.of_N <$> f s
  end.

Definition all_digits (s : string) : option N :=
  match s with
  | EmptyString => None
  | _ => digits_val 0 s
  end.

Definition int_parseFloat (s : string) : num :=
  match signed (digits_prefix None) s with
  | Some z => Int z
  | None =>
      if bool_decide (s = "Infinity") || bool_decide (s = "+Infinity") then Inf false
      else if bool_decide (s = "-Infinity") then Inf true
      else NaN
  end.

Definition int_toNumber (s : string) : num :=
  if bool_decide (s = "") then Int 0
  else match signed all_digits s with
       | Some z => Int z
       | None =>
           if bool_decide (s = "Infinity") || bool_decide (s = "+Infinity") then Inf false
           else if bool_decide (s = "-Infinity") then Inf true
           else NaN
       end.

Definition int_toString (n : num) : string :=
  match n with
  | NaN => "NaN"
  | Inf false => "Infinity"
  | Inf true => "-Infinity"
  | Int z => pretty z
  end.

Definition int_eqb (a b : num) : bool :=
  match a, b with
  | Int x, Int y => bool_decide (x = y)
  | Inf x, Inf y => bool_decide (x = y)
  | _, _ => false
  end.

Definition is_finite (n : num) : bool :=
  match n with
  | Int _ => true
  | _ => false
  end.

(** Modelled from the spec: [Utils.isNumeric] is not under [src/]; a value
    string is numeric when it "parses as a number", here a finite one. *)
Definition int_isNumeric (s : string) : bool :=
  is_finite (int_parseFloat s) && is_finite (int_toNumber s).

(** Modelled from the spec: [Utils.isInteger] is not under [src/]; it
    recognises the "numeric-looking field names" of array elements, the
    strings that are the decimal form of an integer. *)
Definition int_isInteger (s : string) : bool :=
  match signed all_digits s with
  | Some z => bool_decide (pretty z = s)
  | None => false
  end.

(** The text of the text children. *)
Definition text_of (n : node) : string :=
  foldr (fun ch acc =>
           match ch with
           | Text d => d ++ acc
           | Element _ _ _ => acc
           end) "" (node_children n).

(** Modelled from the spec: [mxCodec] is not under [src/].  An object is
    known by the id held in its [id] field; a nested object is encoded as an
    element named after its constructor; references are resolved "through a
    decode-time object cache"; a child node is decoded into the given
    object. *)
Definition int_getId (w : world num) (v : value num) : option string :=
  match get w v "id" with
  | VStr s => Some s
  | _ => None
  end.

Definition int_encode (v : value num) : M num (option node) :=
  reads (fun w =>
    match v with
    | VObj l => (fun o => createElement (ctor o)) <$> heap w !! l
    | _ => None
    end).

Definition int_getObject (v : value num) : M num (value num) :=
  reads (fun w =>
    let id := match v with
              | VStr s => s
              | VNum n => int_toString n
              | _ => ""
              end in
    default VNull (objects w !! id)).

Definition int_decode (n : node) (into : value num) : M num (value num) :=
  ret into.

#[export] Instance runtime : Env num := {|
  num_zero := Int 0;
  num_one := Int 1;
  num_eqb := int_eqb;
  isNaN := fun n => match n with NaN => true | _ => false end;
  isFinite := is_finite;
  parseFloat := int_parseFloat;
  num_toString := int_toString;
  str_toNumber := int_toNumber;
  obj_toPrimitive := fun _ _ => VStr "[object Object]";
  obj_toString := fun _ _ => "[object Object]";
  construct := fun C => Object C (if bool_decide (C = "Array") then Some 0 else None) [];
  js_eval := fun _ => ret VUndefined;
  isInteger := int_isInteger;
  isNumeric := int_isNumeric;
  getTextContent := text_of;
  load := fun _ => ret None;
  FIELD_NAME := "mxObjectId";
  encodeDefaults := false;
  getId := int_getId;
  enc_encode := int_encode;
  getObject := int_getObject;
  dec_decode := int_decode;
  allowEval := false
|}.

(** A world holding the given objects at the locations 1, 2, ... *)
Definition world_of (os : list (object num)) : world num :=
  World (list_to_map (zip (Pos.of_nat <$> seq 1 (length os)) os)) ∅ [].

(** Encodes the object at [l] and decodes the node into a new instance. *)
Definition roundtrip `{Env number} (c : codec number) (l : loc) : M number (value number) :=
  do n <- encode c l ; decode c n VUndefined.

End Codec.

(** * EdgeHandler *)
Module EdgeHandler.

Local Open Scope list_scope.

Definition Cell := nat.

Section Data.
(** Coordinates are JavaScript numbers; their arithmetic is a parameter. *)
Context {coord : Type}.

Record Point := mkPoint { x : coord; y : coord }.

(** The fields of [Geometry] the handler reads and writes. *)
Record Geometry := mkGeometry {
  gx : coord;
  gy : coord;
  relative : bool;
  offset : option Point;
  gpoints : option (list (option Point))
}.

Record CellState := mkCellState {
  cell : Cell;
  absolutePoints : list (option Point);
  absoluteOffset : Point
}.

(** A shape is known by whether it has a DOM node. *)
Record Shape := mkShape { node : bool }.

(** A custom handle. *)
Record CellHandle := mkCellHandle { handle_id : nat }.

(** The marker: the answer of [hasValidState()], the stroke of
    [highlight.shape] when both exist, and [validState]. *)
Record CellMarker := mkCellMarker {
  hasValidState : bool;
  highlight_stroke : option string;
  validState : option CellState
}.

Record ConstraintHandler := mkConstraintHandler {
  currentConstraint : bool;   (* [currentConstraint != null] *)
  currentFocus : option CellState
}.

(** What [mouseUp] asks of the mouse event and of the graph about it. *)
Record InternalMouseEvent := mkMouseEvent {
  getX : coord;
  getY : coord;
  isIgnoreTerminalEvent : bool;
  isCloneEvent : bool;
  isToggleEvent : bool
}.

(** The calls the handler makes on the model, the graph, the view and its
    shapes. *)
Inductive call :=
| beginUpdate
| endUpdate
| execute (i : Z)                                   (* customHandles[i].execute(me) *)
| add (parent : Cell) (child : Cell) (i : nat)      (* model.add *)
| setGeometry (c : Cell) (g : Geometry)             (* model.setGeometry *)
| setTerminal (edge : Cell) (terminal : option Cell) (source : bool)
| connectCell (edge : Cell) (terminal : option Cell) (source : bool)
| cloneCell (c : Cell)                              (* graph.cloneCell *)
| other (what : string).                            (* view, shapes, selection *)

(** The calls that change the model. *)
Definition is_mutation (c : call) : bool :=
  match c with
  | execute _ | add _ _ _ | setGeometry _ _ | setTerminal _ _ _ | connectCell _ _ _ => true
  | _ => false
  end.

Record handler := Handler {
  state : CellState;
  marker : option CellMarker;
  constraintHandler : option ConstraintHandler;
  error : option string;
  shape : option Shape;
  bends : list (option Shape);
  virtualBends : option (list (option Shape));
  labelShape : option Shape;
  cloneEnabled : bool;
  customHandles : option (list CellHandle);
  index : option Z;
  isSource : bool;
  isTarget : bool;
  label : option Point;
  isLabel : bool;
  points : option (list (option Point));
  snapPoint : option Point;
  abspoints : list (option Point);
  active : bool;
  startX : coord;
  startY : coord
}.

Definition set_error (v : option string) (h : handler) : handler :=
  Handler (state h) (marker h) (constraintHandler h) v (shape h) (bends h) (virtualBends h) (labelShape h) (cloneEnabled h) (customHandles h) (index h) (isSource h) (isTarget h) (label h) (isLabel h) (points h) (snapPoint h) (abspoints h) (active h) (startX h) (startY h).

Definition set_bends (v : list (option Shape)) (h : handler) : handler :=
  Handler (state h) (marker h) (constraintHandler h) (error h) (shape h) v (virtualBends h) (labelShape h) (cloneEnabled h) (customHandles h) (index h) (isSource h) (isTarget h) (label h) (isLabel h) (points h) (snapPoint h) (abspoints h) (active h) (startX h) (startY h).

Definition set_virtualBends (v : option (list (option Shape))) (h : handler) : handler :=
  Handler (state h) (marker h) (constraintHandler h) (error h) (shape h) (bends h) v (labelShape h) (cloneEnabled h) (customHandles h) (index h) (isSource h) (isTarget h) (label h) (isLabel h) (points h) (snapPoint h) (abspoints h) (active h) (startX h) (startY h).

Definition set_customHandles (v : option (list CellHandle)) (h : handler) : handler :=
  Handler (state h) (marker h) (constraintHandler h) (error h) (shape h) (bends h) (virtualBends h) (labelShape h) (cloneEnabled h) v (index h) (isSource h) (isTarget h) (label h) (isLabel h) (points h) (snapPoint h) (abspoints h) (active h) (startX h) (startY h).

Definition set_index (v : option Z) (h : handler) : handler :=
  Handler (state h) (marker h) (constraintHandler h) (error h) (shape h) (bends h) (virtualBends h) (labelShape h) (cloneEnabled h) (customHandles h) v (isSource h) (isTarget h) (label h) (isLabel h) (points h) (snapPoint h) (abspoints h) (active h) (startX h) (startY h).

Definition set_isSource (v : bool) (h : handler) : handler :=
  Handler (state h) (marker h) (constraintHandler h) (error h) (shape h) (bends h) (virtualBends h) (labelShape h) (cloneEnabled h) (customHandles h) (index h) v (isTarget h) (label h) (isLabel h) (points h) (snapPoint h) (abspoints h) (active h) (startX h) (startY h).

Definition set_isTarget (v : bool) (h : handler) : handler :=
  Handler (state h) (marker h) (constraintHandler h) (error h) (shape h) (bends h) (virtualBends h) (labelShape h) (cloneEnabled h) (customHandles h) (index h) (isSource h) v (label h) (isLabel h) (points h) (snapPoint h) (abspoints h) (active h) (startX h) (startY h).

Definition set_label (v : option Point) (h : handler) : handler :=
  Handler (state h) (marker h) (constraintHandler h) (error h) (shape h) (bends h) (virtualBends h) (labelShape h) (cloneEnabled h) (customHandles h) (index h) (isSource h) (isTarget h) v (isLabel h) (points h) (snapPoint h) (abspoints h) (active h) (startX h) (startY h).

Definition set_isLabel (v : bool) (h : handler) : handler :=
  Handler (state h) (marker h) (constraintHandler h) (error h) (shape h) (bends h) (virtualBends h) (labelShape h) (cloneEnabled h) (customHandles h) (index h) (isSource h) (isTarget h) (label h) v (points h) (snapPoint h) (abspoints h) (active h) (startX h) (startY h).

Definition set_points (v : option (list (option Point))) (h : handler) : handler :=
  Handler (state h) (marker h) (constraintHandler h) (error h) (shape h) (bends h) (virtualBends h) (labelShape h) (cloneEnabled h) (customHandles h) (index h) (isSource h) (isTarget h) (label h) (isLabel h) v (snapPoint h) (abspoints h) (active h) (startX h) (startY h).

Definition set_snapPoint (v : option Point) (h : handler) : handler :=
  Handler (state h) (marker h) (constraintHandler h) (error h) (shape h) (bends h) (virtualBends h) (labelShape h) (cloneEnabled h) (customHandles h) (index h) (isSource h) (isTarget h) (label h) (isLabel h) (points h) v (abspoints h) (active h) (startX h) (startY h).

Definition set_abspoints (v : list (option Point)) (h : handler) : handler :=
  Handler (state h) (marker h) (constraintHandler h) (error h) (shape h) (bends h) (virtualBends h) (labelShape h) (cloneEnabled h) (customHandles h) (index h) (isSource h) (isTarget h) (label h) (isLabel h) (points h) (snapPoint h) v (active h) (startX h) (startY h).

Definition set_active (v : bool) (h : handler) : handler :=
  Handler (state h) (marker h) (constraintHandler h) (error h) (shape h) (bends h) (virtualBends h) (labelShape h) (cloneEnabled h) (customHandles h) (index h) (isSource h) (isTarget h) (label h) (isLabel h) (points h) (snapPoint h) (abspoints h) v (startX h) (startY h).

End Data.

Arguments Point : clear implicits.
Arguments Geometry : clear implicits.
Arguments CellState : clear implicits.
Arguments CellMarker : clear implicits.
Arguments ConstraintHandler : clear implicits.
Arguments InternalMouseEvent : clear implicits.
Arguments call : clear implicits.
Arguments handler : clear implicits.

(** What the handler uses and the sources do not define: the arithmetic of
    coordinates, the handle constants of [InternalEvent], [Geometry.clone] and
    [setTerminalPoint], and the model, graph and view behind the calls.  A
    call changes the store and returns or throws as [perform] says, given the
    calls made so far. *)
Class Graph (coord : Type) := {
  c_eqb : coord -> coord -> bool;
  c_add : coord -> coord -> coord;
  c_sub : coord -> coord -> coord;
  c_mul : coord -> coord -> coord;
  c_div : coord -> coord -> coord;
  c_round : coord -> coord;
  c_of_Z : Z -> coord;
  CUSTOM_HANDLE : Z;
  VIRTUAL_HANDLE : Z;
  LABEL_HANDLE : Z;
  Store : Type;
  perform : list (call coord * bool) -> call coord -> Store -> Store * bool;
  getGeometry : Store -> Cell -> option (Geometry coord);
  getParent : Store -> Cell -> option Cell;
  getChildCount : Store -> Cell -> nat;
  getTerminal : Store -> Cell -> bool -> option Cell;
  cloned : Store -> Cell -> Cell;
  clone : Geometry coord -> Geometry coord;
  setTerminalPoint : Geometry coord -> Point coord -> bool -> Geometry coord;
  isCellsCloneable : bool;
  isAllowDanglingEdges : bool;
  isCellBendable : Cell -> bool;
  isEntityRelation : CellState coord -> option (Geometry coord) -> bool;
  scale : coord;
  translate : Point coord;
  panDx : coord;
  panDy : coord;
  origin : Store -> option Cell -> option (Point coord);
  getRelativePoint : CellState coord -> coord -> coord -> Point coord;
  getPoint : CellState coord -> Geometry coord -> Point coord
}.

Section Methods.
Context {coord : Type} `{Graph coord}.

(** The handler, the model behind the calls, and the calls made so far, each
    with whether it threw. *)
Record world := mkWorld {
  this : handler coord;
  store : Store;
  calls : list (call coord * bool)
}.

(** A method returns or throws; the state reached is kept in both cases. *)
Inductive result (A : Type) :=
| Return (a : A) (s : world)
| Raise (s : world).

Arguments Return {A} a s.
Arguments Raise {A} s.

Definition Cmd (A : Type) : Type := world -> result A.

Definition ret {A} (a : A) : Cmd A := fun s => Return a s.

Definition bind {A B} (m : Cmd A) (k : A -> Cmd B) : Cmd B :=
  fun s => match m s with
           | Return a s' => k a s'
           | Raise s' => Raise s'
           end.

Definition raise {A} : Cmd A := fun s => Raise s.

Notation "'do' x <- m ; k" := (bind m (fun x => k))
  (at level 10, x name, m at level 100, k at level 200).

Definition get_this : Cmd (handler coord) := fun s => Return (this s) s.

Definition get_store : Cmd Store := fun s => Return (store s) s.

Definition modify (f : handler coord -> handler coord) : Cmd unit :=
  fun s => Return tt (mkWorld (f (this s)) (store s) (calls s)).

(** A call on a collaborator. *)
Definition invoke (c : call coord) : Cmd unit :=
  fun s =>
    let r := perform (calls s) c (store s) in
    let s' := mkWorld (this s) r.1 (calls s ++ [(c, r.2)]) in
    if r.2 then Raise s' else Return tt s'.

(** Reading a member of [null] or [undefined] is a TypeError. *)
Definition require {A} (o : option A) : Cmd A :=
  match o with
  | Some a => ret a
  | None => raise
  end.

(** [try { body } finally { fin }] *)
Definition try_finally {A} (body : Cmd A) (fin : Cmd unit) : Cmd A :=
  fun s => match body s with
           | Return a s' =>
               match fin s' with
               | Return _ s'' => Return a s''
               | Raise s'' => Raise s''
               end
           | Raise s' =>
               match fin s' with
               | Return _ s'' => Raise s''
               | Raise s'' => Raise s''
               end
           end.

(** [try { body } catch (e) { // ignore }] *)
Definition try_ignore (body : Cmd unit) : Cmd unit :=
  fun s => match body s with
           | Return _ s' => Return tt s'
           | Raise s' => Return tt s'
           end.

Fixpoint for_each {A} (f : A -> Cmd unit) (l : list A) : Cmd unit :=
  match l with
  | [] => ret tt
  | a :: l' => do _ <- f a ; for_each f l'
  end.

(** [a[i]] read as [Point | null]: a hole or an index out of range is
    [undefined]. *)
Definition at_index {A} (a : list (option A)) (i : nat) : option A :=
  mjoin (a !! i).

(** [a[i] = v]: the array grows by holes up to [i]. *)
Definition array_set {A} (a : list (option A)) (i : nat) (v : option A) : list (option A) :=
  if decide (i < length a) then <[i := v]> a
  else a ++ replicate (i - length a) None ++ [v].

(** [a.splice(i, 1)] *)
Definition splice1 {A} (a : list A) (i : nat) : list A := delete i a.

Definition with_points (g : Geometry coord) (p : option (list (option (Point coord))))
  : Geometry coord :=
  mkGeometry (gx g) (gy g) (relative g) (offset g) p.

Definition zero : coord := c_of_Z 0.

(** ** Bends *)

Definition isHandleVisible (i : nat) : Cmd bool :=
  do h <- get_this ;
  do st <- get_store ;
  let entity :=
    match getGeometry st (cell (state h)) with
    | Some geo => isEntityRelation (state h) (Some geo)
    | None => false
    end in
  ret (negb entity || bool_decide (i = 0) || bool_decide (i = length (abspoints h) - 1)).

(** One round of the loop of [createBends]. *)
Definition createBend (bends : list (option Shape)) (i : nat) : Cmd (list (option Shape)) :=
  do visible <- isHandleVisible i ;
  do h <- get_this ;
  if visible then
    let terminal := bool_decide (i = 0) || bool_decide (i = length (abspoints h) - 1) in
    if terminal || isCellBendable (cell (state h)) then
      do _ <- invoke (other "createHandleShape") ;
      do _ <- invoke (other "initBend") ;
      let bends' := bends ++ [Some (mkShape true)] in
      if negb terminal then
        do pts <- require (points h) ;
        do _ <- modify (set_points (Some (pts ++ [Some (mkPoint zero zero)]))) ;
        ret bends'
      else ret bends'
    else ret bends
  else ret bends.

Fixpoint fold_cmd {A B} (f : B -> A -> Cmd B) (l : list A) (b : B) : Cmd B :=
  match l with
  | [] => ret b
  | a :: l' => do b' <- f b a ; fold_cmd f l' b'
  end.

Definition createBends : Cmd (list (option Shape)) :=
  do h <- get_this ;
  fold_cmd createBend (seq 0 (length (abspoints h))) [].

Definition createVirtualBends : Cmd (list (option Shape)) :=
  do h <- get_this ;
  if isCellBendable (cell (state h)) then
    fold_cmd (fun bends (_ : nat) =>
                do _ <- invoke (other "createHandleShape") ;
                do _ <- invoke (other "initBend") ;
                ret (bends ++ [Some (mkShape true)]))
             (seq 1 (length (abspoints h) - 1)) []
  else ret [].

Definition createCustomHandles : Cmd (list CellHandle) := ret [].

Definition destroyBends {A} (bends : list (option A)) : Cmd unit :=
  for_each (fun b => match b with
                     | Some _ => invoke (other "destroy")
                     | None => ret tt
                     end) bends.

Definition getSelectionPoints (st : CellState coord) : list (option (Point coord)) :=
  absolutePoints st.

Definition refresh : Cmd unit :=
  do h <- get_this ;
  do _ <- modify (set_abspoints (getSelectionPoints (state h))) ;
  do _ <- modify (set_points (Some [])) ;
  do _ <- destroyBends (bends h) ;
  do bs <- createBends ;
  do _ <- modify (set_bends bs) ;
  do _ <-
    (match virtualBends h with
     | Some vbs =>
         do _ <- destroyBends vbs ;
         do vbs' <- createVirtualBends ;
         modify (set_virtualBends (Some vbs'))
     | None => ret tt
     end) ;
  do _ <-
    (match customHandles h with
     | Some chs =>
         do _ <- destroyBends (Some <$> chs) ;
         do chs' <- createCustomHandles ;
         modify (set_customHandles (Some chs'))
     | None => ret tt
     end) ;
  match labelShape h with
  | Some sh => if node sh then invoke (other "labelShape.node.parentNode.appendChild")
               else ret tt
  | None => ret tt
  end.

(** ** Redrawing *)

(** The preview is drawn inside [try { ... } catch (e) { // ignore }]. *)
Definition drawPreview : Cmd unit :=
  try_ignore (invoke (other "drawPreview")).

(** One round of the loop of [redrawInnerBends]. *)
Definition redrawInnerBend (i : nat) : Cmd unit :=
  do h <- get_this ;
  match at_index (bends h) i with
  | Some _ =>
      match at_index (abspoints h) i with
      | Some _ => invoke (other "bend.redraw")
      | None =>
          do _ <- invoke (other "bend.destroy") ;
          modify (set_bends (<[i := None]> (bends h)))
      end
  | None => ret tt
  end.

Definition redrawInnerBends : Cmd unit :=
  do h <- get_this ;
  for_each redrawInnerBend (seq 1 (length (bends h) - 2)).

(** One round of the loop over [virtualBends] in [redrawHandles]. *)
Definition redrawVirtualBend (vbs : list (option Shape))
    (last : option (Point coord)) (i : nat) : Cmd (option (Point coord)) :=
  do h <- get_this ;
  match at_index vbs i, at_index (abspoints h) (i + 1) with
  | Some _, Some pt =>
      do _ <- require last ;
      do _ <- invoke (other "virtualBend.redraw") ;
      ret (Some pt)
  | _, _ => ret last
  end.

Definition redrawHandles : Cmd unit :=
  do h <- get_this ;
  do _ <- require (labelShape h) ;
  do _ <- modify (set_label (Some (mkPoint (x (absoluteOffset (state h)))
                                           (y (absoluteOffset (state h)))))) ;
  do _ <- invoke (other "labelShape.bounds") ;
  do _ <-
    (if bool_decide (0 < length (bends h)) then
       let n := length (abspoints h) - 1 in
       do _ <- require (at_index (abspoints h) 0) ;
       do _ <- require (at_index (bends h) 0) ;
       do _ <- invoke (other "bend.redraw") ;
       do _ <- require (at_index (abspoints h) n) ;
       do _ <- require (at_index (bends h) (length (bends h) - 1)) ;
       do _ <- invoke (other "bend.redraw") ;
       redrawInnerBends
     else ret tt) ;
  do _ <-
    (match virtualBends h with
     | Some vbs =>
         do _ <- fold_cmd (redrawVirtualBend vbs) (seq 0 (length vbs))
                   (at_index (abspoints h) 0) ;
         ret tt
     | None => ret tt
     end) ;
  do _ <- invoke (other "labelShape.redraw") ;
  match customHandles h with
  | Some chs => for_each (fun _ => invoke (other "customHandle.redraw")) chs
  | None => ret tt
  end.

(** One round of the loop of [redraw]: [points[i - 1] = pts[i - 1]]. *)
Definition redrawPoint (pts : list (option (Point coord))) (i : nat) : Cmd unit :=
  do h <- get_this ;
  match at_index (bends h) i, at_index (abspoints h) i with
  | Some _, Some _ =>
      do ps <- require (points h) ;
      modify (set_points (Some (array_set ps (i - 1) (at_index pts (i - 1)))))
  | _, _ => ret tt
  end.

Definition redraw (ignoreHandles : bool) : Cmd unit :=
  do h <- get_this ;
  do _ <- modify (set_abspoints (absolutePoints (state h))) ;
  do st <- get_store ;
  do _ <-
    (match getGeometry st (cell (state h)) with
     | Some g =>
         if bool_decide (0 < length (bends h)) then
           match gpoints g with
           | Some pts =>
               do _ <- (match points h with
                        | None => modify (set_points (Some []))
                        | Some _ => ret tt
                        end) ;
               for_each (redrawPoint pts) (seq 1 (length (bends h) - 2))
           | None => ret tt
           end
         else ret tt
     | None => ret tt
     end) ;
  do _ <- drawPreview ;
  if negb ignoreHandles then redrawHandles else ret tt.

(** ** Reset and the escape listener *)

(** [livePreview] and [sizers] are no members of this class: that branch of
    [reset] is never taken.  [setPreviewColor] only writes the stroke of the
    preview shape and [removeHint] is empty. *)
Definition reset : Cmd unit :=
  do h <- get_this ;
  do _ <- (if active h then refresh else ret tt) ;
  do _ <- modify (set_error None) ;
  do _ <- modify (set_index None) ;
  do _ <- modify (set_label None) ;
  do _ <- modify (set_points None) ;
  do _ <- modify (set_snapPoint None) ;
  do _ <- modify (set_isLabel false) ;
  do _ <- modify (set_isSource false) ;
  do _ <- modify (set_isTarget false) ;
  do _ <- modify (set_active false) ;
  do h <- get_this ;
  do _ <- (match marker h with
           | Some _ => invoke (other "marker.reset")
           | None => ret tt
           end) ;
  do _ <- (match constraintHandler h with
           | Some _ => invoke (other "constraintHandler.reset")
           | None => ret tt
           end) ;
  do _ <- (match customHandles h with
           | Some chs => for_each (fun _ => invoke (other "customHandle.reset")) chs
           | None => ret tt
           end) ;
  redraw false.

(** The listener the constructor registers for [InternalEvent.ESCAPE]. *)
Definition escapeHandler : Cmd unit :=
  do h <- get_this ;
  let dirty := bool_decide (index h <> None) in
  do _ <- reset ;
  if dirty then invoke (other "cellRenderer.redraw") else ret tt.

(** ** Committing a gesture *)

Definition round_div (a b : coord) : coord := c_round (c_div a b).

Definition moveLabel (edgeState : CellState coord) (lx ly : coord) : Cmd unit :=
  do st <- get_store ;
  match getGeometry st (cell edgeState) with
  | Some geometry =>
      let geometry := clone geometry in
      let geometry' :=
        if relative geometry then
          let pt := getRelativePoint edgeState lx ly in
          let g1 := mkGeometry (c_div (c_round (c_mul (x pt) (c_of_Z 10000))) (c_of_Z 10000))
                      (c_round (y pt)) (relative geometry)
                      (Some (mkPoint zero zero)) (gpoints geometry) in
          let pt := getPoint edgeState g1 in
          mkGeometry (gx g1) (gy g1) (relative g1)
            (Some (mkPoint (round_div (c_sub lx (x pt)) scale)
                           (round_div (c_sub ly (y pt)) scale)))
            (gpoints g1)
        else
          let pts := absolutePoints edgeState in
          match at_index pts 0, at_index pts (length pts - 1) with
          | Some p0, Some pe =>
              let cx := c_add (x p0) (c_div (c_sub (x pe) (x p0)) (c_of_Z 2)) in
              let cy := c_add (y p0) (c_div (c_sub (y pe) (y p0)) (c_of_Z 2)) in
              mkGeometry zero zero (relative geometry)
                (Some (mkPoint (round_div (c_sub lx cx) scale)
                               (round_div (c_sub ly cy) scale)))
                (gpoints geometry)
          | _, _ => geometry
          end in
      invoke (setGeometry (cell edgeState) geometry')
  | None => ret tt
  end.

Definition connect (edge terminal : Cell) (isSource : bool) : Cmd Cell :=
  do _ <- invoke beginUpdate ;
  do _ <- try_finally
            (do h <- get_this ;
             do _ <- require (constraintHandler h) ;
             invoke (connectCell edge (Some terminal) isSource))
            (invoke endUpdate) ;
  ret edge.

Definition changeTerminalPoint (edge : Cell) (point : Point coord) (isSource clone_ : bool)
  : Cmd Cell :=
  do _ <- invoke beginUpdate ;
  try_finally
    (do edge' <-
       (if clone_ then
          do st <- get_store ;
          let parent := getParent st edge in
          let terminal := getTerminal st edge (negb isSource) in
          do _ <- invoke (cloneCell edge) ;
          let edge' := cloned st edge in
          do p <- require parent ;
          do st' <- get_store ;
          do _ <- invoke (add p edge' (getChildCount st' p)) ;
          do _ <- invoke (setTerminal edge' terminal (negb isSource)) ;
          ret edge'
        else ret edge) ;
     do st <- get_store ;
     do _ <-
       (match getGeometry st edge' with
        | Some geo =>
            let geo := setTerminalPoint (clone geo) point isSource in
            do _ <- invoke (setGeometry edge' geo) ;
            invoke (connectCell edge' None isSource)
        | None => ret tt
        end) ;
     ret edge')
    (invoke endUpdate).

Definition changePoints (edge : Cell) (pts : option (list (option (Point coord))))
    (clone_ : bool) : Cmd Cell :=
  do _ <- invoke beginUpdate ;
  try_finally
    (do edge' <-
       (if clone_ then
          do st <- get_store ;
          let parent := getParent st edge in
          let source := getTerminal st edge true in
          let target := getTerminal st edge false in
          do _ <- invoke (cloneCell edge) ;
          let edge' := cloned st edge in
          do p <- require parent ;
          do st' <- get_store ;
          do _ <- invoke (add p edge' (getChildCount st' p)) ;
          do _ <- invoke (setTerminal edge' source true) ;
          do _ <- invoke (setTerminal edge' target false) ;
          ret edge'
        else ret edge) ;
     do st <- get_store ;
     do _ <-
       (match getGeometry st edge' with
        | Some geo => invoke (setGeometry edge' (with_points (clone geo) pts))
        | None => ret tt
        end) ;
     ret edge')
    (invoke endUpdate).

(** The terminal the gesture ends on, if any. *)
Definition dropTerminal (h : handler coord) : Cmd (option Cell) :=
  do ch <- require (constraintHandler h) ;
  let terminal :=
    if currentConstraint ch then cell <$> currentFocus ch else None in
  match terminal with
  | Some t => ret (Some t)
  | None =>
      do m <- require (marker h) ;
      if hasValidState m then
        match highlight_stroke m with
        | Some stroke =>
            if negb (bool_decide (stroke = "transparent"))
               && negb (bool_decide (stroke = "white")) then
              do vs <- require (validState m) ;
              ret (Some (cell vs))
            else ret None
        | None => ret None
        end
      else ret None
  end.

(** The branch of [mouseUp] for a moved source or target handle. *)
Definition mouseUpTerminal (h : handler coord) (edge : Cell) (clone_ : bool) : Cmd Cell :=
  do terminal <- dropTerminal h ;
  match terminal with
  | Some terminal =>
      do st <- get_store ;
      let parent := getParent st edge in
      do _ <- invoke beginUpdate ;
      try_finally
        (do edge' <-
           (if clone_ then
              do st <- get_store ;
              let geo := getGeometry st edge in
              do _ <- invoke (cloneCell edge) ;
              let clone_cell := cloned st edge in
              do p <- require parent ;
              do st' <- get_store ;
              do _ <- invoke (add p clone_cell (getChildCount st' p)) ;
              do _ <- (match geo with
                       | Some geo => invoke (setGeometry clone_cell (clone geo))
                       | None => ret tt
                       end) ;
              do st'' <- get_store ;
              let other_terminal := getTerminal st'' edge (negb (isSource h)) in
              do _ <- invoke (connectCell clone_cell other_terminal (negb (isSource h))) ;
              ret clone_cell
            else ret edge) ;
         connect edge' terminal (isSource h))
        (invoke endUpdate)
  | None =>
      if isAllowDanglingEdges then
        let i := if isSource h then 0 else length (abspoints h) - 1 in
        do pt <- require (at_index (abspoints h) i) ;
        do st <- get_store ;
        let px := c_round (c_sub (c_div (x pt) scale) (x translate)) in
        let py := c_round (c_sub (c_div (y pt) scale) (y translate)) in
        let shifted :=
          match origin st (getParent st edge) with
          | Some o => mkPoint (c_sub px (x o)) (c_sub py (y o))
          | None => mkPoint px py
          end in
        let pt' := mkPoint (c_sub (x shifted) (c_div panDx scale))
                           (c_sub (y shifted) (c_div panDy scale)) in
        do _ <- modify (set_abspoints (<[i := Some pt']> (abspoints h))) ;
        changeTerminalPoint edge pt' (isSource h) clone_
      else ret edge
  end.

Definition is_custom_index (i : Z) : bool :=
  bool_decide (i <= CUSTOM_HANDLE)%Z && bool_decide (VIRTUAL_HANDLE < i)%Z.

(** What [mouseUp] does with a gesture that moved the mouse: the error is
    shown, or the change is applied by the custom handle, [moveLabel],
    [connect], [changeTerminalPoint] or [changePoints].  Returns the edge that
    is selected afterwards. *)
Definition mouseUpCommit (h : handler coord) (index : Z) (me : InternalMouseEvent coord)
  : Cmd Cell :=
  let edge := cell (state h) in
  let clone_ := negb (isIgnoreTerminalEvent me) && isCloneEvent me
                && cloneEnabled h && isCellsCloneable in
  match error h with
  | Some err =>
      do _ <- (if bool_decide (0 < String.length err)
               then invoke (other "validationAlert") else ret tt) ;
      ret edge
  | None =>
      if is_custom_index index then
        match customHandles h with
        | Some chs =>
            do _ <- invoke beginUpdate ;
            do _ <- try_finally
                      (do _ <- require (chs !! Z.to_nat (CUSTOM_HANDLE - index)) ;
                       do _ <- invoke (execute (CUSTOM_HANDLE - index)) ;
                       match shape h with
                       | Some sh => if node sh then invoke (other "shape.redraw")
                                    else ret tt
                       | None => ret tt
                       end)
                      (invoke endUpdate) ;
            ret edge
        | None => ret edge
        end
      else
        match isLabel h, label h with
        | true, Some l =>
            do _ <- moveLabel (state h) (x l) (y l) ;
            ret edge
        | _, _ =>
            if isSource h || isTarget h then mouseUpTerminal h edge clone_
            else if active h then changePoints edge (points h) clone_
            else
              do _ <- invoke (other "view.invalidate") ;
              do _ <- invoke (other "view.validate") ;
              ret edge
        end
  end.

(** The gesture is committed when the mouse has moved; otherwise a toggle
    event changes the selection. *)
Definition mouseUpGesture (h : handler coord) (index : Z) (me : InternalMouseEvent coord)
  : Cmd Cell :=
  if negb (c_eqb (getX me) (startX h)) || negb (c_eqb (getY me) (startY h)) then
    mouseUpCommit h index me
  else
    do _ <- (if isToggleEvent me then invoke (other "selectCellForEvent")
             else ret tt) ;
    ret (cell (state h)).

(** The end of [mouseUp]: the handler is reset unless it was destroyed, and
    a cloned edge is selected. *)
Definition mouseUpFinish (edge' : Cell) : Cmd unit :=
  do h <- get_this ;
  do _ <-
    (match marker h with
     | Some _ =>
         do _ <- reset ;
         do h' <- get_this ;
         if negb (bool_decide (edge' = cell (state h')))
         then invoke (other "setSelectionCell") else ret tt
     | None => ret tt
     end) ;
  invoke (other "me.consume").

Definition mouseUp (me : InternalMouseEvent coord) : Cmd unit :=
  do h0 <- get_this ;
  match index h0, marker h0 with
  | Some index, Some _ =>
      do _ <- modify (set_index None) ;
      do h <- get_this ;
      do edge' <- mouseUpGesture h index me ;
      mouseUpFinish edge'
  | _, _ => ret tt
  end.

(** ** Adding and removing control points *)

Definition removePoint (st : CellState coord) (index : Z) : Cmd unit :=
  do h <- get_this ;
  if bool_decide (0 < index)%Z && bool_decide (index < Z.of_nat (length (abspoints h)) - 1)%Z then
    do s <- get_store ;
    match getGeometry s (cell (state h)) with
    | Some geo =>
        match gpoints geo with
        | Some _ =>
            let geo := clone geo in
            do pts <- require (gpoints geo) ;
            let geo := with_points geo (Some (splice1 pts (Z.to_nat (index - 1)))) in
            do _ <- invoke (setGeometry (cell st) geo) ;
            do _ <- refresh ;
            redraw false
        | None => ret tt
        end
    | None => ret tt
    end
  else ret tt.

End Methods.

Arguments Return {coord H A} a s.
Arguments Raise {coord H A} s.

(** ** A small graph for the examples

    Coordinates are integers, the view is unscaled, the model keeps the
    geometry of each cell, stores what [setGeometry] is given and changes
    nothing else; the calls for which [throwing] holds throw.  The handle
    constants are example values. *)
Definition example_perform (throwing : call Z -> bool)
    (history : list (call Z * bool)) (c : call Z) (st : gmap Cell (Geometry Z))
  : gmap Cell (Geometry Z) * bool :=
  (match c with
   | setGeometry cl g => if throwing c then st else <[cl := g]> st
   | _ => st
   end, throwing c).

Definition example_graph (throwing : call Z -> bool) : Graph Z := {|
  c_eqb := Z.eqb;
  c_add := Z.add;
  c_sub := Z.sub;
  c_mul := Z.mul;
  c_div := Z.div;
  c_round := fun z => z;
  c_of_Z := fun z => z;
  CUSTOM_HANDLE := -100;
  VIRTUAL_HANDLE := -100000;
  LABEL_HANDLE := -1;
  Store := gmap Cell (Geometry Z);
  perform := example_perform throwing;
  getGeometry := fun st c => st !! c;
  getParent := fun _ _ => Some 0;
  getChildCount := fun _ _ => 1;
  getTerminal := fun _ _ _ => None;
  cloned := fun _ c => c + 100;
  clone := fun g => g;
  setTerminalPoint := fun g _ _ => g;
  isCellsCloneable := true;
  isAllowDanglingEdges := true;
  isCellBendable := fun _ => true;
  isEntityRelation := fun _ _ => false;
  scale := 1%Z;
  translate := mkPoint 0%Z 0%Z;
  panDx := 0%Z;
  panDy := 0%Z;
  origin := fun _ _ => None;
  getRelativePoint := fun _ px py => mkPoint px py;
  getPoint := fun _ _ => mkPoint 0%Z 0%Z
|}.

(** An edge (cell 7) from (0,0) over the control point (50,50) to (100,0),
    with its label at (50,25), and the handler of that edge with its three
    bends, no drag going on. *)
Definition example_state : CellState Z :=
  mkCellState 7
    [Some (mkPoint 0 0); Some (mkPoint 50 50); Some (mkPoint 100 0)]%Z
    (mkPoint 50 25)%Z.

Definition example_geometry : Geometry Z :=
  mkGeometry 0%Z 0%Z true None (Some [Some (mkPoint 50 50)%Z]).

Definition example_handler : handler Z :=
  Handler example_state
    (Some (mkCellMarker false None None))
    (Some (mkConstraintHandler false None))
    None
    (Some (mkShape true))
    [Some (mkShape true); Some (mkShape true); Some (mkShape true)]
    (Some [])
    (Some (mkShape true))
    true
    (Some [])
    None false false
    (Some (mkPoint 50 25)%Z)
    false
    (Some [Some (mkPoint 50 50)%Z])
    None
    [Some (mkPoint 0 0); Some (mkPoint 50 50); Some (mkPoint 100 0)]%Z
    false 0%Z 0%Z.

Definition example_world (throwing : call Z -> bool) (h : handler Z)
  : world (H := example_graph throwing) :=
  mkWorld (H := example_graph throwing) h {[ 7 := example_geometry ]} [].

(** A mouse event at the given position, without modifier keys. *)
Definition mouse_at (px py : Z) : InternalMouseEvent Z :=
  mkMouseEvent px py false false false.

End EdgeHandler.

(** * mxCellPath *)
Module CellPath.
Import Js.

Definition Cell := nat.

(** What [mxCellPath] asks of a cell; [mxCell] is not among the sources.
    An index is a JavaScript number: an integer, or [NaN] when [parseInt]
    finds no digits ([None]). *)
Class Cells := {
  getParent : Cell -> option Cell;
  (** [parent.getIndex(child)] *)
  getIndex : Cell -> Cell -> Z;
  (** [parent.getChildAt(index)] *)
  getChildAt : Cell -> option Z -> option Cell
}.

(** ** Strings of the language *)

(** The white space [parseInt] skips, among the ASCII characters. *)
Definition is_space (a : ascii) : bool :=
  let n := N_of_ascii a in
  ((9 <=? n) && (n <=? 13))%N || (n =? 32)%N.

Fixpoint trim_start (s : string) : string :=
  match s with
  | String a s' => if is_space a then trim_start s' else s
  | EmptyString => s
  end.

Definition hex_digit_of (a : ascii) : option N :=
  let n := N_of_ascii a in
  if ((48 <=? n) && (n <=? 57))%N then Some (n - 48)%N
  else if ((65 <=? n) && (n <=? 70))%N then Some (n - 55)%N
  else if ((97 <=? n) && (n <=? 102))%N then Some (n - 87)%N
  else None.

(** The value of the longest prefix of digits in the given radix; [None]
    when the string starts with no digit. *)
Fixpoint digits (digit : ascii -> option N) (radix : N) (acc : option N) (s : string)
  : option N :=
  match s with
  | EmptyString => acc
  | String a s' =>
      match digit a with
      | Some d => digits digit radix (Some (radix * default 0%N acc + d)%N) s'
      | None => acc
      end
  end.

(** [parseInt(s)] without radix: leading white space, a sign, [0x] or [0X]
    for hexadecimal digits, decimal digits otherwise; [None] is [NaN].
    Integers are exact here. *)
Definition parseInt (s : string) : option Z :=
  let s := trim_start s in
  let signed :=
    match s with
    | String a s' =>
        if bool_decide (a = "-"%char) then (true, s')
        else if bool_decide (a = "+"%char) then (false, s')
        else (false, s)
    | EmptyString => (false, s)
    end in
  let magnitude :=
    match signed.2 with
    | String a (String b s') =>
        if bool_decide (a = "0"%char) && (bool_decide (b = "x"%char) || bool_decide (b = "X"%char))
        then digits hex_digit_of 16 None s'
        else digits digit_of 10 None signed.2
    | s' => digits digit_of 10 None s'
    end in
  (fun n => if signed.1 then (- Z.of_N n)%Z else Z.of_N n) <$> magnitude.

(** [s.split(sep)] for a separator of one character. *)
Fixpoint split (sep : ascii) (s : string) : list string :=
  match s with
  | EmptyString => [EmptyString]
  | String a s' =>
      if decide (a = sep) then EmptyString :: split sep s'
      else match split sep s' with
           | t :: ts => String a t :: ts
           | [] => [String a EmptyString]
           end
  end.

(** [s.lastIndexOf(sep)] for a separator of one character; [None] is -1. *)
Fixpoint lastIndexOf (sep : ascii) (s : string) : option nat :=
  match s with
  | EmptyString => None
  | String a s' =>
      match lastIndexOf sep s' with
      | Some i => Some (S i)
      | None => if decide (a = sep) then Some 0 else None
      end
  end.

(** ** The class *)

Definition PATH_SEPARATOR : ascii := "."%char.

Section Paths.
Context `{Cells}.

(** The loop of [create]; the walk to the root ends when the parent chain is
    finite, and [None] says that the fuel ran out before. *)
Fixpoint create_loop (fuel : nat) (cell : Cell) (parent : option Cell) (result : string)
  : option string :=
  match parent with
  | None => Some result
  | Some p =>
      match fuel with
      | 0 => None
      | S fuel' =>
          create_loop fuel' p (getParent p)
            (pretty (getIndex p cell) ++ String PATH_SEPARATOR result)
      end
  end.

Definition create (fuel : nat) (cell : option Cell) : option string :=
  result ← match cell with
           | Some c => create_loop fuel c (getParent c) ""
           | None => Some ""
           end;
  let n := String.length result in
  Some (if bool_decide (1 < n) then substring 0 (n - 1) result else result).

Definition getParentPath (path : option string) : option string :=
  match path with
  | Some p =>
      match lastIndexOf PATH_SEPARATOR p with
      | Some index => Some (substring 0 index p)
      | None => if bool_decide (0 < String.length p) then Some "" else None
      end
  | None => None
  end.

Definition resolve (root : option Cell) (path : option string) : option Cell :=
  match path with
  | Some p =>
      foldl (fun parent token => p' ← parent; getChildAt p' (parseInt token))
        root (split PATH_SEPARATOR p)
  | None => root
  end.

End Paths.

(** [t1 === t2 ? 0 : t1 > t2 ? 1 : -1] on numbers; [NaN] equals nothing and
    exceeds nothing. *)
Definition number_order (t1 t2 : option Z) : Z :=
  match t1, t2 with
  | Some a, Some b => if bool_decide (a = b) then 0 else if bool_decide (b < a)%Z then 1 else -1
  | _, _ => -1
  end%Z.

(** The same on strings. *)
Definition string_order (a b : string) : Z :=
  if bool_decide (a = b) then 0%Z else if String.ltb b a then 1%Z else (-1)%Z.

(** The first position below both lengths at which the strings differ, with
    the two characters there. *)
Fixpoint first_difference (p1 p2 : string) : option (ascii * ascii) :=
  match p1, p2 with
  | String a s1, String b s2 =>
      if decide (a = b) then first_difference s1 s2 else Some (a, b)
  | _, _ => None
  end.

(** [p1[i]] is a string of one character. *)
Definition char_at (a : ascii) : string := String a EmptyString.

Definition compare (p1 p2 : string) : Z :=
  let comp :=
    match first_difference p1 p2 with
    | Some (a, b) =>
        if bool_decide (String.length (char_at a) = 0) || bool_decide (String.length (char_at b) = 0)
        then string_order (char_at a) (char_at b)
        else number_order (parseInt (char_at a)) (parseInt (char_at b))
    | None => 0%Z
    end in
  if bool_decide (comp = 0%Z) then
    let t1 := String.length p1 in
    let t2 := String.length p2 in
    if bool_decide (t1 <> t2) then (if bool_decide (t2 < t1) then 1%Z else (-1)%Z) else comp
  else comp.

(** ** A small tree for the examples

    The root 0 has the children 1 and 2, and 1 has the child 3. *)
Definition example_cells : Cells := {|
  getParent := fun c =>
    match c with
    | 1 | 2 => Some 0
    | 3 => Some 1
    | _ => None
    end;
  getIndex := fun p c =>
    match p, c with
    | 0, 1 => 0%Z
    | 0, 2 => 1%Z
    | 1, 3 => 0%Z
    | _, _ => (-1)%Z
    end;
  getChildAt := fun p i =>
    match p, i with
    | 0, Some 0%Z => Some 1
    | 0, Some 1%Z => Some 2
    | 1, Some 0%Z => Some 3
    | _, _ => None
    end
|}.

End CellPath.

(** * EdgeHandler: starting a gesture, the preview points, adding points,
      destroying the handler *)
Module EdgeHandlerMore.
Import EdgeHandler.

Local Open Scope list_scope.

Section Data.
Context {coord : Type}.

Definition set_marker (v : option (CellMarker coord)) (h : handler coord) : handler coord :=
  Handler (state h) v (constraintHandler h) (error h) (shape h) (bends h) (virtualBends h) (labelShape h) (cloneEnabled h) (customHandles h) (index h) (isSource h) (isTarget h) (label h) (isLabel h) (points h) (snapPoint h) (abspoints h) (active h) (startX h) (startY h).

Definition set_constraintHandler (v : option (ConstraintHandler coord)) (h : handler coord)
  : handler coord :=
  Handler (state h) (marker h) v (error h) (shape h) (bends h) (virtualBends h) (labelShape h) (cloneEnabled h) (customHandles h) (index h) (isSource h) (isTarget h) (label h) (isLabel h) (points h) (snapPoint h) (abspoints h) (active h) (startX h) (startY h).

Definition set_shape (v : option Shape) (h : handler coord) : handler coord :=
  Handler (state h) (marker h) (constraintHandler h) (error h) v (bends h) (virtualBends h) (labelShape h) (cloneEnabled h) (customHandles h) (index h) (isSource h) (isTarget h) (label h) (isLabel h) (points h) (snapPoint h) (abspoints h) (active h) (startX h) (startY h).

Definition set_labelShape (v : option Shape) (h : handler coord) : handler coord :=
  Handler (state h) (marker h) (constraintHandler h) (error h) (shape h) (bends h) (virtualBends h) v (cloneEnabled h) (customHandles h) (index h) (isSource h) (isTarget h) (label h) (isLabel h) (points h) (snapPoint h) (abspoints h) (active h) (startX h) (startY h).

Definition set_startX (v : coord) (h : handler coord) : handler coord :=
  Handler (state h) (marker h) (constraintHandler h) (error h) (shape h) (bends h) (virtualBends h) (labelShape h) (cloneEnabled h) (customHandles h) (index h) (isSource h) (isTarget h) (label h) (isLabel h) (points h) (snapPoint h) (abspoints h) (active h) v (startY h).

Definition set_startY (v : coord) (h : handler coord) : handler coord :=
  Handler (state h) (marker h) (constraintHandler h) (error h) (shape h) (bends h) (virtualBends h) (labelShape h) (cloneEnabled h) (customHandles h) (index h) (isSource h) (isTarget h) (label h) (isLabel h) (points h) (snapPoint h) (abspoints h) (active h) (startX h) v.

(** The two members of the handler that only [destroy] touches: whether the
    escape listener is registered, and the highlight of the parent. *)
Record Lifecycle := mkLifecycle {
  escapeListener : bool;
  parentHighlight : option Shape
}.

(** ** Arrays *)

(** The position [splice] starts at: counted from the end when negative,
    and never outside the array. *)
Definition splice_start {A} (a : list A) (start : Z) : nat :=
  if bool_decide (start < 0)%Z then Z.to_nat (Z.max (Z.of_nat (length a) + start) 0)
  else Nat.min (Z.to_nat start) (length a).

(** [a.splice(start, 0, v)] *)
Definition splice_insert {A} (a : list A) (start : Z) (v : A) : list A :=
  take (splice_start a start) a ++ v :: drop (splice_start a start) a.

(** [a.splice(start, 1)] *)
Definition splice_delete {A} (a : list A) (start : Z) : list A :=
  delete (splice_start a start) a.

(** [a[i] = v] for a number [i]: a negative [i] names no element. *)
Definition assign {A} (a : list (option A)) (i : Z) (v : option A) : list (option A) :=
  if bool_decide (0 <= i)%Z then array_set a (Z.to_nat i) v else a.

End Data.

Arguments Lifecycle : clear implicits.

(** What these methods use besides: the order of coordinates, and more of
    the graph, the view and the utilities that the sources do not define. *)
Class Editing (coord : Type) := {
  (** [a < b] *)
  c_ltb : coord -> coord -> bool;
  (** [graph.isTerminalPointMovable], [graph.isCellDisconnectable] *)
  isTerminalPointMovable : Cell -> bool -> bool;
  isCellDisconnectable : Cell -> Cell -> bool -> bool;
  (** [graph.snap], [graph.isResetEdgesOnConnect()], [graph.getClickTolerance()] *)
  snap : coord -> coord;
  isResetEdgesOnConnect : bool;
  clickTolerance : coord;
  (** [cell.isVertex()] *)
  isVertex : Cell -> bool;
  (** [x] and [y] of [view.getState(cell)], when the cell has a state *)
  stateXY : Cell -> option (Point coord);
  (** [findNearestSegment] and [ptSegDistSq] of the utilities *)
  findNearestSegment : CellState coord -> coord -> coord -> Z;
  ptSegDistSq : coord -> coord -> coord -> coord -> coord -> coord -> coord;
  (** the member [straightRemoveEnabled] *)
  straightRemoveEnabled : bool;
  (** the routing centre of the visible source or target terminal of an edge,
      when the edge has that terminal and no fixed connection point on it *)
  floatingCenter : CellState coord -> bool -> option (Point coord);
  (** whether the state of the parent shows the given highlight *)
  showsHighlight : option Cell -> bool
}.

Section Methods.
Context {coord : Type} `{Graph coord} `{Editing coord}.

Notation "'do' x <- m ; k" := (bind m (fun x => k))
  (at level 10, x name, m at level 100, k at level 200).

(** ** Starting a gesture *)

Definition start (sx sy : coord) (i : Z) : Cmd unit :=
  do _ <- modify (set_startX sx) ;
  do _ <- modify (set_startY sy) ;
  do h <- get_this ;
  let n := length (bends h) in
  let source := if bool_decide (n = 0) then false else bool_decide (i = 0)%Z in
  let target := if bool_decide (n = 0) then false else bool_decide (i = Z.of_nat n - 1)%Z in
  do _ <- modify (set_isSource source) ;
  do _ <- modify (set_isTarget target) ;
  do _ <- modify (set_isLabel (bool_decide (i = LABEL_HANDLE))) ;
  do _ <-
    (if source || target then
       do st <- get_store ;
       let c := cell (state h) in
       match getTerminal st c source with
       | None =>
           if isTerminalPointMovable c source then modify (set_index (Some i)) else ret tt
       | Some terminal =>
           if isCellDisconnectable c terminal source then modify (set_index (Some i))
           else ret tt
       end
     else modify (set_index (Some i))) ;
  (* hides the other custom handles *)
  do h <- get_this ;
  match index h with
  | Some idx =>
      if is_custom_index idx then
        match customHandles h with
        | Some chs =>
            for_each (fun j => if bool_decide (Z.of_nat j <> CUSTOM_HANDLE - idx)%Z
                               then invoke (other "customHandle.setVisible")
                               else ret tt)
              (seq 0 (length chs))
        | None => ret tt
        end
      else ret tt
  | None => ret tt
  end.

(** ** Points *)

(** The point is changed in place and returned; here the new point is the
    result. *)
Definition convertPoint (point : Point coord) (gridEnabled : bool) : Cmd (Point coord) :=
  do h <- get_this ;
  do st <- get_store ;
  let p := if gridEnabled then mkPoint (snap (x point)) (snap (y point)) else point in
  let p := mkPoint (c_round (c_sub (c_div (x p) scale) (x translate)))
                   (c_round (c_sub (c_div (y p) scale) (y translate))) in
  ret (match origin st (getParent st (cell (state h))) with
       | Some o => mkPoint (c_sub (x p) (x o)) (c_sub (y p) (y o))
       | None => p
       end).

(** One round of the loop of [getPreviewPoints] over the bends: the dragged
    point is taken out when it is dropped on another bend.  [contains i] is
    [contains(bends[i].bounds, pt.x, pt.y)]; the flag says that [result] has
    been set. *)
Definition dropOnBend (contains : nat -> bool) (h : handler coord) (idx : Z)
    (acc : list (option (Point coord)) * bool) (i : nat)
  : list (option (Point coord)) * bool :=
  if bool_decide (Z.of_nat i <> idx) then
    match at_index (bends h) i with
    | Some _ =>
        if contains i then
          (if bool_decide (idx <= VIRTUAL_HANDLE)%Z
           then splice_delete acc.1 (VIRTUAL_HANDLE - idx)
           else splice_delete acc.1 (idx - 1), true)
        else acc
    | None => acc
    end
  else acc.

(** The part of [getPreviewPoints] that removes the point when the user
    straightens a segment. *)
Definition straighten (h : handler coord) (idx : Z) (pt : Point coord)
    (points : list (option (Point coord))) : Cmd (list (option (Point coord)) * bool) :=
  let tol := c_mul clickTolerance clickTolerance in
  let abs := assign (absolutePoints (state h)) idx (Some pt) in
  let abs := match floatingCenter (state h) true with
             | Some c => array_set abs 0 (Some c)
             | None => abs
             end in
  let abs := match floatingCenter (state h) false with
             | Some c => assign abs (Z.of_nat (length abs) - 1) (Some c)
             | None => abs
             end in
  if bool_decide (0 < idx)%Z && bool_decide (idx < Z.of_nat (length abs) - 1)%Z then
    do before <- require (at_index abs (Z.to_nat (idx - 1))) ;
    do after <- require (at_index abs (Z.to_nat (idx + 1))) ;
    if c_ltb (ptSegDistSq (x before) (y before) (x after) (y after) (x pt) (y pt)) tol
    then ret (splice_delete points (idx - 1), true)
    else ret (points, false)
  else ret (points, false).

(** [getPreviewPoints(pt, me)]: [None] is [null]; [altDown] is [None] when
    no event is given and [isAltDown] of the event otherwise. *)
Definition getPreviewPoints (contains : nat -> bool) (pt : Point coord)
    (altDown : option bool) : Cmd (option (list (option (Point coord)))) :=
  do h <- get_this ;
  do st <- get_store ;
  match getGeometry st (cell (state h)) with
  | None => ret None
  | Some geometry =>
      do points <- require (gpoints geometry) ;
      match index h with
      | Some idx =>
          if negb (isSource h) && negb (isTarget h) then
            do point <- convertPoint (mkPoint (x pt) (y pt)) false ;
            (* adds the point of a virtual bend *)
            let points :=
              if bool_decide (idx <= VIRTUAL_HANDLE)%Z
              then splice_insert points (VIRTUAL_HANDLE - idx) (Some point)
              else points in
            let dropped :=
              foldl (dropOnBend contains h idx) (points, false) (seq 0 (length (bends h))) in
            do removed <-
              (if negb dropped.2 && straightRemoveEnabled
                  && match altDown with Some alt => negb alt | None => true end
               then straighten h idx pt dropped.1
               else ret dropped) ;
            (* updates the existing point *)
            if negb removed.2 && bool_decide (VIRTUAL_HANDLE < idx)%Z
            then ret (Some (assign removed.1 (idx - 1) (Some point)))
            else ret (Some removed.1)
          else if isResetEdgesOnConnect then ret (Some []) else ret (Some points)
      | None => if isResetEdgesOnConnect then ret (Some []) else ret (Some points)
      end
  end.

(** ** Adding a control point *)

Definition addPointAt (st : CellState coord) (px py : coord) : Cmd unit :=
  do store0 <- get_store ;
  match getGeometry store0 (cell st) with
  | Some geo =>
      let geo := clone geo in
      let pt := mkPoint px py in
      do h <- get_this ;
      do parent <- require (getParent store0 (cell (state h))) ;
      do offset <-
        (if isVertex parent then require (stateXY parent)
         else ret (mkPoint (c_mul (x translate) scale) (c_mul (y translate) scale))) ;
      let index := findNearestSegment st (c_add (c_mul px scale) (x offset))
                                         (c_add (c_mul py scale) (y offset)) in
      let pts := match gpoints geo with
                 | None => [Some pt]
                 | Some pts => splice_insert pts index (Some pt)
                 end in
      do _ <- invoke (setGeometry (cell st) (with_points geo (Some pts))) ;
      do _ <- refresh ;
      redraw false
  | None => ret tt
  end.

(** [pt] is the position of the event in the container and [gridEnabled]
    the answer of [graph.isGridEnabledEvent]. *)
Definition addPoint (st : CellState coord) (pt : Point coord) (gridEnabled : bool) : Cmd unit :=
  do p <- convertPoint pt gridEnabled ;
  do _ <- addPointAt st (x p) (y p) ;
  invoke (other "InternalEvent.consume").

(** ** Destroying the handler *)

Definition isDestroyed : Cmd bool :=
  do h <- get_this ;
  ret (bool_decide (shape h = None)).

Definition destroy (l : Lifecycle) : Cmd Lifecycle :=
  do _ <- (if escapeListener l then invoke (other "graph.removeListener") else ret tt) ;
  do h <- get_this ;
  do _ <- (match marker h with
           | Some _ => do _ <- invoke (other "marker.destroy") ; modify (set_marker None)
           | None => ret tt
           end) ;
  do _ <- (match shape h with
           | Some _ => do _ <- invoke (other "shape.destroy") ; modify (set_shape None)
           | None => ret tt
           end) ;
  do _ <- (match parentHighlight l with
           | Some _ =>
               do st <- get_store ;
               do _ <- (if showsHighlight (getParent st (cell (state h)))
                        then invoke (other "pstate.parentHighlight = null")
                        else ret tt) ;
               invoke (other "parentHighlight.destroy")
           | None => ret tt
           end) ;
  do _ <- (match labelShape h with
           | Some _ => do _ <- invoke (other "labelShape.destroy") ; modify (set_labelShape None)
           | None => ret tt
           end) ;
  do _ <- (match constraintHandler h with
           | Some _ =>
               do _ <- invoke (other "constraintHandler.destroy") ;
               modify (set_constraintHandler None)
           | None => ret tt
           end) ;
  do _ <- (match virtualBends h with
           | Some vbs => destroyBends vbs
           | None => ret tt
           end) ;
  do _ <- modify (set_virtualBends None) ;
  do _ <- (match customHandles h with
           | Some chs => destroyBends (Some <$> chs)
           | None => ret tt
           end) ;
  do _ <- modify (set_customHandles None) ;
  do _ <- destroyBends (bends h) ;
  do _ <- modify (set_bends []) ;
  ret (mkLifecycle false None).

End Methods.

(** ** The rest of the small graph for the examples

    Coordinates are ordered as integers, nothing snaps, every terminal may
    be moved and disconnected, no cell is a vertex, and the nearest segment
    is always the first. *)
Definition example_editing : Editing Z := {|
  c_ltb := Z.ltb;
  isTerminalPointMovable := fun _ _ => true;
  isCellDisconnectable := fun _ _ _ => true;
  snap := fun z => z;
  isResetEdgesOnConnect := false;
  clickTolerance := 4%Z;
  isVertex := fun _ => false;
  stateXY := fun _ => None;
  findNearestSegment := fun _ _ _ => 0%Z;
  ptSegDistSq := fun _ _ _ _ _ _ => 0%Z;
  straightRemoveEnabled := false;
  floatingCenter := fun _ _ => None;
  showsHighlight := fun _ => false
|}.

End EdgeHandlerMore.

(** * mxEdgeSegmentHandler *)
Module EdgeSegmentHandler.
Import EdgeHandler EdgeHandlerMore.

Local Open Scope list_scope.

Section Methods.
Context {coord : Type} `{Graph coord} `{Editing coord}.

(** [Math.abs] and [Math.max]. *)
Variable c_abs : coord -> coord.
Variable c_max : coord -> coord -> coord.

(** The class extends [mxElbowEdgeHandler], which is not among the sources:
    the methods it inherits or overrides there are parameters.
    [super_connect] is [super.connect] for the [isClone] and [me] that
    [connect] is given and only passes on. *)
Variable convertPoint : Point coord -> bool -> Cmd (Point coord).
Variable super_getPreviewPoints : Point coord -> Cmd (option (list (option (Point coord)))).
Variable super_connect : Cell -> Cell -> bool -> Cmd Cell.

(** [source != null && mxUtils.contains(source, x, y)] for the visible source
    or target terminal of the edge. *)
Variable terminal_contains : bool -> coord -> coord -> bool.

Notation "'do' x <- m ; k" := (bind m (fun x => k))
  (at level 10, x name, m at level 100, k at level 200).

(** [Math.abs(a - b) < tol] *)
Definition near (a b tol : coord) : bool := c_ltb (c_abs (c_sub a b)) tol.

(** [Math.round(a) !== 0] *)
Definition nonzero (a : coord) : bool := negb (c_eqb (c_round a) zero).

(** [p0 + (pe - p0) / 2] *)
Definition halfway (a b : coord) : coord := c_add a (c_div (c_sub b a) (c_of_Z 2)).

Definition getCurrentPoints : Cmd (list (option (Point coord))) :=
  do h <- get_this ;
  let pts := absolutePoints (state h) in
  let tol := c_max (c_of_Z 1) scale in
  do straight <-
    (if bool_decide (length pts = 2) then ret true
     else if bool_decide (length pts = 3) then
       do p0 <- require (at_index pts 0) ;
       do p1 <- require (at_index pts 1) ;
       do vertical <-
         (if near (x p0) (x p1) tol
          then do p2 <- require (at_index pts 2) ; ret (near (x p1) (x p2) tol)
          else ret false) ;
       if vertical then ret true
       else if near (y p0) (y p1) tol
            then do p2 <- require (at_index pts 2) ; ret (near (y p1) (y p2) tol)
            else ret false
     else ret false) ;
  if straight then
    do p0 <- require (at_index pts 0) ;
    do pe <- require (at_index pts (length pts - 1)) ;
    let c := mkPoint (halfway (x p0) (x pe)) (halfway (y p0) (y pe)) in
    ret [Some p0; Some c; Some c; Some pe]
  else ret pts.

(** ** The preview while a segment is dragged *)

(** What the loop of [getPreviewPoints] carries: the point [last], the
    result, and whether [last] is the last entry of the result (the same
    object, which the loop changes in place). *)
Record preview := mkPreview {
  last : Point coord;
  result : list (option (Point coord));
  shared : bool
}.

(** [last] and [pt] after the round for the dragged segment: the ends of a
    vertical segment take the x of the pointer, those of a horizontal one
    its y. *)
Definition dragSegment (point last pt : Point coord) : Point coord * Point coord :=
  let vertical := negb (nonzero (c_sub (x last) (x pt))) in
  let horizontal := negb (nonzero (c_sub (y last) (y pt))) in
  (mkPoint (if vertical then x point else x last) (if horizontal then y point else y last),
   mkPoint (if vertical then x point else x pt) (if horizontal then y point else y pt)).

(** One round of the loop, for [pts[i]] of [n] points. *)
Definition previewStep (idx : option Z) (n : nat) (point : Point coord)
    (acc : preview) (ip : nat * option (Point coord)) : Cmd preview :=
  do p <- require ip.2 ;
  do pt <- convertPoint p false ;
  let moved :=
    if bool_decide (Some (Z.of_nat ip.1) = idx) then dragSegment point (last acc) pt
    else (last acc, pt) in
  let result :=
    if shared acc
    then take (length (result acc) - 1) (result acc) ++ [Some moved.1]
    else result acc in
  if bool_decide (ip.1 < n - 1)
  then ret (mkPreview moved.2 (result ++ [Some moved.2]) true)
  else ret (mkPreview moved.2 result false).

Definition getPreviewPoints (point : Point coord)
  : Cmd (option (list (option (Point coord)))) :=
  do h <- get_this ;
  if isSource h || isTarget h then super_getPreviewPoints point
  else
    do pts <- getCurrentPoints ;
    do p0 <- require (at_index pts 0) ;
    do last <- convertPoint p0 false ;
    do point <- convertPoint point false ;
    do r <- fold_cmd (previewStep (index h) (length pts) point)
              (drop 1 (zip (seq 0 (length pts)) pts))
              (mkPreview last [] false) ;
    (* replaces a single point that lies in the source or the target *)
    if bool_decide (length (result r) = 1) then
      do r0 <- require (at_index (result r) 0) ;
      let px := c_add (c_mul (x r0) scale) (x translate) in
      let py := c_add (c_mul (y r0) scale) (y translate) in
      if terminal_contains true px py || terminal_contains false px py
      then ret (Some [Some point; Some point])
      else ret (Some (result r))
    else ret (Some (result r)).

(** ** Reconnecting *)

(** Whether the polyline turns at [pt1], as [connect] and
    [updatePreviewState] test it. *)
Definition turns (pt0 pt1 pt2 : option (Point coord)) : Cmd bool :=
  do p0 <- require pt0 ;
  do p1 <- require pt1 ;
  do dx <- (if nonzero (c_sub (x p0) (x p1)) then ret true
            else do p2 <- require pt2 ; ret (nonzero (c_sub (x p1) (x p2)))) ;
  if dx then
    if nonzero (c_sub (y p0) (y p1)) then ret true
    else do p2 <- require pt2 ; ret (nonzero (c_sub (y p1) (y p2)))
  else ret false.

(** One round of the loop that merges adjacent segments. *)
Definition mergeStep
    (acc : option (Point coord) * option (Point coord) * list (option (Point coord)))
    (pt2 : option (Point coord))
  : Cmd (option (Point coord) * option (Point coord) * list (option (Point coord))) :=
  do t <- turns acc.1.1 acc.1.2 pt2 ;
  do result <-
    (if t then
       do p1 <- require acc.1.2 ;
       do c <- convertPoint p1 false ;
       ret (acc.2 ++ [Some c])
     else ret acc.2) ;
  ret (acc.1.2, pt2, result).

Definition mergeSegments (pts : list (option (Point coord)))
  : Cmd (list (option (Point coord))) :=
  do r <- fold_cmd mergeStep (drop 2 pts) (at_index pts 0, at_index pts 1, []) ;
  ret r.2.

Definition connect (edge terminal : Cell) (isSource : bool) : Cmd Cell :=
  do st <- get_store ;
  do h <- get_this ;
  do merged <-
    (match getGeometry st edge with
     | Some geo =>
         match gpoints geo with
         | Some points =>
             if bool_decide (0 < length points)
             then do r <- mergeSegments (abspoints h) ; ret (Some r)
             else ret None
         | None => ret None
         end
     | None => ret None
     end) ;
  do _ <- invoke beginUpdate ;
  try_finally
    (do _ <-
       (match merged with
        | Some points =>
            do st' <- get_store ;
            match getGeometry st' edge with
            | Some geo => invoke (setGeometry edge (with_points (clone geo) (Some points)))
            | None => ret tt
            end
        | None => ret tt
        end) ;
     super_connect edge terminal isSource)
    (invoke endUpdate).

End Methods.

(** ** An edge with three segments for the examples

    The edge (cell 7) runs from (0,0) down to (0,50), right to (100,50) and
    down to (100,100); the handler drags its middle segment. *)
Definition segment_state : CellState Z :=
  mkCellState 7
    [Some (mkPoint 0 0); Some (mkPoint 0 50); Some (mkPoint 100 50); Some (mkPoint 100 100)]%Z
    (mkPoint 50 50)%Z.

Definition segment_handler : handler Z :=
  Handler segment_state
    (Some (mkCellMarker false None None))
    (Some (mkConstraintHandler false None))
    None
    (Some (mkShape true))
    [Some (mkShape true); Some (mkShape true); Some (mkShape true); Some (mkShape true)]
    (Some [])
    (Some (mkShape true))
    true
    (Some [])
    (Some 2%Z) false false
    (Some (mkPoint 50 50)%Z)
    false
    (Some [Some (mkPoint 0 50); Some (mkPoint 100 50)]%Z)
    None
    [Some (mkPoint 0 0); Some (mkPoint 0 50); Some (mkPoint 100 50); Some (mkPoint 100 100)]%Z
    true 0%Z 0%Z.

End EdgeSegmentHandler.

(** * Properties of the codec *)
Module CodecSpec.
Import Js Codec.

#[local] Arguments get : simpl never.
#[local] Arguments set : simpl never.
#[local] Arguments push : simpl never.
#[local] Arguments to_string : simpl never.
#[local] Arguments loose_eq : simpl never.
#[local] Arguments is_null : simpl never.

Section Properties.
Context {number : Type} `{Env number}.

(** ** Objects and attribute lists *)

Lemma assoc_get_set_eq {V} (k : string) (v : V) l : assoc_get k (assoc_set k v l) = Some v.
Proof.
  induction l as [|[k' v'] l IH]; simpl.
  - by rewrite decide_True.
  - destruct (decide (k = k')) as [->|Hne]; simpl.
    + by rewrite decide_True.
    + by rewrite decide_False.
Qed.

Lemma assoc_get_set_ne {V} (k k' : string) (v : V) l :
  k <> k' -> assoc_get k' (assoc_set k v l) = assoc_get k' l.
Proof.
  intros Hne. induction l as [|[k0 v0] l IH]; simpl.
  - by rewrite decide_False.
  - destruct (decide (k = k0)) as [->|Hne0]; simpl.
    + by rewrite !decide_False.
    + destruct (decide (k' = k0)); done.
Qed.

Lemma get_prop_set_eq (o : object number) k v : get_prop (set_prop o k v) k = v.
Proof. unfold get_prop, set_prop. simpl. by rewrite assoc_get_set_eq. Qed.

Lemma get_prop_set_ne (o : object number) k k' v :
  k <> k' -> get_prop (set_prop o k v) k' = get_prop o k'.
Proof. intros. unfold get_prop, set_prop. simpl. by rewrite assoc_get_set_ne. Qed.

Lemma ctor_set_prop (o : object number) k v : ctor (set_prop o k v) = ctor o.
Proof. done. Qed.

(** The outcome of an assignment to a field of an object of the heap. *)
Lemma set_object (w : world number) l o k v :
  heap w !! l = Some o ->
  set (VObj l) k v w = Ok tt (World (<[l := set_prop o k v]> (heap w)) (objects w) (log w)).
Proof. intros Hl. unfold set. by rewrite Hl. Qed.

Lemma get_after_set (w : world number) l o k v :
  get (World (<[l := set_prop o k v]> (heap w)) (objects w) (log w)) (VObj l) k = v.
Proof. unfold get. simpl. rewrite lookup_insert_eq. apply get_prop_set_eq. Qed.

(** ** C10 *)

(** The number an attribute judged numeric decodes to. *)
Definition numeric_value (s : string) : number :=
  if isNaN (parseFloat s) || negb (isFinite (parseFloat s)) then num_zero else parseFloat s.

(** C10. An attribute the codec judges numeric (x, y, width, height of a
    Geometry, x, y of a Point, or a value [isNumeric] accepts) is converted
    with [parseFloat], and to 0 when the result is NaN or not finite; the
    attribute then decodes without error to that number, not to the string. *)
Theorem numeric_attribute_decodes_to_number (c : codec number) (w : world number)
    (attr : string * string) (obj : value number) :
  isNumericAttribute w attr obj = true ->
  convertAttributeFromXml w attr obj = VNum (numeric_value attr.2) /\
  forall l o,
    obj = VObj l ->
    heap w !! l = Some o ->
    isIgnoredAttribute attr = false ->
    isReference c (getFieldName c (Some attr.1)) = false ->
    isExcluded c attr.1 = false ->
    exists w', decodeAttribute c attr obj w = Ok tt w' /\
               get w' obj attr.1 = VNum (numeric_value attr.2).
Proof.
  intros Hnum.
  assert (Hconv : convertAttributeFromXml w attr obj = VNum (numeric_value attr.2)).
  { unfold convertAttributeFromXml, numeric_value. rewrite Hnum.
    by destruct (isNaN (parseFloat attr.2) || negb (isFinite (parseFloat attr.2))). }
  split; [done|].
  intros l o -> Hl Hign Href Hex.
  eexists. split.
  - unfold decodeAttribute, decodeReference. rewrite Hign, Href, Hex. simpl.
    unfold bind, reads, ret. rewrite Hconv. by apply set_object.
  - apply get_after_set.
Qed.

(** ** The monad, unfolded *)

Ltac run :=
  unfold bind, reads, ret, warn, throw, try_catch, ignore_errors; simpl.

Ltac step :=
  unfold bind, reads, ret, warn, throw, try_catch, ignore_errors;
  cbv beta iota; cbn [key_of].

Definition logged (msg : string) (w : world number) : world number :=
  World (heap w) (objects w) (log w ++ [msg]).

Lemma foldM_cons {A B} (f : B -> A -> M number B) a l b w :
  foldM f (a :: l) b w =
  match f b a w with
  | Ok b' w' => foldM f l b' w'
  | Throw e w' => Throw e w'
  end.
Proof. done. Qed.

(** ** C8 *)

(** C8. When the value of an [add] child cannot be stored (the target has no
    [push]), the error of [addObjectValue] is caught and a new error is
    thrown whose message is the original one followed by " for " and the name
    of the child node; the new error leaves [decodeChild] and, through
    [decodeChildren], [decodeNode]. *)
Theorem add_failure_is_rethrown (c : codec number) (child : node) (obj : value number)
    (s : string) (w w' : world number) (msg : string) :
  node_name child = "add" ->
  getAttribute child "value" = Some s ->
  (getFieldName c (getAttribute child "as") = None \/
   isExcluded c (key_of (getFieldName c (getAttribute child "as"))) = false) ->
  addObjectValue obj (getFieldName c (getAttribute child "as")) (VStr s)
    (getFieldTemplate w obj (getFieldName c (getAttribute child "as"))) w = Throw msg w' ->
  decodeChild c child obj w = Throw (msg ++ " for " ++ node_name child) w' /\
  forall nm attrs rest w0,
    is_element child = true ->
    decodeAttributes c (Element nm attrs (child :: rest)) obj w0 = Ok tt w ->
    decodeNode c (Some (Element nm attrs (child :: rest))) obj w0
    = Throw (msg ++ " for " ++ node_name child) w'.
Proof.
  intros Hadd Hval Hfield Hthrow.
  assert (Hchild : decodeChild c child obj w = Throw (msg ++ " for " ++ node_name child) w').
  { unfold decodeChild.
    assert (Hguard : bool_decide (getFieldName c (getAttribute child "as") = None)
                     || negb (isExcluded c (key_of (getFieldName c (getAttribute child "as"))))
                     = true).
    { destruct Hfield as [Hnone|Hex].
      - by rewrite bool_decide_eq_true_2.
      - rewrite Hex. by rewrite orb_true_r. }
    rewrite Hguard, Hadd, Hval. run. by rewrite Hthrow. }
  split; [done|].
  intros nm attrs rest w0 Helem Hattrs.
  unfold decodeNode, bind. rewrite Hattrs.
  unfold decodeChildren. cbn [node_children]. rewrite foldM_cons. rewrite Helem.
  unfold processInclude. rewrite Hadd. simpl. run.
  rewrite Hadd in Hchild. by rewrite Hchild.
Qed.

(** ** C5 *)

(** C5. A reference without target is skipped with a warning and nothing
    else.  Encoding: a non-null value of a reference field for which
    [getId] has no id leaves the node as it is and logs one warning, and the
    loop of [encodeObject] goes on with the remaining fields.  Decoding: a
    reference attribute for which [getObject] returns null assigns nothing
    and logs one warning, and the loop of [decodeAttributes] goes on with the
    remaining attributes.  Neither throws. *)
Theorem unresolved_reference_is_skipped (c : codec number) :
  (forall name v n w,
     is_null v = false ->
     isReference c name = true ->
     getId w v = None ->
     encodeValue c name v n w
     = Ok n (logged ("mxObjectCodec.encode: No ID for " ++ getName c ++ "."
                     ++ key_of name ++ "=" ++ to_string w v) w)) /\
  (forall obj k ks n w,
     is_null (get w (VObj obj) k) = false ->
     isExcluded c k = false ->
     isInteger k = false ->
     isReference c (Some k) = true ->
     getId w (get w (VObj obj) k) = None ->
     foldM (encodeMember c obj) (k :: ks) n w
     = foldM (encodeMember c obj) ks n
         (logged ("mxObjectCodec.encode: No ID for " ++ getName c ++ "."
                  ++ k ++ "=" ++ to_string w (get w (VObj obj) k)) w)) /\
  (forall attr obj w tmp w1,
     isIgnoredAttribute attr = false ->
     isReference c (getFieldName c (Some attr.1)) = true ->
     getObject (convertAttributeFromXml w attr obj) w = Ok tmp w1 ->
     is_null tmp = true ->
     decodeAttribute c attr obj w
     = Ok tt (logged ("mxObjectCodec.decode: No object for " ++ getName c ++ "."
                      ++ attr.1 ++ "="
                      ++ to_string w1 (convertAttributeFromXml w attr obj)) w1)) /\
  (forall attr rest obj w tmp w1,
     isIgnoredAttribute attr = false ->
     isReference c (getFieldName c (Some attr.1)) = true ->
     getObject (convertAttributeFromXml w attr obj) w = Ok tmp w1 ->
     is_null tmp = true ->
     foldM (fun _ a => decodeAttribute c a obj) (attr :: rest) tt w
     = foldM (fun _ a => decodeAttribute c a obj) rest tt
         (logged ("mxObjectCodec.decode: No object for " ++ getName c ++ "."
                  ++ attr.1 ++ "="
                  ++ to_string w1 (convertAttributeFromXml w attr obj)) w1)).
Proof.
  assert (Henc : forall name v n w,
     is_null v = false -> isReference c name = true -> getId w v = None ->
     encodeValue c name v n w
     = Ok n (logged ("mxObjectCodec.encode: No ID for " ++ getName c ++ "."
                     ++ key_of name ++ "=" ++ to_string w v) w)).
  { intros name v n w Hnull Href Hid.
    unfold encodeValue, encodeReference. rewrite Hnull, Href. run. by rewrite Hid. }
  assert (Hdec : forall attr obj w tmp w1,
     isIgnoredAttribute attr = false ->
     isReference c (getFieldName c (Some attr.1)) = true ->
     getObject (convertAttributeFromXml w attr obj) w = Ok tmp w1 ->
     is_null tmp = true ->
     decodeAttribute c attr obj w
     = Ok tt (logged ("mxObjectCodec.decode: No object for " ++ getName c ++ "."
                      ++ attr.1 ++ "="
                      ++ to_string w1 (convertAttributeFromXml w attr obj)) w1)).
  { intros attr obj w tmp w1 Hign Href Hget Hnull.
    unfold decodeAttribute, decodeReference. rewrite Hign, Href. run.
    by rewrite Hget, Hnull. }
  repeat split.
  - exact Henc.
  - intros obj k ks n w Hnull Hex Hint Href Hid.
    rewrite foldM_cons. unfold encodeMember at 1. run.
    rewrite Hnull, Hex, Hint. simpl.
    by rewrite (Henc (Some k) _ n w Hnull Href Hid).
  - exact Hdec.
  - intros attr rest obj w tmp w1 Hign Href Hget Hnull.
    rewrite foldM_cons. by rewrite (Hdec attr obj w tmp w1 Hign Href Hget Hnull).
Qed.

(** ** C3 *)

(** C3, as the code has it.  For a name [f] the codec excludes (a member of
    [exclude], or the object-identity field name): the round of the loop of
    [encodeObject] for [f] leaves the node and the state as they are,
    whatever the value of the field, so that the excluded names can be
    dropped from the enumeration; the attribute [f] assigns nothing when it
    is decoded (what remains is the lookup of a reference and its warning);
    and a child node that names [f] in [as] is not decoded at all. *)
Theorem excluded_field_is_skipped (c : codec number) (f : string) :
  isExcluded c f = true ->
  (forall obj n w, encodeMember c obj n f w = Ok n w) /\
  (forall obj ks n w,
     foldM (encodeMember c obj) ks n w
     = foldM (encodeMember c obj)
         (filter (fun k => isExcluded c k = false) ks) n w) /\
  (forall s obj w,
     (isIgnoredAttribute (f, s) = true \/
      isReference c (getFieldName c (Some f)) = false) ->
     decodeAttribute c (f, s) obj w = Ok tt w) /\
  (forall s obj w,
     isIgnoredAttribute (f, s) = false ->
     isReference c (getFieldName c (Some f)) = true ->
     decodeAttribute c (f, s) obj w
     = match getObject (convertAttributeFromXml w (f, s) obj) w with
       | Ok tmp w1 =>
           Ok tt (if is_null tmp
                  then logged ("mxObjectCodec.decode: No object for " ++ getName c ++ "."
                               ++ f ++ "="
                               ++ to_string w1 (convertAttributeFromXml w (f, s) obj)) w1
                  else w1)
       | Throw e w1 => Throw e w1
       end) /\
  (forall child obj w,
     getFieldName c (getAttribute child "as") = Some f ->
     decodeChild c child obj w = Ok tt w).
Proof.
  intros Hex.
  assert (Hmember : forall obj n w, encodeMember c obj n f w = Ok n w).
  { intros obj n w. unfold encodeMember. run. rewrite Hex.
    by rewrite andb_false_r. }
  repeat split.
  - exact Hmember.
  - intros obj ks. induction ks as [|k ks IH]; intros n w; [done|].
    rewrite filter_cons. destruct (decide (isExcluded c k = false)) as [Hk|Hk].
    + rewrite !foldM_cons. destruct (encodeMember c obj n k w); [apply IH|done].
    + rewrite foldM_cons.
      assert (Hk' : isExcluded c k = true) by by destruct (isExcluded c k).
      unfold encodeMember at 1. run. rewrite Hk', andb_false_r. apply IH.
  - intros s obj w [Hign|Href].
    + unfold decodeAttribute. by rewrite Hign.
    + unfold decodeAttribute, decodeReference. cbn [fst snd]. rewrite Href.
      destruct (isIgnoredAttribute (f, s)); [done|]. run. by rewrite Hex.
  - intros s obj w Hign Href.
    unfold decodeAttribute, decodeReference. cbn [fst snd]. rewrite Hign, Href. run.
    destruct (getObject (convertAttributeFromXml w (f, s) obj) w) as [tmp w1|e w1]; [|done].
    destruct (is_null tmp); simpl; [done|]. by rewrite Hex.
  - intros child obj w Has. unfold decodeChild. rewrite Has. simpl.
    by rewrite Hex.
Qed.

(** ** What a primitive is written as *)

(** The value [convertAttributeToXml] returns for a primitive: booleans and
    the numbers equal to [true] or [false] become "1" or "0". *)
Definition xml_value (v : value number) : value number :=
  match v with
  | VBool b => VStr (if b then "1" else "0")
  | VNum n =>
      if num_eqb n num_one then VStr "1"
      else if num_eqb n num_zero then VStr "0"
      else VNum n
  | _ => v
  end.

(** The text of the attribute, if one is written. *)
Definition xml_text (v : value number) : option string :=
  match xml_value v with
  | VStr s => Some s
  | VNum n => Some (num_toString n)
  | _ => None
  end.

Definition primitive (v : value number) : Prop := forall l, v <> VObj l.

Lemma convertAttributeToXml_primitive (v : value number) (w : world number) :
  is_null v = false -> primitive v ->
  convertAttributeToXml v w = Ok (xml_value v) w.
Proof.
  intros Hnull Hprim. unfold convertAttributeToXml, isBooleanAttribute.
  rewrite Hnull. run.
  destruct v as [| |b|n|s|src|l]; first [done | by destruct (Hprim l) | idtac]; simpl.
  - unfold loose_eq; simpl. unfold is_null; simpl.
    destruct b; simpl; done.
  - unfold loose_eq; simpl. unfold is_null; simpl.
    destruct (num_eqb n num_one); simpl; [done|].
    by destruct (num_eqb n num_zero).
Qed.

(** The field is written: defaults are encoded, or the value differs from
    the one of the template. *)
Definition written (c : codec number) (w : world number) (k : string) (v : value number)
  : Prop :=
  encodeDefaults = true \/ loose_eq w (get_prop (template c) k) v = false.

Lemma written_guard c w k v :
  written c w k v ->
  bool_decide (Some k = None) || encodeDefaults
  || negb (loose_eq w (get_prop (template c) k) v) = true.
Proof.
  intros [Hd|Hl].
  - rewrite Hd. by rewrite orb_true_r.
  - rewrite Hl. by rewrite orb_true_r.
Qed.

(** The attribute name of a field. *)
Definition attribute_name (c : codec number) (k : string) : string :=
  key_of (getAttributeName c (Some k)).

Lemma getAttributeName_Some c k :
  getAttributeName c (Some k) = Some (attribute_name c k).
Proof.
  unfold attribute_name, getAttributeName. by destruct (assoc_get k (mapping c)).
Qed.

(** A primitive value that is written as an attribute. *)
Lemma encodeValue_primitive c k v text nm attrs ch w :
  is_null v = false -> primitive v ->
  isReference c (Some k) = false ->
  written c w k v ->
  xml_text v = Some text ->
  encodeValue c (Some k) v (Element nm attrs ch) w
  = Ok (Element nm (assoc_set (attribute_name c k) text attrs) ch) w.
Proof.
  intros Hnull Hprim Href Hw Htext.
  unfold encodeValue, encodeReference. rewrite Hnull, Href. cbn [negb]. step.
  rewrite (written_guard _ _ _ _ Hw).
  rewrite getAttributeName_Some. unfold writeAttribute.
  assert (Hobj : typeof_object v = false).
  { destruct v as [| | | | | |l]; first [done | by destruct (Hprim l)]. }
  rewrite Hobj. simpl. unfold writePrimitiveAttribute. run.
  rewrite (convertAttributeToXml_primitive v w Hnull Hprim).
  unfold xml_text in Htext.
  destruct (xml_value v) as [| |b|n|s|src|l] eqn:Hx; try done;
    injection Htext as <-; unfold enc_setAttribute; run; done.
Qed.

(** A reference with an id is written like the string of the id. *)
Lemma encodeValue_reference c k v id nm attrs ch w :
  is_null v = false ->
  isReference c (Some k) = true ->
  getId w v = Some id ->
  written c w k (VStr id) ->
  encodeValue c (Some k) v (Element nm attrs ch) w
  = Ok (Element nm (assoc_set (attribute_name c k) id attrs) ch) w.
Proof.
  intros Hnull Href Hid Hw.
  unfold encodeValue, encodeReference. rewrite Hnull, Href. cbn [negb]. step. rewrite Hid.
  rewrite (written_guard _ _ _ _ Hw).
  rewrite getAttributeName_Some. unfold writeAttribute. cbn [typeof_object negb].
  unfold writePrimitiveAttribute. step.
  rewrite (convertAttributeToXml_primitive (VStr id) w); [|done|done].
  simpl. unfold enc_setAttribute; run. done.
Qed.

(** An object that is no reference becomes a child node tagged with [as]. *)
Lemma encodeValue_object c k l cn cattrs cch nm attrs ch w w1 :
  isReference c (Some k) = false ->
  written c w k (VObj l) ->
  enc_encode (VObj l) w = Ok (Some (Element cn cattrs cch)) w1 ->
  encodeValue c (Some k) (VObj l) (Element nm attrs ch) w
  = Ok (Element nm attrs
          (ch ++ [Element cn (assoc_set "as" (attribute_name c k) cattrs) cch])) w1.
Proof.
  intros Href Hw Henc.
  unfold encodeValue, encodeReference. rewrite Href.
  change (is_null (VObj l)) with false. cbn [negb]. step.
  rewrite (written_guard _ _ _ _ Hw).
  rewrite getAttributeName_Some. unfold writeAttribute. simpl.
  unfold writeComplexAttribute. run. by rewrite Henc.
Qed.

Lemma encodeMember_value c obj n k w :
  is_null (get w (VObj obj) k) = false ->
  isExcluded c k = false ->
  isInteger k = false ->
  encodeMember c obj n k w = encodeValue c (Some k) (get w (VObj obj) k) n w.
Proof.
  intros Hnull Hex Hint. unfold encodeMember. run. by rewrite Hnull, Hex, Hint.
Qed.

(** ** The name of the element *)

Lemma bind_Ok {A B} (m : M number A) (k : A -> M number B) w b w' :
  bind m k w = Ok b w' -> exists a w1, m w = Ok a w1 /\ k a w1 = Ok b w'.
Proof. unfold bind. destruct (m w) as [a w1|e w1]; [eauto|done]. Qed.

Lemma dom_call_Ok what r (w : world number) n' w' :
  dom_call what r w = Ok n' w' -> r = Some n' /\ w' = w.
Proof. destruct r; simpl; unfold ret, throw; [|done]. by intros [= -> ->]. Qed.

Lemma setAttribute_name n a s n' : setAttribute n a s = Some n' -> node_name n' = node_name n.
Proof. destruct n; simpl; [|done]. by intros [= <-]. Qed.

Lemma appendChild_name n ch n' : appendChild n ch = Some n' -> node_name n' = node_name n.
Proof. destruct n; simpl; [|done]. by intros [= <-]. Qed.

Lemma enc_setAttribute_name n a v w n' w' :
  enc_setAttribute n a v w = Ok n' w' -> node_name n' = node_name n.
Proof.
  unfold enc_setAttribute. destruct a as [a|]; [|by intros [= <- _]].
  destruct (is_null v); [by intros [= <- _]|].
  intros (s & w1 & _ & Hc)%bind_Ok. apply dom_call_Ok in Hc as [Hs _].
  by apply setAttribute_name in Hs.
Qed.

Lemma writeAttribute_name c name v n w n' w' :
  writeAttribute c name v n w = Ok n' w' -> node_name n' = node_name n.
Proof.
  unfold writeAttribute. destruct (negb (typeof_object v)).
  - unfold writePrimitiveAttribute. intros (v' & w1 & _ & Hk)%bind_Ok.
    destruct name as [a|].
    + destruct (negb (typeof_function v')); [by eapply enc_setAttribute_name|].
      by injection Hk as <- _.
    + apply bind_Ok in Hk as (child & w2 & _ & Hc).
      apply dom_call_Ok in Hc as [Hs _]. by apply appendChild_name in Hs.
  - unfold writeComplexAttribute. intros ([child|] & w1 & _ & Hk)%bind_Ok.
    + apply bind_Ok in Hk as (ch' & w2 & _ & Hc).
      apply dom_call_Ok in Hc as [Hs _]. by apply appendChild_name in Hs.
    + apply bind_Ok in Hk as (s & w2 & _ & Hk).
      apply bind_Ok in Hk as (u & w3 & _ & Hk). by injection Hk as <- _.
Qed.

Lemma encodeValue_name c name v n w n' w' :
  encodeValue c name v n w = Ok n' w' -> node_name n' = node_name n.
Proof.
  unfold encodeValue. destruct (negb (is_null v)); [|by intros [= <- _]].
  intros ([v'|] & w1 & _ & Hk)%bind_Ok; [|by injection Hk as <- _].
  apply bind_Ok in Hk as (d & w2 & _ & Hk).
  destruct (_ || _ || _); [by eapply writeAttribute_name|by injection Hk as <- _].
Qed.

Lemma encodeMember_name c obj n k w n' w' :
  encodeMember c obj n k w = Ok n' w' -> node_name n' = node_name n.
Proof.
  unfold encodeMember. intros (v & w1 & _ & Hk)%bind_Ok.
  destruct (_ && _); [by eapply encodeValue_name|by injection Hk as <- _].
Qed.

Lemma encode_name c obj w n' w' :
  encode c obj w = Ok n' w' -> node_name n' = getName c.
Proof.
  unfold encode, encodeObject.
  intros (id & w1 & _ & Hk)%bind_Ok.
  apply bind_Ok in Hk as (n1 & w2 & Hid & Hk).
  apply enc_setAttribute_name in Hid.
  apply bind_Ok in Hk as (ks & w3 & _ & Hk).
  transitivity (node_name n1); [|done].
  clear Hid. revert n1 w3 Hk. induction ks as [|k ks IH]; intros n1 w3 Hk.
  - by injection Hk as <- _.
  - rewrite foldM_cons in Hk.
    destruct (encodeMember c obj n1 k w3) as [n2 w4|] eqn:Hm; [|done].
    apply IH in Hk. apply encodeMember_name in Hm. congruence.
Qed.

(** ** C4 *)


(** ** Encoding an object of primitives *)

(** The attributes after the round of the loop of [encodeObject] for a
    primitive field [k] of value [v] that is neither renamed nor a reference. *)
Definition member_attrs (c : codec number) (w : world number) (k : string)
    (v : value number) (attrs : list (string * string)) : list (string * string) :=
  if is_null v || isExcluded c k then attrs
  else if encodeDefaults || negb (loose_eq w (get_prop (template c) k) v) then
    match xml_text v with
    | Some t => assoc_set k t attrs
    | None => attrs
    end
  else attrs.

(** A field the round trip is stated for: its name is no integer, is not
    renamed by [mapping] and is no reference, neither as a field name nor as
    the attribute name the decoder looks up in [reverse]. *)
Definition plain_name (c : codec number) (k : string) : Prop :=
  isInteger k = false /\
  assoc_get k (mapping c) = None /\
  isReference c (Some k) = false /\
  isReference c (getFieldName c (Some k)) = false.

Lemma attribute_name_plain c k : assoc_get k (mapping c) = None -> attribute_name c k = k.
Proof. intros Hm. unfold attribute_name, getAttributeName. by rewrite Hm. Qed.

Lemma encodeMember_plain c l k nm attrs ch w :
  primitive (get w (VObj l) k) ->
  plain_name c k ->
  encodeMember c l (Element nm attrs ch) k w
  = Ok (Element nm (member_attrs c w k (get w (VObj l) k) attrs) ch) w.
Proof.
  intros Hprim (Hint & Hmap & Href & _).
  unfold member_attrs.
  destruct (is_null (get w (VObj l) k)) eqn:Hnull.
  { unfold encodeMember. step. by rewrite Hnull. }
  destruct (isExcluded c k) eqn:Hex.
  { unfold encodeMember. step. rewrite Hex. by rewrite andb_false_r. }
  rewrite (encodeMember_value _ _ _ _ _ Hnull Hex Hint). cbn [orb].
  destruct (encodeDefaults || negb (loose_eq w (get_prop (template c) k) (get w (VObj l) k)))
    eqn:Hw.
  - destruct (xml_text (get w (VObj l) k)) as [t|] eqn:Ht.
    + rewrite (encodeValue_primitive c k _ t nm attrs ch w Hnull Hprim Href);
        [by rewrite attribute_name_plain| |done].
      apply orb_true_iff in Hw as [Hd|Hl]; [by left|right].
      by apply negb_true_iff in Hl.
    + unfold encodeValue, encodeReference. rewrite Hnull, Href. cbn [negb]. step.
      cbn [orb bool_decide]. rewrite bool_decide_eq_false_2 by done. cbn [orb].
      rewrite Hw. rewrite getAttributeName_Some. unfold writeAttribute.
      assert (Hobj : typeof_object (get w (VObj l) k) = false).
      { destruct (get w (VObj l) k) as [| | | | | |l0];
          first [done | by destruct (Hprim l0)]. }
      rewrite Hobj. cbn [negb]. unfold writePrimitiveAttribute. step.
      rewrite (convertAttributeToXml_primitive _ w Hnull Hprim).
      unfold xml_text, xml_value in Ht. unfold xml_value.
      destruct (get w (VObj l) k) as [| |b|n|s|src|l0]; try done.
      destruct (num_eqb n num_one); [done|]. by destruct (num_eqb n num_zero).
  - unfold encodeValue, encodeReference. rewrite Hnull, Href. cbn [negb]. step.
    rewrite bool_decide_eq_false_2 by done. cbn [orb]. by rewrite Hw.
Qed.

Lemma encodeMembers_plain c l ks nm ch w : forall attrs,
  (forall k, k ∈ ks -> primitive (get w (VObj l) k) /\ plain_name c k) ->
  foldM (encodeMember c l) ks (Element nm attrs ch) w
  = Ok (Element nm
          (foldl (fun acc k => member_attrs c w k (get w (VObj l) k) acc) attrs ks) ch) w.
Proof.
  induction ks as [|k ks IH]; intros attrs Hks; [done|].
  rewrite foldM_cons.
  destruct (Hks k) as [Hprim Hplain]; [by left|].
  rewrite (encodeMember_plain c l k nm attrs ch w Hprim Hplain). cbn [foldl].
  apply IH. intros k' Hk'. apply Hks. by right.
Qed.

(** The attribute list [encodeObject] starts from: the id, if there is one. *)
Definition id_attrs (w : world number) (l : loc) : list (string * string) :=
  match getId w (VObj l) with
  | Some id => [("id", id)]
  | None => []
  end.

Lemma encode_plain c l o w :
  heap w !! l = Some o ->
  (forall k, k ∈ (props o).*1 -> primitive (get w (VObj l) k) /\ plain_name c k) ->
  encode c l w
  = Ok (Element (getName c)
          (foldl (fun acc k => member_attrs c w k (get w (VObj l) k) acc)
             (id_attrs w l) (props o).*1) []) w.
Proof.
  intros Hl Hks. unfold encode, encodeObject. step.
  unfold id_attrs, createElement.
  assert (Hkeys : keys w l = (props o).*1) by (unfold keys; by rewrite Hl).
  destruct (getId w (VObj l)) as [id|]; unfold enc_setAttribute.
  - change (is_null (VStr id)) with false. step. cbn [dom_call setAttribute assoc_set].
    step. rewrite Hkeys. by apply encodeMembers_plain.
  - change (is_null VNull) with true. step.
    rewrite Hkeys. by apply encodeMembers_plain.
Qed.

(** ** Attribute lists *)

Lemma assoc_set_fst {V} (k : string) (v : V) l :
  (assoc_set k v l).*1 = if decide (k ∈ l.*1) then l.*1 else (l.*1 ++ [k])%list.
Proof.
  induction l as [|[k' v'] l IH].
  - destruct (decide (k ∈ ([] : list (string * V)).*1)) as [Hin|Hin]; [|done].
    by apply elem_of_nil in Hin.
  - cbn [assoc_set]. destruct (decide (k = k')) as [->|Hne].
    + rewrite decide_True; [done|]. rewrite fmap_cons. by left.
    + rewrite !fmap_cons. rewrite IH. cbn [fst].
      destruct (decide (k ∈ l.*1)) as [Hin|Hin].
      * rewrite decide_True; [done|]. by right.
      * rewrite decide_False; [done|]. by intros [?|?]%elem_of_cons.
Qed.

Lemma assoc_set_NoDup {V} (k : string) (v : V) l : NoDup l.*1 -> NoDup (assoc_set k v l).*1.
Proof.
  intros Hnd. rewrite assoc_set_fst. destruct (decide (k ∈ l.*1)); [done|].
  apply NoDup_app. split_and!; [done| |apply NoDup_singleton].
  intros x Hx ->%list_elem_of_singleton. done.
Qed.

Lemma assoc_get_elem_of {V} (k : string) (v : V) l : assoc_get k l = Some v -> (k, v) ∈ l.
Proof.
  induction l as [|[k' v'] l IH]; simpl; [done|].
  destruct (decide (k = k')) as [->|Hne].
  - intros [= ->]. by left.
  - intros Hg. right. by apply IH.
Qed.

Lemma assoc_get_NoDup {V} (k : string) (v : V) l :
  NoDup l.*1 -> (k, v) ∈ l -> assoc_get k l = Some v.
Proof.
  induction l as [|[k' v'] l IH]; simpl; intros Hnd Hin.
  - by apply elem_of_nil in Hin.
  - apply NoDup_cons in Hnd as [Hk' Hnd].
    apply elem_of_cons in Hin as [[= <- <-]|Hin].
    + by rewrite decide_True.
    + rewrite decide_False; [by apply IH|].
      intros <-. apply Hk'. apply list_elem_of_fmap. by exists (k, v).
Qed.

Lemma member_attrs_NoDup c w k v attrs :
  NoDup attrs.*1 -> NoDup (member_attrs c w k v attrs).*1.
Proof.
  intros Hnd. unfold member_attrs.
  destruct (_ || _); [done|]. destruct (_ || _); [|done].
  destruct (xml_text v); [by apply assoc_set_NoDup|done].
Qed.

Lemma member_attrs_other c w k v attrs k' :
  k <> k' -> assoc_get k' (member_attrs c w k v attrs) = assoc_get k' attrs.
Proof.
  intros Hne. unfold member_attrs.
  destruct (_ || _); [done|]. destruct (_ || _); [|done].
  destruct (xml_text v); [by apply assoc_get_set_ne|done].
Qed.

Lemma members_attrs_NoDup c w (f : string -> value number) ks : forall attrs,
  NoDup attrs.*1 ->
  NoDup (foldl (fun acc k => member_attrs c w k (f k) acc) attrs ks).*1.
Proof.
  induction ks as [|k ks IH]; intros attrs Hnd; [done|].
  cbn [foldl]. apply IH. by apply member_attrs_NoDup.
Qed.

Lemma members_attrs_other c w (f : string -> value number) ks k' : forall attrs,
  k' ∉ ks ->
  assoc_get k' (foldl (fun acc k => member_attrs c w k (f k) acc) attrs ks)
  = assoc_get k' attrs.
Proof.
  induction ks as [|k ks IH]; intros attrs Hk'; [done|].
  cbn [foldl]. apply not_elem_of_cons in Hk' as [Hne Hk'].
  rewrite IH by done. by apply member_attrs_other.
Qed.

(** A field that is written is found in the attribute list of the node. *)
Lemma members_attrs_written c w (f : string -> value number) ks k t : forall attrs,
  NoDup ks -> k ∈ ks ->
  is_null (f k) = false -> isExcluded c k = false ->
  written c w k (f k) ->
  xml_text (f k) = Some t ->
  assoc_get k (foldl (fun acc k => member_attrs c w k (f k) acc) attrs ks) = Some t.
Proof.
  induction ks as [|k0 ks IH]; intros attrs Hnd Hin Hnull Hex Hw Ht.
  - by apply elem_of_nil in Hin.
  - apply NoDup_cons in Hnd as [Hk0 Hnd]. cbn [foldl].
    apply elem_of_cons in Hin as [->|Hin].
    + rewrite members_attrs_other by done.
      unfold member_attrs. rewrite Hnull, Hex. cbn [orb].
      assert (Hg : encodeDefaults || negb (loose_eq w (get_prop (template c) k0) (f k0)) = true).
      { destruct Hw as [Hd|Hl]; [by rewrite Hd|]. rewrite Hl. by rewrite orb_true_r. }
      rewrite Hg, Ht. apply assoc_get_set_eq.
    + by apply IH.
Qed.

(** ** Decoding a list of attributes *)

(** The attributes known to be numeric by the class of the target: x, y,
    width and height of a Geometry, x and y of a Point. *)
Definition known_numeric (C k : string) : bool :=
  (bool_decide (C = "Geometry") &&
     (bool_decide (k = "x") || bool_decide (k = "y") ||
      bool_decide (k = "width") || bool_decide (k = "height"))) ||
  (bool_decide (C = "Point") && (bool_decide (k = "x") || bool_decide (k = "y"))).

(** The value an attribute text decodes to on a target of class [C]. *)
Definition from_xml (C k s : string) : value number :=
  if known_numeric C k || isNumeric s then VNum (numeric_value s) else VStr s.

Lemma convertAttributeFromXml_object w l o k s :
  heap w !! l = Some o ->
  convertAttributeFromXml w (k, s) (VObj l) = from_xml (ctor o) k s.
Proof.
  intros Hl. unfold convertAttributeFromXml, from_xml, isNumericAttribute, known_numeric,
    constructor_is, numeric_value. rewrite Hl. cbn [fst snd].
  destruct (_ || _); [|done].
  by destruct (isNaN (parseFloat s) || negb (isFinite (parseFloat s))).
Qed.

(** The target after one attribute that is no reference. *)
Definition decode_step (c : codec number) (C : string) (o : object number)
    (a : string * string) : object number :=
  if isIgnoredAttribute a || isExcluded c a.1 then o
  else set_prop o a.1 (from_xml C a.1 a.2).

Lemma decode_step_ctor c C o a : ctor (decode_step c C o a) = ctor o.
Proof. unfold decode_step. by destruct (_ || _). Qed.

Lemma decodeAttribute_plain c a l o w :
  heap w !! l = Some o ->
  (isIgnoredAttribute a = true \/ isReference c (getFieldName c (Some a.1)) = false) ->
  decodeAttribute c a (VObj l) w
  = Ok tt (World (<[l := decode_step c (ctor o) o a]> (heap w)) (objects w) (log w)).
Proof.
  intros Hl Ha. unfold decode_step, decodeAttribute.
  assert (Hsame : World (<[l := o]> (heap w)) (objects w) (log w) = w).
  { rewrite insert_id by done. by destruct w. }
  destruct (isIgnoredAttribute a) eqn:Hign; cbn [negb orb].
  { by rewrite Hsame. }
  destruct Ha as [?|Href]; [done|].
  unfold decodeReference. rewrite Href. step.
  destruct a as [k s]. cbn [fst snd].
  rewrite (convertAttributeFromXml_object w l o k s Hl).
  destruct (isExcluded c k); cbn [negb].
  - by rewrite Hsame.
  - by apply set_object.
Qed.

Lemma decodeAttributes_plain c l attrs : forall o w,
  heap w !! l = Some o ->
  (forall a, a ∈ attrs ->
     isIgnoredAttribute a = true \/ isReference c (getFieldName c (Some a.1)) = false) ->
  foldM (fun _ a => decodeAttribute c a (VObj l)) attrs tt w
  = Ok tt (World (<[l := foldl (decode_step c (ctor o)) o attrs]> (heap w))
             (objects w) (log w)).
Proof.
  induction attrs as [|a attrs IH]; intros o w Hl Hattrs.
  - cbn [foldl foldM]. unfold ret. rewrite insert_id by done. by destruct w.
  - rewrite foldM_cons.
    rewrite (decodeAttribute_plain c a l o w Hl) by (apply Hattrs; by left).
    rewrite (IH (decode_step c (ctor o) o a)).
    + cbn [heap objects log foldl]. rewrite insert_insert_eq.
      by rewrite decode_step_ctor.
    + cbn [heap]. apply lookup_insert_eq.
    + intros a' Ha'. apply Hattrs. by right.
Qed.

Lemma decode_steps_other c C attrs k : forall o,
  k ∉ attrs.*1 -> get_prop (foldl (decode_step c C) o attrs) k = get_prop o k.
Proof.
  induction attrs as [|[a s] attrs IH]; intros o Hk; [done|].
  rewrite fmap_cons in Hk. apply not_elem_of_cons in Hk as [Hne Hk].
  cbn [foldl]. rewrite IH by done. unfold decode_step.
  destruct (_ || _); [done|]. cbn [fst snd] in *. by apply get_prop_set_ne.
Qed.

(** An attribute that is neither ignored nor excluded is the value of its
    field after the loop, when no two attributes share a name. *)
Lemma decode_steps_field c C attrs k s : forall o,
  NoDup attrs.*1 -> (k, s) ∈ attrs ->
  isIgnoredAttribute (k, s) = false -> isExcluded c k = false ->
  get_prop (foldl (decode_step c C) o attrs) k = from_xml C k s.
Proof.
  induction attrs as [|[a t] attrs IH]; intros o Hnd Hin Hign Hex.
  - by apply elem_of_nil in Hin.
  - rewrite fmap_cons in Hnd. apply NoDup_cons in Hnd as [Ha Hnd]. cbn [foldl].
    apply elem_of_cons in Hin as [[= <- <-]|Hin].
    + rewrite decode_steps_other by done. unfold decode_step.
      rewrite Hign. cbn [fst snd]. rewrite Hex. cbn [orb]. apply get_prop_set_eq.
    + by apply IH.
Qed.

Lemma members_attrs_names c w (f : string -> value number) ks a : forall attrs,
  a ∈ (foldl (fun acc k => member_attrs c w k (f k) acc) attrs ks).*1 ->
  a ∈ attrs.*1 \/ a ∈ ks.
Proof.
  induction ks as [|k ks IH]; intros attrs Ha; [by left|].
  cbn [foldl] in Ha. apply IH in Ha as [Ha|Ha]; [|right; by right].
  unfold member_attrs in Ha.
  destruct (_ || _); [by left|]. destruct (_ || _); [|by left].
  destruct (xml_text (f k)); [|by left].
  rewrite assoc_set_fst in Ha. destruct (decide (k ∈ attrs.*1)); [by left|].
  apply elem_of_app in Ha as [Ha|Ha%list_elem_of_singleton]; [by left|].
  right. rewrite Ha. by left.
Qed.

(** ** C1 *)

(** Decoding a node without children into a new instance, with an empty
    object table. *)
Lemma decode_plain c nm attrs w :
  objects w = ∅ ->
  (forall a, a ∈ attrs ->
     isIgnoredAttribute a = true \/ isReference c (getFieldName c (Some a.1)) = false) ->
  exists w',
    decode c (Element nm attrs []) VUndefined w = Ok (VObj (fresh (dom (heap w)))) w' /\
    heap w' = <[fresh (dom (heap w)) :=
                  foldl (decode_step c (ctor (construct (getName c))))
                    (construct (getName c)) attrs]> (heap w).
Proof.
  intros Hobjs Hattrs.
  set (l' := fresh (dom (heap w))).
  set (o' := construct (getName c)).
  unfold decode. step.
  rewrite Hobjs, lookup_empty. cbn [default]. change (is_null VUndefined) with true.
  cbn [truthy]. unfold cloneTemplate at 1. step. fold l' o'.
  assert (Hnode : forall w1,
            heap w1 = <[l' := o']> (heap w) ->
            exists w',
              decodeNode c (Some (Element nm attrs [])) (VObj l') w1 = Ok tt w' /\
              heap w' = <[l' := foldl (decode_step c (ctor o')) o' attrs]> (heap w)).
  { intros w1 Hw1. unfold decodeNode, decodeAttributes. cbn [node_attributes]. step.
    rewrite (decodeAttributes_plain c l' attrs o' w1); [|by rewrite Hw1, lookup_insert_eq|done].
    unfold decodeChildren. cbn [node_children foldM]. unfold ret.
    eexists. split; [done|]. cbn [heap]. by rewrite Hw1, insert_insert_eq. }
  destruct (getAttribute (Element nm attrs []) "id") as [i|].
  - unfold putObject at 1. step. cbn [heap objects log].
    destruct (Hnode (World (<[l' := o']> (heap w)) (<[i := VObj l']> (objects w)) (log w)))
      as (w' & Hdec & Hheap); [done|].
    rewrite Hdec. eauto.
  - destruct (Hnode (World (<[l' := o']> (heap w)) (objects w) (log w)))
      as (w' & Hdec & Hheap); [done|].
    rewrite Hdec. eauto.
Qed.


End Properties.

(** ** Examples in the small runtime *)

(** A codec for plain objects without configuration. *)
Definition plain_codec : codec num :=
  mxObjectCodec (Object "Object" None []) None None None.

(** *** C1 *)

Definition c1_world : world num :=
  world_of [Object "Object" None
              [("name", VStr "n1"); ("visible", VBool true); ("count", VNum (Int 42))]].

(** The field [visible] after the round trip. *)
Definition c1_visible : value num :=
  match roundtrip plain_codec 1%positive c1_world with
  | Ok r w' => get w' r "visible"
  | Throw _ _ => VUndefined
  end.



(** *** C2 *)

(** An edge-like object A whose [source] is the object B, known by the id
    "b".  The codec of A treats [source] as a reference and writes it under
    the attribute name [src]. *)
Definition c2_world : world num :=
  world_of [Object "Edge" None [("source", VObj 2%positive)];
            Object "Object" None [("id", VStr "b")]].

Definition c2_codec (mapping : option (list (string * string))) : codec num :=
  mxObjectCodec (Object "Edge" None []) None (Some ["source"]) mapping.

(** Encodes B and A into one document, decodes B and then A, and returns the
    fields [source] and [src] of the decoded A with the decoded B. *)
Definition c2_run (mapping : option (list (string * string)))
  : M num (value num * value num * value num) :=
  do nodeB <- encode plain_codec 2%positive ;
  do nodeA <- encode (c2_codec mapping) 1%positive ;
  do b' <- decode plain_codec nodeB VUndefined ;
  do a' <- decode (c2_codec mapping) nodeA VUndefined ;
  reads (fun w => (get w a' "source", get w a' "src", b')).

Definition c2_result (mapping : option (list (string * string)))
  : option (value num * value num * value num) :=
  match c2_run mapping c2_world with
  | Ok r _ => Some r
  | Throw _ _ => None
  end.

(** Without a mapping the decoded A points at the decoded B. *)
Example reference_round_trip_unmapped :
  c2_result None = Some (VObj 3%positive, VUndefined, VObj 3%positive).
Proof. by vm_compute. Qed.

(** C2 fails on the code when the reference field has an attribute name of
    its own: [decodeAttribute] looks the reference up under the field name
    [source] and then assigns [obj[name]] with the attribute name [src], where
    [decodeChild] assigns [obj[fieldname]].  The field [source] of the decoded
    A stays undefined and the decoded B ends in a field called [src]. *)
Lemma mapped_reference_is_lost :
  encode (c2_codec (Some [("source", "src")])) 1%positive c2_world
  = Ok (Element "Edge" [("src", "b")] []) c2_world /\
  c2_result (Some [("source", "src")])
  = Some (VUndefined, VObj 3%positive, VObj 3%positive).
Proof. split; by vm_compute. Qed.

(** *** C3 *)

Definition c3_codec : codec num :=
  mxObjectCodec (Object "Array" (Some 0) []) (Some ["0"; "parent"]) None None.

Definition c3_world : world num := world_of [Object "Array" (Some 0) []].

Definition c3_node : node := Element "Array" [] [Element "add" [("value", "a")] []].

(** C3 as stated fails for a child without [as]: the name "0" is excluded
    and the target array has no element, yet decoding [<add value="a"/>]
    pushes the value, which assigns the field "0". *)
Lemma push_assigns_excluded_index :
  isExcluded c3_codec "0" = true /\
  get c3_world (VObj 1%positive) "0" = VUndefined /\
  match decode c3_codec c3_node (VObj 1%positive) c3_world with
  | Ok r w' => get w' r "0"
  | Throw _ _ => VUndefined
  end = VStr "a".
Proof. split_and!; by vm_compute. Qed.

Lemma excluded_field_is_skipped_witness :
  isExcluded c3_codec "parent" = true /\
  encodeMember c3_codec 1%positive (Element "Array" [] []) "parent" c3_world
  = Ok (Element "Array" [] []) c3_world /\
  decodeAttribute c3_codec ("parent", "7") (VObj 1%positive) c3_world = Ok tt c3_world /\
  decodeChild c3_codec (Element "Object" [("as", "parent")] []) (VObj 1%positive) c3_world
  = Ok tt c3_world.
Proof.
  pose proof (excluded_field_is_skipped c3_codec "parent" eq_refl)
    as (Hmember & _ & Hattr & _ & Hchild).
  split_and!.
  - reflexivity.
  - apply Hmember.
  - apply Hattr. right. reflexivity.
  - apply Hchild. reflexivity.
Defined.

(** *** C4 *)

Definition c4_codec : codec num :=
  mxObjectCodec (Object "Object" None [("x", VNum (Int 5))]) None None None.

Definition c4_world : world num :=
  world_of [Object "Object" None [("x", VNum (Int 5)); ("visible", VBool true);
                                  ("style", VObj 2%positive)];
            Object "Style" None []].



(** *** C5 *)

Lemma unresolved_reference_is_skipped_witness :
  encodeValue (c2_codec None) (Some "source") (VObj 1%positive)
    (Element "Edge" [] []) c2_world
  = Ok (Element "Edge" [] [])
      (logged "mxObjectCodec.encode: No ID for Edge.source=[object Object]" c2_world) /\
  decodeAttribute (c2_codec None) ("source", "b") (VObj 1%positive) c2_world
  = Ok tt (logged "mxObjectCodec.decode: No object for Edge.source=b" c2_world).
Proof.
  pose proof (unresolved_reference_is_skipped (c2_codec None)) as (Henc & _ & Hdec & _).
  split.
  - apply (Henc (Some "source") (VObj 1%positive) (Element "Edge" [] []) c2_world);
      reflexivity.
  - apply (Hdec ("source", "b") (VObj 1%positive) c2_world VNull c2_world); reflexivity.
Defined.

(** *** C8 *)

Definition c8_world : world num := world_of [Object "Object" None []].

Lemma add_failure_is_rethrown_witness :
  decodeChild plain_codec (Element "add" [("value", "x")] []) (VObj 1%positive) c8_world
  = Throw "obj.push is not a function for add" c8_world.
Proof.
  apply (add_failure_is_rethrown plain_codec (Element "add" [("value", "x")] [])
           (VObj 1%positive) "x" c8_world c8_world "obj.push is not a function").
  - reflexivity.
  - reflexivity.
  - left. reflexivity.
  - reflexivity.
Defined.

(** *** C10 *)

Definition c10_world : world num := world_of [Object "Geometry" None []].

Lemma numeric_attribute_decodes_to_number_witness :
  isNumericAttribute c10_world ("width", "wide") (VObj 1%positive) = true /\
  numeric_value "wide" = Int 0 /\
  convertAttributeFromXml c10_world ("width", "wide") (VObj 1%positive)
  = VNum (numeric_value "wide").
Proof.
  split_and!; [reflexivity|reflexivity|].
  apply (proj1 (numeric_attribute_decodes_to_number plain_codec c10_world
                  ("width", "wide") (VObj 1%positive) eq_refl)).
Defined.

End CodecSpec.

(** * Properties of the edge handler *)
Module EdgeHandlerSpec.
Import EdgeHandler.

Local Open Scope list_scope.

Section Properties.
Context {coord : Type} `{Graph coord}.

(** The state a method ends in, returning or throwing. *)
Definition final {A} (r : result A) : world :=
  match r with
  | Return _ s => s
  | Raise s => s
  end.

(** [m] relates every state it starts in to the state it ends in. *)
Definition respects (I : world -> world -> Prop) {A} (m : Cmd A) : Prop :=
  forall s, I s (final (m s)).

Section Relation.
Variable I : world -> world -> Prop.
Hypothesis I_pre : PreOrder I.

Lemma respects_ret {A} (a : A) : respects I (ret a).
Proof. intros s. reflexivity. Qed.

Lemma respects_raise {A} : respects I (@raise _ _ A).
Proof. intros s. reflexivity. Qed.

Lemma respects_require {A} (o : option A) : respects I (require o).
Proof. destruct o; [apply respects_ret|apply respects_raise]. Qed.

Lemma respects_get_this : respects I get_this.
Proof. intros s. reflexivity. Qed.

Lemma respects_get_store : respects I get_store.
Proof. intros s. reflexivity. Qed.

Lemma respects_bind {A B} (m : Cmd A) (k : A -> Cmd B) :
  respects I m -> (forall a, respects I (k a)) -> respects I (bind m k).
Proof.
  intros Hm Hk s. unfold bind. specialize (Hm s).
  destruct (m s) as [a s'|s']; [|done].
  etransitivity; [exact Hm|apply Hk].
Qed.

Lemma respects_try_finally {A} (body : Cmd A) (fin : Cmd unit) :
  respects I body -> respects I fin -> respects I (try_finally body fin).
Proof.
  intros Hb Hf s. unfold try_finally. specialize (Hb s).
  destruct (body s) as [a s'|s']; cbn [final] in Hb; specialize (Hf s');
    destruct (fin s') as [u s''|s'']; cbn [final] in *; by etransitivity.
Qed.

Lemma respects_try_ignore (body : Cmd unit) :
  respects I body -> respects I (try_ignore body).
Proof.
  intros Hb s. unfold try_ignore. specialize (Hb s). by destruct (body s).
Qed.

Lemma respects_for_each {A} (f : A -> Cmd unit) (l : list A) :
  (forall a, respects I (f a)) -> respects I (for_each f l).
Proof.
  intros Hf. induction l as [|a l IH]; [apply respects_ret|].
  cbn [for_each]. apply respects_bind; [apply Hf|done].
Qed.

Lemma respects_fold_cmd {A B} (f : B -> A -> Cmd B) (l : list A) :
  (forall b a, respects I (f b a)) -> forall b, respects I (fold_cmd f l b).
Proof.
  intros Hf. induction l as [|a l IH]; intros b; [apply respects_ret|].
  cbn [fold_cmd]. apply respects_bind; [apply Hf|done].
Qed.

End Relation.

(** ** Calls *)

(** A call on the view, a shape or the selection. *)
Definition view_call (c : call coord) : bool :=
  match c with
  | other _ => true
  | _ => false
  end.

(** The calls made since [s] are calls on the view only. *)
Definition quiet (s s' : world) : Prop :=
  exists t, calls s' = calls s ++ t /\ Forall (fun e => view_call e.1 = true) t.

(** The nesting depth of [beginUpdate] after the calls [t], starting at [d];
    [None] when a call that changes the model is made outside every bracket
    or [endUpdate] is called without a bracket open.  A [beginUpdate] that
    threw opens nothing. *)
Fixpoint depth_after (d : nat) (t : list (call coord * bool)) : option nat :=
  match t with
  | [] => Some d
  | (beginUpdate, threw) :: t' => depth_after (if threw then d else S d) t'
  | (endUpdate, _) :: t' =>
      match d with
      | 0 => None
      | S d' => depth_after d' t'
      end
  | (c, _) :: t' =>
      if is_mutation c && bool_decide (d = 0) then None else depth_after d t'
  end.

(** The calls made since [s] keep every change of the model inside a bracket
    and close every bracket they open. *)
Definition bracketed (s s' : world) : Prop :=
  exists t, calls s' = calls s ++ t /\ forall d, depth_after d t = Some d.

(** The same inside a bracket that is already open. *)
Definition nested (s s' : world) : Prop :=
  exists t, calls s' = calls s ++ t /\ forall d, depth_after (S d) t = Some (S d).

Lemma depth_after_app d t1 t2 :
  depth_after d (t1 ++ t2) = depth_after d t1 ≫= fun d' => depth_after d' t2.
Proof.
  revert d. induction t1 as [|[c b] t1 IH]; intros d; [done|].
  cbn [app depth_after].
  destruct c; first [apply IH | destruct d; [done|apply IH] | idtac];
    (destruct (_ && _); [done|apply IH]).
Qed.

#[local] Instance quiet_pre : PreOrder quiet.
Proof.
  split.
  - intros s. exists []. split; [by rewrite app_nil_r|done].
  - intros s1 s2 s3 (t1 & H1 & F1) (t2 & H2 & F2). exists (t1 ++ t2). split.
    + by rewrite H2, H1, app_assoc.
    + by apply Forall_app.
Qed.

#[local] Instance bracketed_pre : PreOrder bracketed.
Proof.
  split.
  - intros s. exists []. split; [by rewrite app_nil_r|done].
  - intros s1 s2 s3 (t1 & H1 & F1) (t2 & H2 & F2). exists (t1 ++ t2). split.
    + by rewrite H2, H1, app_assoc.
    + intros d. rewrite depth_after_app, F1. apply F2.
Qed.

#[local] Instance nested_pre : PreOrder nested.
Proof.
  split.
  - intros s. exists []. split; [by rewrite app_nil_r|done].
  - intros s1 s2 s3 (t1 & H1 & F1) (t2 & H2 & F2). exists (t1 ++ t2). split.
    + by rewrite H2, H1, app_assoc.
    + intros d. rewrite depth_after_app, F1. apply F2.
Qed.

Lemma quiet_depth t d :
  Forall (fun e : call coord * bool => view_call e.1 = true) t -> depth_after d t = Some d.
Proof.
  induction 1 as [|[c b] t Hc _ IH]; [done|].
  destruct c; first [done | exact IH].
Qed.

Lemma quiet_bracketed s s' : quiet s s' -> bracketed s s'.
Proof. intros (t & Ht & Hq). exists t. split; [done|]. intros d. by apply quiet_depth. Qed.

Lemma bracketed_nested s s' : bracketed s s' -> nested s s'.
Proof. intros (t & Ht & Hd). exists t. split; [done|]. intros d. apply Hd. Qed.

Lemma respects_weaken (I J : world -> world -> Prop) {A} (m : Cmd A) :
  (forall s s', I s s' -> J s s') -> respects I m -> respects J m.
Proof. intros HIJ Hm s. apply HIJ, Hm. Qed.

Lemma final_invoke c s :
  final (invoke c s)
  = mkWorld (this s) (perform (calls s) c (store s)).1
      (calls s ++ [(c, (perform (calls s) c (store s)).2)]).
Proof. unfold invoke. by destruct (perform (calls s) c (store s)).2. Qed.

Lemma quiet_invoke what : respects quiet (invoke (other what)).
Proof.
  intros s. rewrite final_invoke. eexists. split; [done|].
  by apply Forall_singleton.
Qed.

Lemma quiet_modify f : respects quiet (modify f).
Proof. intros s. exists []. cbn. by rewrite app_nil_r. Qed.

Lemma bracketed_invoke_view what : respects bracketed (invoke (other what)).
Proof. eapply respects_weaken; [apply quiet_bracketed|apply quiet_invoke]. Qed.

Lemma bracketed_invoke_clone c : respects bracketed (invoke (cloneCell c)).
Proof. intros s. rewrite final_invoke. eexists. split; [done|]. done. Qed.

Lemma bracketed_modify f : respects bracketed (modify f).
Proof. eapply respects_weaken; [apply quiet_bracketed|apply quiet_modify]. Qed.

Lemma nested_modify f : respects nested (modify f).
Proof. eapply respects_weaken; [apply bracketed_nested|apply bracketed_modify]. Qed.

(** Inside a bracket every call but [beginUpdate] and [endUpdate] is in order. *)
Lemma nested_invoke c :
  c <> beginUpdate -> c <> endUpdate -> respects nested (invoke c).
Proof.
  intros Hb He s. rewrite final_invoke. eexists. split; [done|].
  intros d. destruct c; done.
Qed.

Lemma invoke_Return c s u s1 :
  invoke c s = Return u s1 ->
  s1 = mkWorld (this s) (perform (calls s) c (store s)).1 (calls s ++ [(c, false)]).
Proof.
  unfold invoke. destruct (perform (calls s) c (store s)) as [st []]; [done|].
  by intros [= _ <-].
Qed.

Lemma invoke_Raise c s s1 :
  invoke c s = Raise s1 ->
  s1 = mkWorld (this s) (perform (calls s) c (store s)).1 (calls s ++ [(c, true)]).
Proof.
  unfold invoke. destruct (perform (calls s) c (store s)) as [st []]; [|done].
  by intros [= <-].
Qed.

(** [beginUpdate(); try { body } finally { endUpdate() }] keeps the bracket
    discipline when [body] does so inside the bracket, whatever throws. *)
Lemma bracket_then {A B} (body : Cmd A) (k : A -> Cmd B) :
  respects nested body ->
  (forall a, respects bracketed (k a)) ->
  respects bracketed
    (bind (invoke beginUpdate) (fun _ => bind (try_finally body (invoke endUpdate)) k)).
Proof.
  intros Hbody Hk s. unfold bind at 1.
  destruct (invoke beginUpdate s) as [u s1|s1] eqn:Hbegin.
  - apply invoke_Return in Hbegin.
    assert (Hs1 : calls s1 = calls s ++ [(beginUpdate, false)]) by by rewrite Hbegin.
    assert (Htry : exists t, calls (final (try_finally body (invoke endUpdate) s1))
                             = calls s ++ t /\ forall d, depth_after d t = Some d).
    { unfold try_finally. destruct (Hbody s1) as (t & Ht & Hd).
      destruct (body s1) as [a s2|s2]; cbn [final] in Ht;
        pose proof (final_invoke endUpdate s2) as Hend;
        destruct (invoke endUpdate s2) as [u' s3|s3]; cbn [final] in *;
        (exists ((beginUpdate, false) :: t ++ [(endUpdate, (perform (calls s2) endUpdate (store s2)).2)]);
         split;
         [rewrite Hend; cbn [calls]; rewrite Ht, Hs1, <- !app_assoc; done
         |intros d; cbn [depth_after]; rewrite depth_after_app, Hd; done]). }
    unfold bind. destruct Htry as (t & Ht & Hd).
    destruct (try_finally body (invoke endUpdate) s1) as [a s2|s2]; cbn [final] in Ht.
    + transitivity s2; [by exists t|apply Hk].
    + by exists t.
  - apply invoke_Raise in Hbegin. cbn [final].
    exists [(beginUpdate, true)]. split; [by rewrite Hbegin|done].
Qed.

Lemma bracket {A} (body : Cmd A) :
  respects nested body ->
  respects bracketed (bind (invoke beginUpdate) (fun _ => try_finally body (invoke endUpdate))).
Proof.
  intros Hbody s.
  pose proof (bracket_then body ret Hbody (respects_ret bracketed _) s) as Hs.
  unfold bind in *. destruct (invoke beginUpdate s) as [u s1|s1]; [|done].
  by destruct (try_finally body (invoke endUpdate) s1).
Qed.

(** ** Redrawing calls the view only *)

Create HintDb cmds.

Ltac cmd_step :=
  lazymatch goal with
  | |- respects _ (bind _ _) => apply respects_bind; [typeclasses eauto| |intros ?]
  | |- respects _ (ret _) => apply respects_ret; typeclasses eauto
  | |- respects _ raise => apply respects_raise; typeclasses eauto
  | |- respects _ (require _) => apply respects_require; typeclasses eauto
  | |- respects _ get_this => apply respects_get_this; typeclasses eauto
  | |- respects _ get_store => apply respects_get_store; typeclasses eauto
  | |- respects _ (try_ignore _) => apply respects_try_ignore
  | |- respects _ (try_finally _ _) => apply respects_try_finally; [typeclasses eauto| |]
  | |- respects _ (for_each _ _) => apply respects_for_each; [typeclasses eauto|intros ?]
  | |- respects _ (fold_cmd _ _ _) => apply respects_fold_cmd; [typeclasses eauto|intros ? ?]
  | |- respects _ (match ?x with _ => _ end) => destruct x
  end.

Ltac cmd := cbv beta zeta; repeat (cmd_step; cbv beta zeta); eauto with cmds.

#[local] Hint Resolve quiet_invoke quiet_modify : cmds.

Lemma quiet_isHandleVisible i : respects quiet (isHandleVisible i).
Proof. unfold isHandleVisible. cmd. Qed.

#[local] Hint Resolve quiet_isHandleVisible : cmds.

Lemma quiet_createBend bends i : respects quiet (createBend bends i).
Proof. unfold createBend. cmd. Qed.

#[local] Hint Resolve quiet_createBend : cmds.

Lemma quiet_createBends : respects quiet createBends.
Proof. unfold createBends. cmd. Qed.

Lemma quiet_createVirtualBends : respects quiet createVirtualBends.
Proof. unfold createVirtualBends. cmd. Qed.

Lemma quiet_destroyBends {A} (bends : list (option A)) : respects quiet (destroyBends bends).
Proof. unfold destroyBends. cmd. Qed.

#[local] Hint Resolve quiet_createBends quiet_createVirtualBends quiet_destroyBends : cmds.

Lemma quiet_refresh : respects quiet refresh.
Proof. unfold refresh, createCustomHandles. cmd. Qed.

Lemma quiet_drawPreview : respects quiet drawPreview.
Proof. unfold drawPreview. cmd. Qed.

Lemma quiet_redrawInnerBends : respects quiet redrawInnerBends.
Proof. unfold redrawInnerBends, redrawInnerBend. cmd. Qed.

Lemma quiet_redrawVirtualBend vbs last i : respects quiet (redrawVirtualBend vbs last i).
Proof. unfold redrawVirtualBend. cmd. Qed.

#[local] Hint Resolve quiet_refresh quiet_drawPreview quiet_redrawInnerBends
  quiet_redrawVirtualBend : cmds.

Lemma quiet_redrawHandles : respects quiet redrawHandles.
Proof. unfold redrawHandles. cmd. Qed.

#[local] Hint Resolve quiet_redrawHandles : cmds.

Lemma quiet_redraw ignoreHandles : respects quiet (redraw ignoreHandles).
Proof. unfold redraw, redrawPoint. cmd. Qed.

#[local] Hint Resolve quiet_redraw : cmds.

Lemma quiet_reset : respects quiet reset.
Proof. unfold reset. cmd. Qed.

#[local] Hint Resolve quiet_reset : cmds.

Lemma quiet_escapeHandler : respects quiet escapeHandler.
Proof. unfold escapeHandler. cmd. Qed.

(** ** Redrawing keeps the drag state *)

(** The fields redrawing never writes. *)
Definition same_drag (h h' : handler coord) : Prop :=
  index h' = index h /\ error h' = error h /\ snapPoint h' = snapPoint h /\
  isLabel h' = isLabel h /\ isSource h' = isSource h /\ isTarget h' = isTarget h /\
  active h' = active h /\ state h' = state h /\ labelShape h' = labelShape h /\
  marker h' = marker h.

Definition keeps_drag (s s' : world) : Prop := same_drag (this s) (this s').

Definition keeps_label (s s' : world) : Prop :=
  keeps_drag s s' /\ label (this s') = label (this s).

#[local] Instance keeps_drag_pre : PreOrder keeps_drag.
Proof.
  split.
  - intros s. by repeat split.
  - intros s1 s2 s3. unfold keeps_drag, same_drag. intuition congruence.
Qed.

#[local] Instance keeps_label_pre : PreOrder keeps_label.
Proof.
  split.
  - intros s. split; [reflexivity|done].
  - intros s1 s2 s3 [H1 L1] [H2 L2]. split; [by etransitivity|congruence].
Qed.

Lemma keeps_drag_invoke c : respects keeps_drag (invoke c).
Proof. intros s. rewrite final_invoke. by repeat split. Qed.

Lemma keeps_label_invoke c : respects keeps_label (invoke c).
Proof. intros s. rewrite final_invoke. by repeat split. Qed.

Lemma keeps_drag_modify f : (forall h, same_drag h (f h)) -> respects keeps_drag (modify f).
Proof. intros Hf s. apply Hf. Qed.

Lemma keeps_label_modify f :
  (forall h, same_drag h (f h) /\ label (f h) = label h) -> respects keeps_label (modify f).
Proof. intros Hf s. apply Hf. Qed.

#[local] Hint Resolve keeps_drag_invoke keeps_label_invoke : cmds.
#[local] Hint Extern 1 (respects keeps_drag (modify _)) =>
  apply keeps_drag_modify; intros ?; by repeat split : cmds.
#[local] Hint Extern 1 (respects keeps_label (modify _)) =>
  apply keeps_label_modify; intros ?; by repeat split : cmds.

Lemma keeps_drag_isHandleVisible i : respects keeps_drag (isHandleVisible i).
Proof. unfold isHandleVisible. cmd. Qed.

#[local] Hint Resolve keeps_drag_isHandleVisible : cmds.

Lemma keeps_drag_createBends : respects keeps_drag createBends.
Proof. unfold createBends, createBend. cmd. Qed.

Lemma keeps_drag_createVirtualBends : respects keeps_drag createVirtualBends.
Proof. unfold createVirtualBends. cmd. Qed.

Lemma keeps_drag_destroyBends {A} (bends : list (option A)) :
  respects keeps_drag (destroyBends bends).
Proof. unfold destroyBends. cmd. Qed.

#[local] Hint Resolve keeps_drag_createBends keeps_drag_createVirtualBends
  keeps_drag_destroyBends : cmds.

Lemma keeps_drag_refresh : respects keeps_drag refresh.
Proof. unfold refresh, createCustomHandles. cmd. Qed.

Lemma keeps_drag_drawPreview : respects keeps_drag drawPreview.
Proof. unfold drawPreview. cmd. Qed.

Lemma keeps_label_redrawInnerBends : respects keeps_label redrawInnerBends.
Proof. unfold redrawInnerBends, redrawInnerBend. cmd. Qed.

Lemma keeps_label_redrawVirtualBend vbs last i :
  respects keeps_label (redrawVirtualBend vbs last i).
Proof. unfold redrawVirtualBend. cmd. Qed.

#[local] Hint Resolve keeps_drag_refresh keeps_drag_drawPreview
  keeps_label_redrawInnerBends keeps_label_redrawVirtualBend : cmds.

Lemma bind_Return {A B} (m : Cmd A) (k : A -> Cmd B) s b s' :
  bind m k s = Return b s' -> exists a s1, m s = Return a s1 /\ k a s1 = Return b s'.
Proof. unfold bind. destruct (m s) as [a s1|s1]; [eauto|done]. Qed.

Lemma respects_Return (I : world -> world -> Prop) {A} (m : Cmd A) s a s' :
  respects I m -> m s = Return a s' -> I s s'.
Proof. intros Hm Hs. specialize (Hm s). by rewrite Hs in Hm. Qed.

(** The label position of a cell state. *)
Definition label_position (st : CellState coord) : Point coord :=
  mkPoint (x (absoluteOffset st)) (y (absoluteOffset st)).

(** [redrawHandles] sets [label] to the label position first and leaves it
    there. *)
Lemma redrawHandles_label s s' :
  redrawHandles s = Return tt s' ->
  keeps_drag s s' /\ label (this s') = Some (label_position (state (this s))).
Proof.
  unfold redrawHandles. intros Hr.
  apply bind_Return in Hr as (h & s0 & [= <- <-] & Hr).
  apply bind_Return in Hr as (sh & s0 & Hreq & Hr).
  assert (s0 = s) as ->.
  { destruct (labelShape (this s)); [by injection Hreq as _ <-|done]. }
  apply bind_Return in Hr as (u & s1 & [= _ <-] & Hr).
  match type of Hr with
  | ?m _ = Return _ _ => assert (Hk : respects keeps_label m) by cmd
  end.
  apply (respects_Return _ _ _ _ _ Hk) in Hr as [Hdrag Hlabel].
  split.
  - transitivity (mkWorld (set_label (Some (label_position (state (this s)))) (this s))
                    (store s) (calls s)); [by repeat split|exact Hdrag].
  - rewrite Hlabel. done.
Qed.

Lemma redraw_label s s' :
  redraw false s = Return tt s' ->
  keeps_drag s s' /\ label (this s') = Some (label_position (state (this s))).
Proof.
  unfold redraw. intros Hr.
  apply bind_Return in Hr as (h & s0 & [= <- <-] & Hr).
  apply bind_Return in Hr as (u & s1 & [= _ <-] & Hr).
  apply bind_Return in Hr as (st & s0 & [= <- <-] & Hr).
  apply bind_Return in Hr as (upts & s2 & Hpts & Hr).
  apply bind_Return in Hr as (udraw & s3 & Hdraw & Hr).
  cbn [negb] in Hr.
  match type of Hpts with
  | ?m _ = Return _ _ =>
      assert (Hk : respects keeps_drag m) by (unfold redrawPoint; cmd)
  end.
  apply (respects_Return _ _ _ _ _ Hk) in Hpts.
  apply (respects_Return _ _ _ _ _ keeps_drag_drawPreview) in Hdraw.
  apply redrawHandles_label in Hr as [Hdrag Hlabel].
  assert (Hs3 : keeps_drag s s3).
  { transitivity (mkWorld (set_abspoints (absolutePoints (state (this s))) (this s))
                    (store s) (calls s)); [by repeat split|].
    by transitivity s2. }
  split; [by transitivity s3|].
  rewrite Hlabel. f_equal. f_equal. apply Hs3.
Qed.

(** After [reset] has returned the drag state is cleared and [label] is the
    label position again. *)
Lemma reset_Return s s' :
  reset s = Return tt s' ->
  index (this s') = None /\ error (this s') = None /\ snapPoint (this s') = None /\
  isLabel (this s') = false /\ isSource (this s') = false /\
  isTarget (this s') = false /\ active (this s') = false /\
  marker (this s') = marker (this s) /\
  state (this s') = state (this s) /\
  label (this s') = Some (label_position (state (this s))).
Proof.
  unfold reset. intros Hr.
  apply bind_Return in Hr as (h & s0 & [= <- <-] & Hr).
  apply bind_Return in Hr as (u & s1 & Hrefresh & Hr).
  assert (H1 : keeps_drag s s1).
  { destruct (active (this s)).
    - by apply (respects_Return _ _ _ _ _ keeps_drag_refresh) in Hrefresh.
    - by injection Hrefresh as _ <-. }
  do 9 (let Hm := fresh "Hm" in let a := fresh "u" in let b := fresh "s" in
        apply bind_Return in Hr as (a & b & Hm & Hr); injection Hm as _ <-).
  apply bind_Return in Hr as (hr & sr & [= <- <-] & Hr).
  apply bind_Return in Hr as (um & sm & Hmarker & Hr).
  apply bind_Return in Hr as (uc & sc & Hconstraint & Hr).
  apply bind_Return in Hr as (uh & sh & Hcustom & Hr).
  match type of Hmarker with
  | ?m _ = Return _ _ => assert (Hk : respects keeps_drag m) by cmd
  end.
  apply (respects_Return _ _ _ _ _ Hk) in Hmarker. clear Hk.
  match type of Hconstraint with
  | ?m _ = Return _ _ => assert (Hk : respects keeps_drag m) by cmd
  end.
  apply (respects_Return _ _ _ _ _ Hk) in Hconstraint. clear Hk.
  match type of Hcustom with
  | ?m _ = Return _ _ => assert (Hk : respects keeps_drag m) by cmd
  end.
  apply (respects_Return _ _ _ _ _ Hk) in Hcustom. clear Hk.
  apply redraw_label in Hr as [Hdrag Hlabel].
  assert (H5 : keeps_drag
                 (mkWorld
                    (set_active false (set_isTarget false (set_isSource false
                       (set_isLabel false (set_snapPoint None (set_points None
                          (set_label None (set_index None (set_error None (this s1))))))))))
                    (store s1) (calls s1)) s').
  { etransitivity; [exact Hmarker|]. etransitivity; [exact Hconstraint|].
    etransitivity; [exact Hcustom|exact Hdrag]. }
  destruct H5 as (Hi & He & Hsn & Hl & Hsrc & Htgt & Hact & Hst & _ & Hm).
  destruct H1 as (_ & _ & _ & _ & _ & _ & _ & Hst1 & _ & Hm1).
  cbn in Hi, He, Hsn, Hl, Hsrc, Htgt, Hact, Hst, Hm.
  split_and!; try done.
  - congruence.
  - congruence.
  - rewrite Hlabel. f_equal. f_equal.
    destruct Hmarker as (_ & _ & _ & _ & _ & _ & _ & Ha & _).
    destruct Hconstraint as (_ & _ & _ & _ & _ & _ & _ & Hb & _).
    destruct Hcustom as (_ & _ & _ & _ & _ & _ & _ & Hc & _).
    cbn in Ha. congruence.
Qed.

(** ** C9 *)


(** ** C7 *)


(** ** C6 *)

#[local] Hint Extern 1 (respects nested (invoke _)) =>
  apply nested_invoke; discriminate : cmds.
#[local] Hint Resolve nested_modify bracketed_modify bracketed_invoke_view
  bracketed_invoke_clone : cmds.

Ltac model_step :=
  lazymatch goal with
  | |- respects bracketed (bind (invoke beginUpdate) (fun _ => try_finally _ _)) =>
      apply bracket
  | |- respects bracketed (bind (invoke beginUpdate)
                             (fun _ => bind (try_finally _ _) _)) =>
      apply bracket_then; [|intros ?]
  | |- _ => cmd_step
  end.

Ltac model := cbv beta zeta; repeat (model_step; cbv beta zeta); eauto with cmds.

Lemma bracketed_connect edge terminal source :
  respects bracketed (connect edge terminal source).
Proof. unfold connect. model. Qed.

Lemma nested_connect edge terminal source :
  respects nested (connect edge terminal source).
Proof. eapply respects_weaken; [apply bracketed_nested|apply bracketed_connect]. Qed.

#[local] Hint Resolve bracketed_connect nested_connect : cmds.

Lemma bracketed_changeTerminalPoint edge point source clone_ :
  respects bracketed (changeTerminalPoint edge point source clone_).
Proof. unfold changeTerminalPoint. model. Qed.

Lemma bracketed_changePoints edge pts clone_ :
  respects bracketed (changePoints edge pts clone_).
Proof. unfold changePoints. model. Qed.

Lemma bracketed_dropTerminal h : respects bracketed (dropTerminal h).
Proof. unfold dropTerminal. model. Qed.

#[local] Hint Resolve bracketed_changeTerminalPoint bracketed_changePoints
  bracketed_dropTerminal : cmds.

Lemma bracketed_mouseUpTerminal h edge clone_ :
  respects bracketed (mouseUpTerminal h edge clone_).
Proof. unfold mouseUpTerminal. model. Qed.

Lemma bracketed_reset : respects bracketed reset.
Proof. eapply respects_weaken; [apply quiet_bracketed|apply quiet_reset]. Qed.

#[local] Hint Resolve bracketed_mouseUpTerminal bracketed_reset : cmds.

(** The gesture [mouseUp] ends is a move of the label: no error is pending,
    the handle is no custom handle, and the label handle is being dragged. *)
Definition moves_label (h : handler coord) (i : Z) : bool :=
  match error h with
  | Some _ => false
  | None => negb (is_custom_index i) && isLabel h && bool_decide (label h <> None)
  end.

Definition label_gesture (h : handler coord) : bool :=
  match index h, marker h with
  | Some i, Some _ => moves_label h i
  | _, _ => false
  end.

Lemma bracketed_mouseUpCommit h i me :
  moves_label h i = false -> respects bracketed (mouseUpCommit h i me).
Proof.
  unfold moves_label, mouseUpCommit. intros Hl.
  destruct (error h); [model|].
  destruct (is_custom_index i); [model|].
  destruct (isLabel h), (label h); cbn in Hl; first [done | model].
Qed.

(** The calls of [moveLabel]: none, or one [setGeometry] for the edge. *)
Definition label_calls (c : Cell) (pre : list (call coord * bool)) : Prop :=
  pre = [] \/ exists g threw, pre = [(setGeometry c g, threw)].

Lemma moveLabel_calls st lx ly s :
  exists pre, calls (final (moveLabel st lx ly s)) = calls s ++ pre /\
              label_calls (cell st) pre.
Proof.
  unfold moveLabel, bind, get_store.
  destruct (getGeometry (store s) (cell st)) as [geo|].
  - rewrite final_invoke. eexists. split; [done|]. right. eauto.
  - exists []. split; [by rewrite app_nil_r|by left].
Qed.

Lemma final_bind {A B} (m : Cmd A) (k : A -> Cmd B) s :
  final (bind m k s) = match m s with
                       | Return a s1 => final (k a s1)
                       | Raise s1 => s1
                       end.
Proof. unfold bind. by destruct (m s). Qed.

(** C6, as the code has it.  Unless the gesture is a move of the label, the
    calls of [mouseUp] keep every change of the model (the custom handle's
    [execute], [model.add], [setGeometry], [setTerminal], [connectCell])
    inside a [beginUpdate]/[endUpdate] bracket and close every bracket they
    open: [endUpdate] is called whether the calls inside return or throw.
    A move of the label makes at most one call on the model, the
    [setGeometry] of [moveLabel], with no bracket around it; all other calls
    are calls on the view. *)
Theorem mouseUp_brackets_model_changes (me : InternalMouseEvent coord) (s : world) :
  (label_gesture (this s) = false -> bracketed s (final (mouseUp me s))) /\
  (label_gesture (this s) = true ->
   exists pre t,
     calls (final (mouseUp me s)) = calls s ++ pre ++ t /\
     label_calls (cell (state (this s))) pre /\
     Forall (fun e => view_call e.1 = true) t).
Proof.
  assert (Hfinish : forall edge, respects quiet (mouseUpFinish edge))
    by (intros edge; unfold mouseUpFinish; cmd).
  unfold label_gesture.
  destruct (index (this s)) as [i|] eqn:Hi; cycle 1.
  { split; [intros _|done]. unfold mouseUp, bind, get_this. rewrite Hi. reflexivity. }
  destruct (marker (this s)) as [m|] eqn:Hm; cycle 1.
  { split; [intros _|done]. unfold mouseUp, bind, get_this. rewrite Hi, Hm. reflexivity. }
  set (h := set_index None (this s)).
  set (s1 := mkWorld h (store s) (calls s)).
  assert (Hup : mouseUp me s = bind (mouseUpGesture h i me) mouseUpFinish s1).
  { unfold mouseUp. unfold bind at 1, get_this. by rewrite Hi, Hm. }
  rewrite Hup.
  assert (Hh : moves_label h i = moves_label (this s) i) by done.
  split.
  - intros Hl. transitivity s1; [by exists []; rewrite app_nil_r|].
    apply respects_bind; [typeclasses eauto| |].
    + unfold mouseUpGesture. destruct (_ || _); [|model].
      apply bracketed_mouseUpCommit. by rewrite Hh.
    + intros edge. eapply respects_weaken; [apply quiet_bracketed|apply Hfinish].
  - intros Hl. rewrite <- Hh in Hl. unfold moves_label in Hl.
    destruct (error h) eqn:Herr; [done|].
    destruct (is_custom_index i) eqn:Hc; [done|].
    destruct (isLabel h) eqn:Hlab; [|done].
    destruct (label h) as [l|] eqn:Hlabel; [|done].
    rewrite final_bind. unfold mouseUpGesture.
    destruct (negb (c_eqb (getX me) (startX h)) || negb (c_eqb (getY me) (startY h))).
    + unfold mouseUpCommit. rewrite Herr, Hc, Hlab, Hlabel.
      destruct (moveLabel_calls (state h) (x l) (y l) s1) as (pre & Hpre & Hcalls).
      unfold bind at 1.
      destruct (moveLabel (state h) (x l) (y l) s1) as [u s2|s2]; cbn [final] in Hpre.
      * cbn [ret]. destruct (Hfinish (cell (state h)) s2) as (t & Ht & Hq).
        exists pre, t. split_and!; [|done|done].
        rewrite Ht, Hpre. by rewrite <- app_assoc.
      * exists pre, []. split_and!; [|done|done]. by rewrite app_nil_r.
    + assert (Hq : respects quiet
                (bind (if isToggleEvent me then invoke (other "selectCellForEvent")
                       else ret tt) (fun _ => ret (cell (state h))))) by cmd.
      specialize (Hq s1).
      match goal with
      | |- context [match ?r with Return _ _ => _ | Raise _ => _ end] =>
          destruct r as [edge s2|s2] eqn:Hr
      end.
      * destruct Hq as (t1 & Ht1 & Hq1). cbn [final] in Ht1.
        destruct (Hfinish edge s2) as (t & Ht & Hq).
        exists [], (t1 ++ t). split_and!; [|by left|by apply Forall_app].
        rewrite Ht, Ht1. cbn [app]. by rewrite <- app_assoc.
      * destruct Hq as (t1 & Ht1 & Hq1). cbn [final] in Ht1.
        exists [], t1. split_and!; [done|by left|done].
Qed.

End Properties.

(** ** Examples in the small graph *)

(** No call throws. *)
Definition never (c : call Z) : bool := false.

(** [setGeometry] throws. *)
Definition setGeometry_throws (c : call Z) : bool :=
  match c with
  | setGeometry _ _ => true
  | _ => false
  end.

(** *** C9 *)

(** The handler while the control point is dragged to (60,60). *)
Definition dragging_bend : handler Z :=
  set_index (Some 1%Z)
    (set_active true
       (set_points (Some [Some (mkPoint 60 60)%Z])
          (set_snapPoint (Some (mkPoint 50 50)%Z) example_handler))).

(** The state after the escape listener has run during that drag. *)
Definition escaped : world (H := example_graph never) :=
  final (escapeHandler (example_world never dragging_bend)).



(** *** C7 *)


(** The end handles are not removed. *)
Example removePoint_keeps_the_ends :
  removePoint example_state 0%Z (example_world never example_handler)
  = Return tt (example_world never example_handler) /\
  removePoint example_state 2%Z (example_world never example_handler)
  = Return tt (example_world never example_handler).
Proof. split; by vm_compute. Qed.

(** *** C6 *)

(** The handler while the label is dragged to (60,30). *)
Definition dragging_label : handler Z :=
  set_index (Some (-1)%Z)
    (set_isLabel true (set_label (Some (mkPoint 60 30)%Z) example_handler)).

(** C6 as stated fails for the label: [mouseUp] hands the new geometry to
    the model by [setGeometry] with no [beginUpdate] before it. *)
Lemma label_move_is_not_bracketed :
  head (calls (final (mouseUp (mouse_at 10 10) (example_world never dragging_label))))
  = Some (setGeometry 7
            (mkGeometry 60 30 true (Some (mkPoint 60 30)) (Some [Some (mkPoint 50 50)]))%Z,
          false) /\
  depth_after 0
    (calls (final (mouseUp (mouse_at 10 10) (example_world never dragging_label))))
  = None.
Proof. split; by vm_compute. Qed.

Lemma mouseUp_brackets_model_changes_witness :
  bracketed (example_world setGeometry_throws dragging_bend)
    (final (mouseUp (mouse_at 10 10) (example_world setGeometry_throws dragging_bend))).
Proof.
  apply (proj1 (mouseUp_brackets_model_changes (H := example_graph setGeometry_throws)
                  (mouse_at 10 10) (example_world setGeometry_throws dragging_bend))).
  reflexivity.
Defined.

(** [endUpdate] is called although [setGeometry] throws. *)
Example endUpdate_after_throw :
  calls (final (mouseUp (mouse_at 10 10) (example_world setGeometry_throws dragging_bend)))
  = [(beginUpdate, false);
     (setGeometry 7 (with_points example_geometry (Some [Some (mkPoint 60 60)%Z])), true);
     (endUpdate, false)].
Proof. by vm_compute. Qed.

End EdgeHandlerSpec.

(** * Further properties of the codec *)
Module CodecMore.
Import Js Codec.

#[local] Arguments get : simpl never.
#[local] Arguments set : simpl never.
#[local] Arguments push : simpl never.
#[local] Arguments to_string : simpl never.
#[local] Arguments loose_eq : simpl never.
#[local] Arguments is_null : simpl never.
#[local] Arguments decodeNode : simpl never.

Ltac run :=
  unfold bind, reads, ret, warn, throw, try_catch, ignore_errors; simpl.

Section Properties.
Context {number : Type} `{Env number}.

(** ** Field names and attribute names *)

Lemma assoc_get_None {V} (k : string) (l : list (string * V)) :
  k ∉ l.*1 -> assoc_get k l = None.
Proof.
  induction l as [|[k' v] l IH]; [done|].
  rewrite fmap_cons. intros [Hne Hk]%not_elem_of_cons. cbn [assoc_get fst] in *.
  rewrite decide_False by done. by apply IH.
Qed.

(** What the loop of the constructor leaves in [reverse]. *)
Definition reversed (m r : list (string * string)) : list (string * string) :=
  foldl (fun r fa => assoc_set (snd fa) (fst fa) r) r m.

Lemma reversed_other m a : forall r,
  a ∉ m.*2 -> assoc_get a (reversed m r) = assoc_get a r.
Proof.
  induction m as [|[f b] m IH]; intros r Ha; [done|].
  rewrite fmap_cons in Ha. apply not_elem_of_cons in Ha as [Hne Ha].
  cbn [reversed foldl fst snd] in *. fold (reversed m (assoc_set b f r)).
  rewrite IH by done. by apply CodecSpec.assoc_get_set_ne.
Qed.

Lemma reversed_field m f a : forall r,
  NoDup m.*2 -> (f, a) ∈ m -> assoc_get a (reversed m r) = Some f.
Proof.
  induction m as [|[g b] m IH]; intros r Hnd Hin.
  - by apply elem_of_nil in Hin.
  - rewrite fmap_cons in Hnd. apply NoDup_cons in Hnd as [Hb Hnd].
    cbn [reversed foldl fst snd] in *. fold (reversed m (assoc_set b g r)).
    apply elem_of_cons in Hin as [[= <- <-]|Hin].
    + rewrite reversed_other by done. apply CodecSpec.assoc_get_set_eq.
    + by apply IH.
Qed.


(** ** Functions *)

(** X2.  A field that holds a function is never written as an attribute: under
    a name the round of [encodeObject] leaves the node as it is, whether the
    name is excluded or not; as an array element it becomes an [add] child
    whose text is the source of the function. *)
Theorem function_field_is_not_an_attribute (c : codec number) (obj : loc) (k src : string)
    (w : world number) :
  get w (VObj obj) k = VFun src ->
  (isInteger k = false -> isReference c (Some k) = false ->
   forall n, encodeMember c obj n k w = Ok n w) /\
  (isInteger k = true -> isExcluded c k = false ->
   forall nm attrs ch,
     encodeMember c obj (Element nm attrs ch) k w
     = Ok (Element nm attrs (ch ++ [Element "add" [] [Text src]])) w).
Proof.
  intros Hget. split.
  - intros Hint Href n. unfold encodeMember. run. rewrite Hget.
    change (is_null (VFun src)) with false. cbn [negb andb].
    destruct (isExcluded c k); cbn [negb]; [done|].
    rewrite Hint. unfold encodeValue, encodeReference.
    change (is_null (VFun src)) with false. cbn [negb]. rewrite Href. run.
    destruct (encodeDefaults || _); [|done].
    unfold writeAttribute, writePrimitiveAttribute, convertAttributeToXml, isBooleanAttribute.
    change (is_null (VFun src)) with false. run.
    by destruct (assoc_get k (mapping c)).
  - intros Hint Hex nm attrs ch. unfold encodeMember. run. rewrite Hget, Hex, Hint.
    change (is_null (VFun src)) with false. cbn [negb andb].
    unfold encodeValue, encodeReference.
    change (is_null (VFun src)) with false. cbn [negb isReference]. run.
    unfold writeAttribute, writePrimitiveAttribute, convertAttributeToXml, isBooleanAttribute.
    change (is_null (VFun src)) with false. run. done.
Qed.

(** ** Children *)

(** X3.  While [allowEval] is off, the text of an [add] child that has no
    [value] attribute is not evaluated and the child assigns nothing. *)
Theorem add_without_value_is_ignored (c : codec number) (child : node) (obj : value number)
    (w : world number) :
  allowEval = false ->
  node_name child = "add" ->
  getAttribute child "value" = None ->
  decodeChild c child obj w = Ok tt w.
Proof.
  intros Heval Hadd Hval. unfold decodeChild.
  destruct (_ || _); [|done].
  rewrite Hadd, Hval, Heval. run. unfold addObjectValue.
  change (is_null VNull) with true. done.
Qed.

(** X4.  [processInclude] never throws: what goes wrong while the included
    file is loaded and decoded is ignored.  It answers whether the node is an
    [include], and such a child is not decoded as a field of the object. *)
Theorem include_errors_are_ignored (n : node) (into : value number) (w : world number) :
  exists w',
    processInclude n into w = Ok (bool_decide (node_name n = "include")) w' /\
    (node_name n = "include" ->
     forall c nm attrs rest,
       decodeChildren c (Element nm attrs (n :: rest)) into w
       = decodeChildren c (Element nm attrs rest) into w').
Proof.
  assert (Hinc : exists w',
             processInclude n into w = Ok (bool_decide (node_name n = "include")) w').
  { unfold processInclude. destruct (bool_decide (node_name n = "include")); [|by eexists].
    destruct (getAttribute n "name") as [name|]; unfold ignore_errors; run; [|by eexists].
    destruct (load name w) as [[x|] w1|e w1]; try by eexists.
    destruct (dec_decode x into w1); by eexists. }
  destruct Hinc as (w' & Hinc). exists w'. split; [done|].
  intros Hname c nm attrs rest. unfold decodeChildren. cbn [node_children].
  rewrite CodecSpec.foldM_cons.
  assert (Helem : is_element n = true) by by destruct n.
  rewrite Helem. unfold bind at 1. rewrite Hinc.
  by rewrite bool_decide_eq_true_2.
Qed.

(** ** Attributes *)

(** X5.  An attribute that is neither ignored nor excluded nor a reference
    is stored in the field named like the attribute, also when the mapping
    of the codec gives the attribute another field name; no other field of
    any object changes. *)
Theorem attribute_is_stored_under_its_name (c : codec number) (attr : string * string)
    (l : loc) (o : object number) (w : world number) :
  heap w !! l = Some o ->
  isIgnoredAttribute attr = false ->
  isReference c (getFieldName c (Some attr.1)) = false ->
  isExcluded c attr.1 = false ->
  exists w',
    decodeAttribute c attr (VObj l) w = Ok tt w' /\
    get w' (VObj l) attr.1 = convertAttributeFromXml w attr (VObj l) /\
    (forall k, k <> attr.1 -> get w' (VObj l) k = get w (VObj l) k) /\
    (forall l' k, l' <> l -> get w' (VObj l') k = get w (VObj l') k) /\
    objects w' = objects w /\ log w' = log w.
Proof.
  intros Hl Hign Href Hex. eexists. split_and!.
  - unfold decodeAttribute, decodeReference. rewrite Hign, Href, Hex. run.
    by apply CodecSpec.set_object.
  - apply CodecSpec.get_after_set.
  - intros k Hk. unfold get. cbn [heap]. rewrite lookup_insert_eq, Hl.
    by apply CodecSpec.get_prop_set_ne.
  - intros l' k Hl'. unfold get. cbn [heap]. by rewrite lookup_insert_ne.
  - done.
  - done.
Qed.

(** ** The object table of the decoder *)

(** X6.  Decoding a node that carries an id not yet in the object table
    creates one new object and enters it under the id; decoding the node
    again, into whatever object, returns that same object and creates none.
    (For a node without children whose attributes are no references.) *)
Theorem decode_registers_the_object (c : codec number) (nm : string)
    (attrs : list (string * string)) (i : string) (w : world number) :
  getAttribute (Element nm attrs []) "id" = Some i ->
  objects w !! i = None ->
  (forall a, a ∈ attrs ->
     isIgnoredAttribute a = true \/ isReference c (getFieldName c (Some a.1)) = false) ->
  exists l w1,
    decode c (Element nm attrs []) VUndefined w = Ok (VObj l) w1 /\
    heap w !! l = None /\
    dom (heap w1) = {[ l ]} ∪ dom (heap w) /\
    objects w1 !! i = Some (VObj l) /\
    forall into, exists w2,
      decode c (Element nm attrs []) into w1 = Ok (VObj l) w2 /\
      dom (heap w2) = dom (heap w1).
Proof.
  intros Hid Hnew Hattrs.
  set (l := fresh (dom (heap w))).
  set (o := construct (getName c)).
  assert (Hfresh : heap w !! l = None).
  { apply not_elem_of_dom. apply is_fresh. }
  assert (Hnode : forall l o1 w1,
            heap w1 !! l = Some o1 ->
            decodeNode c (Some (Element nm attrs [])) (VObj l) w1
            = Ok tt (World (<[l := foldl (CodecSpec.decode_step c (ctor o1)) o1 attrs]> (heap w1))
                       (objects w1) (log w1))).
  { intros l1 o1 w1 Hl1. unfold decodeNode, decodeAttributes. cbn [node_attributes].
    unfold bind at 1.
    rewrite (CodecSpec.decodeAttributes_plain c l1 attrs o1 w1 Hl1 Hattrs).
    unfold decodeChildren. by cbn [node_children foldM]. }
  exists l. eexists. split_and!.
  - unfold decode. rewrite Hid. unfold bind at 1. unfold reads at 1. cbn [key_of].
    rewrite Hnew. cbn [default]. change (is_null VUndefined) with true. cbv iota.
    cbn [truthy]. unfold cloneTemplate, putObject. run. fold l o.
    rewrite Hnode with (o1 := o); [done|]. cbn [heap]. apply lookup_insert_eq.
  - done.
  - cbn [heap]. rewrite insert_insert_eq. by rewrite dom_insert_L.
  - cbn [objects]. apply lookup_insert_eq.
  - intros into. eexists. split.
    + unfold decode. rewrite Hid. unfold bind at 1. unfold reads at 1. cbn [key_of objects].
      rewrite lookup_insert_eq. cbn [default from_option id].
      change (is_null (VObj l)) with false. cbv iota.
      unfold bind at 1. unfold ret at 1. unfold bind at 1.
      rewrite Hnode with (o1 := foldl (CodecSpec.decode_step c (ctor o)) o attrs); [done|].
      cbn [heap]. rewrite insert_insert_eq. apply lookup_insert_eq.
    + cbn [heap]. rewrite !insert_insert_eq. by rewrite !dom_insert_L.
Qed.

End Properties.

(** ** Examples in the small runtime *)

(** A codec for edges that writes the field [source] as the attribute [src]
    and [target] as [trg]. *)
Definition edge_mapping : list (string * string) := [("source", "src"); ("target", "trg")].

Definition mapped_codec : codec num :=
  mxObjectCodec (Object "Edge" None []) None None (Some edge_mapping).


(** An object with a listener among its fields, and an array that holds
    one. *)
Definition listener_world : world num :=
  world_of [Object "Object" None [("label", VStr "a"); ("onClick", VFun "function () {}")];
            Object "Array" (Some 1) [("0", VFun "function () {}")]].

Lemma function_field_is_not_an_attribute_witness :
  encodeMember CodecSpec.plain_codec 1%positive (Element "Object" [] []) "onClick" listener_world
  = Ok (Element "Object" [] []) listener_world /\
  encodeMember CodecSpec.plain_codec 2%positive (Element "Array" [] []) "0" listener_world
  = Ok (Element "Array" [] [Element "add" [] [Text "function () {}"]]) listener_world.
Proof.
  split.
  - apply (proj1 (function_field_is_not_an_attribute CodecSpec.plain_codec 1%positive
                    "onClick" "function () {}" listener_world eq_refl));
      reflexivity.
  - apply (proj2 (function_field_is_not_an_attribute CodecSpec.plain_codec 2%positive
                    "0" "function () {}" listener_world eq_refl));
      by vm_compute.
Defined.

Lemma add_without_value_is_ignored_witness :
  decodeChild CodecSpec.plain_codec (Element "add" [("as", "x")] [Text "new Object()"])
    (VObj 1%positive) listener_world
  = Ok tt listener_world.
Proof.
  apply (add_without_value_is_ignored CodecSpec.plain_codec
           (Element "add" [("as", "x")] [Text "new Object()"]) (VObj 1%positive)
           listener_world); reflexivity.
Defined.

(** [processInclude] on an [include] whose file is not found. *)
Example include_of_a_missing_file :
  processInclude (Element "include" [("name", "missing.xml")] []) (VObj 1%positive)
    listener_world
  = Ok true listener_world.
Proof. reflexivity. Qed.

Lemma attribute_is_stored_under_its_name_witness :
  exists w',
    decodeAttribute mapped_codec ("src", "v1") (VObj 1%positive) listener_world = Ok tt w' /\
    get w' (VObj 1%positive) "src" = VStr "v1" /\
    get w' (VObj 1%positive) "source" = VUndefined.
Proof.
  destruct (attribute_is_stored_under_its_name mapped_codec ("src", "v1") 1%positive
              (Object "Object" None [("label", VStr "a"); ("onClick", VFun "function () {}")])
              listener_world)
    as (w' & Hdec & Hget & Hother & _); [by vm_compute..|].
  cbn [fst] in *. exists w'. split_and!; [done|by rewrite Hget|].
  by rewrite (Hother "source").
Defined.

Lemma decode_registers_the_object_witness :
  exists l w1,
    decode CodecSpec.plain_codec (Element "Object" [("id", "a"); ("label", "x")] [])
      VUndefined (world_of []) = Ok (VObj l) w1 /\
    objects w1 !! "a" = Some (VObj l) /\
    forall into, exists w2,
      decode CodecSpec.plain_codec (Element "Object" [("id", "a"); ("label", "x")] []) into w1
      = Ok (VObj l) w2 /\
      dom (heap w2) = dom (heap w1).
Proof.
  destruct (decode_registers_the_object CodecSpec.plain_codec "Object"
              [("id", "a"); ("label", "x")] "a" (world_of []))
    as (l & w1 & Hdec & _ & _ & Hobj & Hagain).
  - by vm_compute.
  - by vm_compute.
  - intros a _. by right.
  - by exists l, w1.
Defined.

End CodecMore.

(** * Properties of mxCellPath *)
Module CellPathSpec.
Import Js CellPath.

(** ** Strings *)

Lemma string_app_cons (a : ascii) (s t : string) : String a s ++ t = String a (s ++ t).
Proof. reflexivity. Qed.

Lemma string_app_nil_l (t : string) : "" ++ t = t.
Proof. reflexivity. Qed.

Lemma string_length_app (s t : string) : String.length (s ++ t) = String.length s + String.length t.
Proof. induction s as [|a s IH]; [done|]. rewrite string_app_cons. simpl. by rewrite IH. Qed.

Lemma substring_app (s t : string) : substring 0 (String.length s) (s ++ t) = s.
Proof.
  induction s as [|a s IH]; [rewrite string_app_nil_l; by destruct t|].
  rewrite string_app_cons. simpl. by rewrite IH.
Qed.

Lemma string_app_assoc (s t u : string) : (s ++ t) ++ u = s ++ t ++ u.
Proof. induction s as [|a s IH]; [done|]. rewrite !string_app_cons. by rewrite IH. Qed.

Lemma string_app_empty_r (s : string) : s ++ "" = s.
Proof. induction s as [|a s IH]; [done|]. rewrite string_app_cons. by rewrite IH. Qed.

(** The strings without the separator. *)
Fixpoint plain (s : string) : bool :=
  match s with
  | EmptyString => true
  | String a s' => negb (bool_decide (a = PATH_SEPARATOR)) && plain s'
  end.

Lemma plain_app s t : plain (s ++ t) = plain s && plain t.
Proof.
  induction s as [|a s IH]; [done|]. rewrite string_app_cons. simpl. rewrite IH.
  by rewrite andb_assoc.
Qed.

Lemma split_plain s : plain s = true -> split PATH_SEPARATOR s = [s].
Proof.
  induction s as [|a s IH]; [done|]. cbn.
  intros [Ha Hs]%andb_prop. apply negb_true_iff, bool_decide_eq_false in Ha.
  rewrite decide_False by done. by rewrite IH.
Qed.

Lemma split_app s t :
  plain s = true ->
  split PATH_SEPARATOR (s ++ String PATH_SEPARATOR t) = s :: split PATH_SEPARATOR t.
Proof.
  induction s as [|a s IH].
  - intros _. rewrite string_app_nil_l. cbn. by rewrite decide_True.
  - rewrite string_app_cons. cbn. intros [Ha Hs]%andb_prop.
    apply negb_true_iff, bool_decide_eq_false in Ha.
    rewrite decide_False by done. by rewrite IH.
Qed.

Lemma lastIndexOf_plain s : plain s = true -> lastIndexOf PATH_SEPARATOR s = None.
Proof.
  induction s as [|a s IH]; [done|]. cbn.
  intros [Ha Hs]%andb_prop. apply negb_true_iff, bool_decide_eq_false in Ha.
  rewrite IH by done. by rewrite decide_False.
Qed.

Lemma lastIndexOf_app s t :
  plain t = true ->
  lastIndexOf PATH_SEPARATOR (s ++ String PATH_SEPARATOR t) = Some (String.length s).
Proof.
  intros Ht. induction s as [|a s IH].
  - rewrite string_app_nil_l. cbn. rewrite lastIndexOf_plain by done. by rewrite decide_True.
  - rewrite string_app_cons. cbn. by rewrite IH.
Qed.

(** ** Decimal numerals *)

Lemma digit_of_pretty_N_char d : (d < 10)%N -> digit_of (pretty_N_char d) = Some d.
Proof.
  intros Hd.
  assert (d = 0 ∨ d = 1 ∨ d = 2 ∨ d = 3 ∨ d = 4 ∨ d = 5 ∨ d = 6 ∨ d = 7 ∨ d = 8 ∨ d = 9)%N
    as Hcases by lia.
  destruct Hcases as [->|[->|[->|[->|[->|[->|[->|[->|[->| ->]]]]]]]]]; reflexivity.
Qed.

(** The strings of decimal digits. *)
Fixpoint numeral (s : string) : bool :=
  match s with
  | EmptyString => true
  | String a s' => bool_decide (is_Some (digit_of a)) && numeral s'
  end.

Lemma numeral_pretty_N_go x s : numeral s = true -> numeral (pretty_N_go x s) = true.
Proof.
  revert s. induction (N.lt_wf_0 x) as [x _ IH]; intros s Hs.
  assert (x = 0 ∨ 0 < x)%N as [->|Hx] by lia; [done|].
  rewrite pretty_N_go_step by done. apply IH; [by apply N.div_lt|].
  cbn. rewrite Hs, andb_true_r. apply bool_decide_eq_true.
  rewrite digit_of_pretty_N_char; [done|]. by apply N.mod_lt.
Qed.

Lemma numeral_pretty_N (n : N) : numeral (pretty n) = true.
Proof.
  unfold pretty, pretty_N. destruct (decide (n = 0%N)); [done|].
  by apply numeral_pretty_N_go.
Qed.

Lemma digits_pretty_N_go x s acc :
  (0 < x)%N -> default 0%N acc = 0%N ->
  digits digit_of 10 acc (pretty_N_go x s) = digits digit_of 10 (Some x) s.
Proof.
  revert s. induction (N.lt_wf_0 x) as [x _ IH]; intros s Hx Hacc.
  rewrite pretty_N_go_step by done.
  assert (Hd : digit_of (pretty_N_char (x `mod` 10)) = Some (x `mod` 10)%N)
    by (apply digit_of_pretty_N_char; by apply N.mod_lt).
  pose proof (N.div_mod x 10 ltac:(done)) as Hx10.
  destruct (N.eq_0_gt_0_cases (x `div` 10)) as [H0|Hpos].
  - rewrite H0, pretty_N_go_0. cbn [digits]. rewrite Hd, Hacc. do 2 f_equal.
    rewrite H0 in Hx10. lia.
  - rewrite IH; [|by apply N.div_lt|done|done]. cbn [digits]. rewrite Hd.
    cbn [default from_option id]. by rewrite <- Hx10.
Qed.

Lemma digits_pretty_N (n : N) : digits digit_of 10 None (pretty n) = Some n.
Proof.
  unfold pretty, pretty_N. destruct (decide (n = 0%N)) as [->|Hn]; [done|].
  rewrite digits_pretty_N_go; [done|lia|done].
Qed.

Lemma numeral_plain s : numeral s = true -> plain s = true.
Proof.
  induction s as [|a s IH]; [done|]. cbn. intros [Ha Hs]%andb_prop.
  rewrite IH by done. rewrite andb_true_r. apply negb_true_iff, bool_decide_eq_false.
  intros ->. by apply bool_decide_eq_true in Ha as [d Hd].
Qed.

(** A numeral is read as a decimal number, whatever digit leads it. *)
Lemma parseInt_numeral s :
  numeral s = true -> parseInt s = Z.of_N <$> digits digit_of 10 None s.
Proof.
  intros Hs. unfold parseInt.
  destruct s as [|a s]; [done|].
  cbn in Hs. apply andb_prop in Hs as [Ha Hs]. apply bool_decide_eq_true in Ha as [d Hd].
  assert (Hsp : is_space a = false).
  { unfold is_space. unfold digit_of in Hd.
    destruct ((48 <=? N_of_ascii a)%N && (N_of_ascii a <=? 57)%N) eqn:Hrange; [|done].
    apply andb_prop in Hrange as [Hlo Hhi]. apply N.leb_le in Hlo, Hhi.
    apply orb_false_intro; [apply andb_false_intro2|]; [apply N.leb_gt|apply N.eqb_neq]; lia. }
  cbn [trim_start]. rewrite Hsp.
  assert (Hminus : a <> "-"%char) by (intros ->; done).
  assert (Hplus : a <> "+"%char) by (intros ->; done).
  rewrite (bool_decide_eq_false_2 _ Hminus), (bool_decide_eq_false_2 _ Hplus).
  cbn [fst snd].
  destruct s as [|b s]; [done|].
  cbn in Hs. apply andb_prop in Hs as [Hb Hs]. apply bool_decide_eq_true in Hb as [e He].
  assert (Hx : b <> "x"%char) by (intros ->; done).
  assert (HX : b <> "X"%char) by (intros ->; done).
  rewrite (bool_decide_eq_false_2 _ Hx), (bool_decide_eq_false_2 _ HX).
  by rewrite andb_false_r.
Qed.

Lemma parseInt_pretty (z : Z) : parseInt (pretty z) = Some z.
Proof.
  destruct z as [|p|p].
  - done.
  - change (pretty (Z.pos p)) with (pretty (N.pos p)).
    rewrite parseInt_numeral by apply numeral_pretty_N.
    by rewrite digits_pretty_N.
  - change (pretty (Z.neg p)) with (String "-"%char (pretty (N.pos p))).
    pose proof (parseInt_numeral (pretty (N.pos p)) (numeral_pretty_N _)) as Hp.
    rewrite digits_pretty_N in Hp.
    unfold parseInt in *. cbn [trim_start is_space].
    change (is_space "-"%char) with false. cbv iota.
    rewrite bool_decide_eq_true_2 by done. cbn [fst snd].
    assert (Htrim : trim_start (pretty (N.pos p)) = pretty (N.pos p)).
    { pose proof (numeral_pretty_N (N.pos p)) as Hn.
      destruct (pretty (N.pos p)) as [|a s]; [done|].
      cbn in Hn. apply andb_prop in Hn as [Ha _].
      apply bool_decide_eq_true in Ha as [d Hd].
      cbn [trim_start]. replace (is_space a) with false; [done|].
      symmetry. unfold is_space. unfold digit_of in Hd.
      destruct ((48 <=? N_of_ascii a)%N && (N_of_ascii a <=? 57)%N) eqn:Hrange; [|done].
      apply andb_prop in Hrange as [Hlo Hhi]. apply N.leb_le in Hlo, Hhi.
      apply orb_false_intro; [apply andb_false_intro2|]; [apply N.leb_gt|apply N.eqb_neq]; lia. }
    rewrite Htrim in Hp.
    assert (Hsign : match pretty (N.pos p) with
                    | String a s' =>
                        if bool_decide (a = "-"%char) then (true, s')
                        else if bool_decide (a = "+"%char) then (false, s')
                        else (false, pretty (N.pos p))
                    | EmptyString => (false, pretty (N.pos p))
                    end = (false, pretty (N.pos p))).
    { pose proof (numeral_pretty_N (N.pos p)) as Hn.
      destruct (pretty (N.pos p)) as [|a s]; [done|].
      cbn in Hn. apply andb_prop in Hn as [Ha _].
      apply bool_decide_eq_true in Ha as [d Hd].
      assert (Hminus : a <> "-"%char) by (intros ->; done).
      assert (Hplus : a <> "+"%char) by (intros ->; done).
      by rewrite (bool_decide_eq_false_2 _ Hminus), (bool_decide_eq_false_2 _ Hplus). }
    rewrite Hsign in Hp. cbn [fst snd] in Hp.
    destruct (match pretty (N.pos p) with
              | String a (String b s') =>
                  if bool_decide (a = "0"%char) && (bool_decide (b = "x"%char) || bool_decide (b = "X"%char))
                  then digits hex_digit_of 16 None s'
                  else digits digit_of 10 None (pretty (N.pos p))
              | s' => digits digit_of 10 None s'
              end) as [n|]; [|done].
    cbn in Hp |- *. injection Hp as Hp. f_equal. lia.
Qed.

Lemma plain_pretty (z : Z) : plain (pretty z) = true.
Proof.
  destruct z as [|p|p]; [done| |].
  - apply numeral_plain. change (pretty (Z.pos p)) with (pretty (N.pos p)).
    apply numeral_pretty_N.
  - change (pretty (Z.neg p)) with (String "-"%char (pretty (N.pos p))).
    cbn. apply numeral_plain, numeral_pretty_N.
Qed.

Lemma pretty_nonempty (z : Z) : pretty z <> "".
Proof. intros Hz. pose proof (parseInt_pretty z) as Hp. by rewrite Hz in Hp. Qed.

(** ** Paths *)

Section Properties.
Context `{Cells}.

(** The decimal indices joined by the separator. *)
Fixpoint path_string (indices : list Z) : string :=
  match indices with
  | [] => ""
  | [i] => pretty i
  | i :: rest => pretty i ++ String PATH_SEPARATOR (path_string rest)
  end.

(** [c] is reached from the root by the parent links, through children with
    the given indices. *)
Inductive at_path (root : Cell) : list Z -> Cell -> Prop :=
| at_root : getParent root = None -> at_path root [] root
| at_child indices p c :
    at_path root indices p -> getParent c = Some p ->
    at_path root (indices ++ [getIndex p c]) c.

(** Every index followed by the separator. *)
Fixpoint dotted (indices : list Z) : string :=
  match indices with
  | [] => ""
  | i :: rest => pretty i ++ String PATH_SEPARATOR (dotted rest)
  end.

Lemma dotted_snoc indices i r :
  dotted (indices ++ [i]) ++ r = dotted indices ++ pretty i ++ String PATH_SEPARATOR r.
Proof.
  induction indices as [|j indices IH]; cbn [dotted app].
  - by rewrite string_app_assoc.
  - rewrite !string_app_assoc, !string_app_cons. by rewrite IH.
Qed.

Lemma dotted_path_string indices :
  indices <> [] -> dotted indices = path_string indices ++ String PATH_SEPARATOR "".
Proof.
  induction indices as [|i indices IH]; [done|]. intros _.
  destruct indices as [|j indices]; [done|].
  change (dotted (i :: j :: indices))
    with (pretty i ++ String PATH_SEPARATOR (dotted (j :: indices))).
  rewrite IH by done.
  change (path_string (i :: j :: indices))
    with (pretty i ++ String PATH_SEPARATOR (path_string (j :: indices))).
  by rewrite string_app_assoc, string_app_cons.
Qed.

Lemma path_string_snoc indices i :
  indices <> [] ->
  path_string (indices ++ [i]) = path_string indices ++ String PATH_SEPARATOR (pretty i).
Proof.
  induction indices as [|j indices IH]; [done|]. intros _.
  destruct indices as [|k indices]; [done|].
  change (path_string ((j :: k :: indices) ++ [i]))
    with (pretty j ++ String PATH_SEPARATOR (path_string ((k :: indices) ++ [i]))).
  rewrite IH by done.
  change (path_string (j :: k :: indices))
    with (pretty j ++ String PATH_SEPARATOR (path_string (k :: indices))).
  by rewrite string_app_assoc, string_app_cons.
Qed.

Lemma path_string_nonempty indices : indices <> [] -> path_string indices <> "".
Proof.
  destruct indices as [|i [|j indices]]; [done| |]; intros _ Hp; cbn [path_string] in Hp.
  - by apply pretty_nonempty in Hp.
  - pose proof (pretty_nonempty i) as Hi. by destruct (pretty i).
Qed.

Lemma create_loop_path root indices c :
  at_path root indices c ->
  forall fuel r,
    length indices <= fuel ->
    create_loop fuel c (getParent c) r = Some (dotted indices ++ r).
Proof.
  induction 1 as [Hroot|indices p c Hp IH Hc]; intros fuel r Hfuel.
  - rewrite Hroot. by destruct fuel.
  - rewrite Hc. rewrite length_app in Hfuel. cbn [length] in Hfuel.
    destruct fuel as [|fuel]; [lia|]. cbn [create_loop].
    rewrite IH by lia. by rewrite dotted_snoc.
Qed.

Lemma split_path_string indices :
  indices <> [] -> split PATH_SEPARATOR (path_string indices) = pretty <$> indices.
Proof.
  induction indices as [|i indices IH]; [done|]. intros _.
  destruct indices as [|j indices].
  - cbn [path_string]. by rewrite split_plain by apply plain_pretty.
  - change (path_string (i :: j :: indices))
      with (pretty i ++ String PATH_SEPARATOR (path_string (j :: indices))).
    rewrite split_app by apply plain_pretty. by rewrite IH.
Qed.

Lemma create_at_path (root c : Cell) (indices : list Z) (fuel : nat) :
  at_path root indices c ->
  length indices <= fuel ->
  create fuel (Some c) = Some (path_string indices).
Proof.
  intros Hc Hfuel. unfold create.
  rewrite (create_loop_path root indices c Hc fuel "" Hfuel). cbn [mbind option_bind].
  rewrite string_app_empty_r. f_equal.
  destruct (decide (indices = [])) as [->|Hne]; [done|].
  rewrite dotted_path_string by done.
  assert (Hlen : 1 <= String.length (path_string indices)).
  { pose proof (path_string_nonempty indices Hne). destruct (path_string indices); [done|].
    cbn. lia. }
  rewrite string_length_app. cbn [String.length].
  rewrite bool_decide_eq_true_2 by lia.
  replace (String.length (path_string indices) + 1 - 1) with (String.length (path_string indices))
    by lia.
  apply substring_app.
Qed.

Lemma path_string_inj (l1 l2 : list Z) :
  length l1 = length l2 -> path_string l1 = path_string l2 -> l1 = l2.
Proof.
  intros Hlen Hp.
  destruct (decide (l1 = [])) as [->|Hne1]; [by destruct l2|].
  destruct (decide (l2 = [])) as [->|Hne2]; [by destruct l1|].
  assert (Hs : pretty <$> l1 = pretty <$> l2).
  { by rewrite <- !split_path_string, Hp by done. }
  clear Hp Hne1 Hne2. revert l2 Hlen Hs.
  induction l1 as [|i l1 IH]; intros [|j l2] Hlen Hs; try done.
  rewrite !fmap_cons in Hs. injection Hs as Hij Hs.
  f_equal; [|apply IH; [by injection Hlen|done]].
  assert (Hparse : parseInt (pretty i) = parseInt (pretty j)) by (by rewrite Hij).
  rewrite !parseInt_pretty in Hparse. by injection Hparse.
Qed.

(** X7.  [create] returns the indices of the cell and of its ancestors
    below the root, in decimal and joined by the separator: the empty string
    for the root itself and for no cell, no trailing separator otherwise.
    Two cells at the same depth have the same path only when their indices
    agree all the way up. *)
Theorem create_is_the_index_path (root c : Cell) (indices : list Z) (fuel : nat) :
  at_path root indices c ->
  length indices <= fuel ->
  create fuel (Some c) = Some (path_string indices) /\
  create fuel (Some root) = Some "" /\
  create fuel None = Some "" /\
  (forall c' indices',
     at_path root indices' c' -> length indices' = length indices ->
     create fuel (Some c') = create fuel (Some c) -> indices' = indices).
Proof.
  intros Hc Hfuel.
  assert (Hroot : at_path root [] root).
  { clear Hfuel. induction Hc; [by constructor|done]. }
  split_and!.
  - by apply (create_at_path root).
  - by rewrite (create_at_path root root [] fuel Hroot) by (cbn; lia).
  - done.
  - intros c' indices' Hc' Hlen.
    rewrite (create_at_path root c' indices' fuel Hc') by lia.
    rewrite (create_at_path root c indices fuel Hc) by lia.
    intros [= Hp]. by apply path_string_inj.
Qed.

(** X8.  The parent path of the path of a cell is the path of its parent;
    the path of the root has no parent path. *)
Theorem parent_path_is_path_of_parent (root p c : Cell) (indices : list Z) (fuel : nat) :
  at_path root indices p ->
  getParent c = Some p ->
  length indices < fuel ->
  getParentPath (create fuel (Some c)) = create fuel (Some p) /\
  getParentPath (create fuel (Some root)) = None.
Proof.
  intros Hp Hc Hfuel.
  assert (Hroot : at_path root [] root).
  { clear Hc Hfuel. induction Hp; [by constructor|done]. }
  split.
  - rewrite (create_at_path root c (indices ++ [getIndex p c]) fuel);
      [|by constructor|rewrite length_app; cbn [length]; lia].
    rewrite (create_at_path root p indices fuel Hp) by lia.
    cbn [getParentPath]. destruct (decide (indices = [])) as [->|Hne].
    + cbn [app path_string]. rewrite lastIndexOf_plain by apply plain_pretty.
      pose proof (pretty_nonempty (getIndex p c)).
      destruct (pretty (getIndex p c)); [done|]. done.
    + rewrite path_string_snoc by done.
      rewrite lastIndexOf_app by apply plain_pretty.
      by rewrite substring_app.
  - by rewrite (create_at_path root root [] fuel Hroot) by (cbn; lia).
Qed.

(** X9.  [resolve] is the inverse of [create] below the root: when every
    cell is the child of its parent at its index, the path of a cell other
    than the root leads from the root back to the cell.  The path of the root
    itself, the empty string, is read as the index [NaN]. *)
Theorem resolve_inverts_create (root c : Cell) (indices : list Z) (fuel : nat) :
  (forall p c, getParent c = Some p -> getChildAt p (Some (getIndex p c)) = Some c) ->
  at_path root indices c ->
  length indices <= fuel ->
  (indices <> [] -> resolve (Some root) (create fuel (Some c)) = Some c) /\
  resolve (Some root) (create fuel (Some root)) = getChildAt root None.
Proof.
  intros Hchildren Hc Hfuel.
  assert (Hroot : at_path root [] root).
  { clear Hfuel. induction Hc; [by constructor|done]. }
  split.
  - intros Hne. rewrite (create_at_path root c indices fuel Hc Hfuel).
    unfold resolve. rewrite split_path_string by done. clear Hne Hfuel.
    induction Hc as [Hr|indices p c Hp IH Hpc]; [done|].
    rewrite fmap_app, foldl_app. rewrite IH by done.
    cbn [fmap list_fmap foldl mbind option_bind]. rewrite parseInt_pretty.
    by apply Hchildren.
  - by rewrite (create_at_path root root [] fuel Hroot) by (cbn; lia).
Qed.

End Properties.

(** ** Comparing paths *)

Lemma parseInt_char (a : ascii) : parseInt (char_at a) = Z.of_N <$> digit_of a.
Proof.
  unfold parseInt, char_at. cbn [trim_start].
  destruct (is_space a) eqn:Hsp.
  - cbn. unfold is_space in Hsp. unfold digit_of.
    destruct ((48 <=? N_of_ascii a)%N && (N_of_ascii a <=? 57)%N) eqn:Hrange; [|done].
    apply andb_prop in Hrange as [Hlo Hhi]. apply N.leb_le in Hlo, Hhi.
    apply orb_prop in Hsp as [[H1 H2]%andb_prop|H3].
    + apply N.leb_le in H2. lia.
    + apply N.eqb_eq in H3. lia.
  - destruct (bool_decide (a = "-"%char)) eqn:Hminus.
    { apply bool_decide_eq_true in Hminus as ->. done. }
    destruct (bool_decide (a = "+"%char)) eqn:Hplus.
    { apply bool_decide_eq_true in Hplus as ->. done. }
    cbn [fst snd digits]. by destruct (digit_of a).
Qed.

Lemma digit_of_inj (a b : ascii) (d : N) :
  digit_of a = Some d -> digit_of b = Some d -> a = b.
Proof.
  unfold digit_of.
  destruct ((48 <=? N_of_ascii a)%N && (N_of_ascii a <=? 57)%N) eqn:Ha; [|done].
  destruct ((48 <=? N_of_ascii b)%N && (N_of_ascii b <=? 57)%N) eqn:Hb; [|done].
  apply andb_prop in Ha as [Ha _]. apply andb_prop in Hb as [Hb _].
  apply N.leb_le in Ha, Hb. intros [= Hx] [= Hy].
  rewrite <- (ascii_N_embedding a), <- (ascii_N_embedding b). f_equal. lia.
Qed.

Lemma first_difference_None p1 p2 :
  first_difference p1 p2 = None -> String.length p1 = String.length p2 -> p1 = p2.
Proof.
  revert p2. induction p1 as [|a p1 IH]; intros [|b p2]; cbn; try done.
  destruct (decide (a = b)) as [->|]; [|done].
  intros Hd [= Hl]. f_equal. by apply IH.
Qed.

Lemma first_difference_Some p1 p2 a b :
  first_difference p1 p2 = Some (a, b) -> a <> b.
Proof.
  revert p2. induction p1 as [|c p1 IH]; intros [|d p2]; cbn; try done.
  destruct (decide (c = d)) as [->|Hne]; [apply IH|]. by intros [= <- <-].
Qed.

Lemma first_difference_refl p : first_difference p p = None.
Proof. induction p as [|a p IH]; [done|]. cbn. by rewrite decide_True. Qed.

Lemma first_difference_prefix p t : first_difference p (p ++ t) = None.
Proof.
  induction p as [|a p IH]; [by destruct t|]. rewrite string_app_cons. cbn.
  by rewrite decide_True.
Qed.

Lemma first_difference_prefix_r p t : first_difference (p ++ t) p = None.
Proof.
  induction p as [|a p IH]; [by destruct t|]. rewrite string_app_cons. cbn.
  by rewrite decide_True.
Qed.

(** The order of two different characters is never 0. *)
Lemma number_order_chars a b :
  a <> b -> number_order (parseInt (char_at a)) (parseInt (char_at b)) <> 0%Z.
Proof.
  intros Hne. rewrite !parseInt_char. unfold number_order.
  destruct (digit_of a) as [x|] eqn:Ha, (digit_of b) as [y|] eqn:Hb; cbn; try done.
  destruct (bool_decide (Z.of_N x = Z.of_N y)) eqn:Hxy.
  - apply bool_decide_eq_true in Hxy. assert (x = y) as -> by lia.
    destruct Hne. by eapply digit_of_inj.
  - by destruct (bool_decide (Z.of_N y < Z.of_N x)%Z).
Qed.

(** X10.  [compare] answers -1, 0 or 1, and 0 for equal paths only; a path
    that is a proper prefix of the other one, as the path of an ancestor is,
    comes first. *)
Theorem compare_orders_paths (p1 p2 : string) :
  (compare p1 p2 = 0%Z <-> p1 = p2) /\
  (compare p1 p2 = (-1)%Z \/ compare p1 p2 = 0%Z \/ compare p1 p2 = 1%Z) /\
  (forall t, t <> "" -> compare p1 (p1 ++ t) = (-1)%Z /\ compare (p1 ++ t) p1 = 1%Z).
Proof.
  split_and!.
  - split.
    + unfold compare. destruct (first_difference p1 p2) as [[a b]|] eqn:Hd.
      * apply first_difference_Some in Hd.
        pose proof (number_order_chars a b Hd) as Hn.
        cbn [char_at String.length]. rewrite !bool_decide_eq_false_2 by done. cbn [orb].
        done.
      * rewrite bool_decide_eq_true_2 by done.
        destruct (bool_decide (String.length p1 <> String.length p2)) eqn:Hl.
        { by destruct (bool_decide (String.length p2 < String.length p1)). }
        intros _. apply bool_decide_eq_false in Hl. apply first_difference_None; [done|].
        by destruct (decide (String.length p1 = String.length p2)).
    + intros <-. unfold compare. rewrite first_difference_refl.
      rewrite bool_decide_eq_true_2 by done. by rewrite bool_decide_eq_false_2 by auto.
  - unfold compare.
    set (comp := match first_difference p1 p2 with
                 | Some (a, b) => _
                 | None => 0%Z
                 end).
    assert (Hcomp : comp = (-1)%Z \/ comp = 0%Z \/ comp = 1%Z).
    { subst comp. destruct (first_difference p1 p2) as [[a b]|]; [|by right; left].
      rewrite !bool_decide_eq_false_2 by done. cbn [orb].
      unfold number_order.
      destruct (parseInt (char_at a)) as [x|], (parseInt (char_at b)) as [y|];
        try (by left).
      destruct (bool_decide (x = y)); [by right; left|].
      destruct (bool_decide (y < x)%Z); [by right; right|by left]. }
    destruct (bool_decide (comp = 0%Z)); [|done].
    destruct (bool_decide (String.length p1 <> String.length p2)); [|done].
    destruct (bool_decide (String.length p2 < String.length p1)); [by right; right|by left].
  - intros t Ht.
    assert (Hlen : String.length p1 < String.length (p1 ++ t)).
    { rewrite string_length_app. destruct t; [done|]. cbn. lia. }
    unfold compare. rewrite first_difference_prefix, first_difference_prefix_r.
    rewrite bool_decide_eq_true_2 by done.
    rewrite (bool_decide_eq_true_2 (String.length p1 <> String.length (p1 ++ t))) by lia.
    rewrite (bool_decide_eq_true_2 (String.length (p1 ++ t) <> String.length p1)) by lia.
    rewrite (bool_decide_eq_false_2 (String.length (p1 ++ t) < String.length p1)) by lia.
    by rewrite (bool_decide_eq_true_2 (String.length p1 < String.length (p1 ++ t))) by lia.
Qed.

(** ** Examples in the small tree *)

Lemma example_at_path : at_path (H := example_cells) 0 [0; 0]%Z 3.
Proof.
  apply (at_child (H := example_cells) 0 [0%Z] 1 3); [|done].
  apply (at_child (H := example_cells) 0 [] 0 1); [|done].
  by constructor.
Qed.

Lemma example_children (p c : Cell) :
  getParent (Cells := example_cells) c = Some p ->
  getChildAt (Cells := example_cells) p (Some (getIndex (Cells := example_cells) p c)) = Some c.
Proof. destruct c as [|[|[|[|c]]]]; intros [= <-]; reflexivity. Qed.

Lemma create_is_the_index_path_witness :
  create (H := example_cells) 5 (Some 3) = Some "0.0" /\
  create (H := example_cells) 5 (Some 0) = Some "".
Proof.
  destruct (create_is_the_index_path (H := example_cells) 0 3 [0; 0]%Z 5 example_at_path)
    as (Hc & Hroot & _).
  - cbn. lia.
  - split; [exact Hc|exact Hroot].
Defined.

Lemma parent_path_is_path_of_parent_witness :
  getParentPath (create (H := example_cells) 5 (Some 3))
  = create (H := example_cells) 5 (Some 1) /\
  getParentPath (create (H := example_cells) 5 (Some 0)) = None.
Proof.
  apply (parent_path_is_path_of_parent (H := example_cells) 0 1 3 [0%Z] 5).
  - apply (at_child (H := example_cells) 0 [] 0 1); [by constructor|done].
  - reflexivity.
  - cbn. lia.
Defined.

Lemma resolve_inverts_create_witness :
  resolve (H := example_cells) (Some 0) (create (H := example_cells) 5 (Some 3)) = Some 3 /\
  resolve (H := example_cells) (Some 0) (create (H := example_cells) 5 (Some 0)) = None.
Proof.
  destruct (resolve_inverts_create (H := example_cells) 0 3 [0; 0]%Z 5
              example_children example_at_path) as (Hc & Hroot).
  - cbn. lia.
  - split; [by apply Hc|exact Hroot].
Defined.

(** The paths of the example in document order. *)
Example compare_in_the_tree :
  compare "0.0" "0" = 1%Z /\ compare "0" "1" = (-1)%Z /\ compare "1" "0.0" = 1%Z /\
  compare "10" "9" = (-1)%Z.
Proof. split_and!; by vm_compute. Qed.

End CellPathSpec.

(** * Further properties of the edge handler *)
Module EdgeHandlerMoreSpec.
Import EdgeHandler EdgeHandlerSpec EdgeHandlerMore.

Local Open Scope list_scope.

#[local] Existing Instances quiet_pre bracketed_pre nested_pre keeps_drag_pre keeps_label_pre.

Create HintDb handler_cmds.

Ltac cmd_step :=
  lazymatch goal with
  | |- respects _ (bind _ _) => apply respects_bind; [typeclasses eauto| |intros ?]
  | |- respects _ (ret _) => apply respects_ret; typeclasses eauto
  | |- respects _ raise => apply respects_raise; typeclasses eauto
  | |- respects _ (require _) => apply respects_require; typeclasses eauto
  | |- respects _ get_this => apply respects_get_this; typeclasses eauto
  | |- respects _ get_store => apply respects_get_store; typeclasses eauto
  | |- respects _ (try_ignore _) => apply respects_try_ignore
  | |- respects _ (try_finally _ _) => apply respects_try_finally; [typeclasses eauto| |]
  | |- respects _ (for_each _ _) => apply respects_for_each; [typeclasses eauto|intros ?]
  | |- respects _ (fold_cmd _ _ _) => apply respects_fold_cmd; [typeclasses eauto|intros ? ?]
  | |- respects _ (match ?x with _ => _ end) => destruct x
  end.

Ltac cmd := cbv beta zeta; repeat (cmd_step; cbv beta zeta); eauto with handler_cmds.

#[export] Hint Resolve quiet_invoke quiet_modify quiet_reset quiet_refresh quiet_redraw
  quiet_destroyBends : handler_cmds.

Section Properties.
Context {coord : Type} `{Graph coord} `{Editing coord}.

(** ** A gesture that is not committed *)

Lemma quiet_mouseUpFinish edge : respects quiet (mouseUpFinish edge).
Proof. unfold mouseUpFinish. cmd. Qed.

(** The gesture did not move the mouse, or an error is pending. *)
Definition idle (h : handler coord) (me : InternalMouseEvent coord) : Prop :=
  (c_eqb (getX me) (startX h) = true /\ c_eqb (getY me) (startY h) = true) \/
  error h <> None.

Lemma quiet_idle_gesture h i me : idle h me -> respects quiet (mouseUpGesture h i me).
Proof.
  intros Hidle. unfold mouseUpGesture.
  destruct (negb (c_eqb (getX me) (startX h)) || negb (c_eqb (getY me) (startY h))) eqn:Hmoved;
    [|cmd].
  destruct Hidle as [[Hx Hy]|Herr].
  - by rewrite Hx, Hy in Hmoved.
  - unfold mouseUpCommit. destruct (error h); [cmd|done].
Qed.

(** [mouseUp] is the gesture on the handler without its index, followed by
    the reset. *)
Lemma mouseUp_gesture (I : world -> world -> Prop) `{!PreOrder I} me s :
  (forall i, respects I (mouseUpGesture (set_index None (this s)) i me)) ->
  (forall edge, respects I (mouseUpFinish edge)) ->
  I s (mkWorld (set_index None (this s)) (store s) (calls s)) ->
  I s (final (mouseUp me s)).
Proof.
  intros Hgesture Hfinish Hindex.
  destruct (index (this s)) as [i|] eqn:Hi; cycle 1.
  { unfold mouseUp, bind, get_this. rewrite Hi. reflexivity. }
  destruct (marker (this s)) as [m|] eqn:Hm; cycle 1.
  { unfold mouseUp, bind, get_this. rewrite Hi, Hm. reflexivity. }
  set (h := set_index None (this s)).
  set (s1 := mkWorld h (store s) (calls s)).
  assert (Hup : mouseUp me s = bind (mouseUpGesture h i me) mouseUpFinish s1).
  { unfold mouseUp. unfold bind at 1, get_this. by rewrite Hi, Hm. }
  rewrite Hup. transitivity s1; [done|].
  apply respects_bind; [done|apply Hgesture|apply Hfinish].
Qed.

(** X11.  When the mouse is released where the gesture started, or while an
    error is pending, [mouseUp] commits nothing: every call it makes is a
    call on the view. *)
Theorem idle_mouseUp_commits_nothing (me : InternalMouseEvent coord) (s : world) :
  (c_eqb (getX me) (startX (this s)) = true /\ c_eqb (getY me) (startY (this s)) = true) \/
  error (this s) <> None ->
  quiet s (final (mouseUp me s)).
Proof.
  intros Hidle. apply mouseUp_gesture.
  - typeclasses eauto.
  - intros i. by apply quiet_idle_gesture.
  - apply quiet_mouseUpFinish.
  - exists []. by rewrite app_nil_r.
Qed.

(** ** Bends and points after a refresh *)

(** The handler is left as it is. *)
Definition same_this (s s' : world) : Prop := this s' = this s.

#[local] Instance same_this_pre : PreOrder same_this.
Proof. split; [by intros s|]. intros s1 s2 s3. unfold same_this. congruence. Qed.

Lemma same_this_invoke c : respects same_this (invoke c).
Proof. intros s. by rewrite final_invoke. Qed.

#[local] Hint Resolve same_this_invoke : handler_cmds.

Lemma same_this_destroyBends {A} (bs : list (option A)) : respects same_this (destroyBends bs).
Proof. unfold destroyBends. cmd. Qed.

(** The first and the last index of [abspoints]. *)
Definition terminal_index (n i : nat) : bool :=
  bool_decide (i = 0) || bool_decide (i = n - 1).

(** By how much the bends outnumber the points. *)
Definition surplus (bs : list (option Shape)) (pts : list (option (Point coord))) : Z :=
  Z.of_nat (length bs) - Z.of_nat (length pts).

Lemma createBend_Return bs i s bs' s' pts :
  createBend bs i s = Return bs' s' ->
  points (this s) = Some pts ->
  abspoints (this s') = abspoints (this s) /\
  exists pts',
    points (this s') = Some pts' /\
    surplus bs' pts'
    = (surplus bs pts + if terminal_index (length (abspoints (this s))) i then 1 else 0)%Z.
Proof.
  unfold createBend, isHandleVisible, terminal_index. intros Hr Hpts.
  apply bind_Return in Hr as (visible & s0 & Hvis & Hr).
  apply bind_Return in Hvis as (h & s1 & [= <- <-] & Hvis).
  apply bind_Return in Hvis as (st & s1 & [= <- <-] & Hvis).
  injection Hvis as <- <-.
  apply bind_Return in Hr as (h & s1 & [= <- <-] & Hr).
  set (terminal := bool_decide (i = 0) || bool_decide (i = length (abspoints (this s)) - 1)) in *.
  assert (Hsame : forall bs0 s0, Return bs s = Return bs0 s0 ->
            abspoints (this s0) = abspoints (this s) /\
            exists pts', points (this s0) = Some pts' /\
                         surplus bs0 pts' = (surplus bs pts + 0)%Z).
  { intros bs0 s0 [= <- <-]. split; [done|]. exists pts. split; [done|lia]. }
  match type of Hr with
  | (if ?v then _ else _) _ = _ => destruct v eqn:Hv
  end; cycle 1.
  { replace terminal with false; [by apply Hsame|].
    symmetry. apply orb_false_iff in Hv as [Hv ?]. apply orb_false_iff in Hv as [_ ?].
    unfold terminal. by apply orb_false_iff. }
  destruct (terminal || isCellBendable (cell (state (this s)))) eqn:Hor; cycle 1.
  { apply orb_false_iff in Hor as [-> _]. by apply Hsame. }
  apply bind_Return in Hr as (u1 & s1 & Hc1 & Hr). apply invoke_Return in Hc1.
  apply bind_Return in Hr as (u2 & s2 & Hc2 & Hr). apply invoke_Return in Hc2.
  assert (Hthis : this s2 = this s) by (rewrite Hc2, Hc1; done).
  destruct terminal; cbn [negb] in Hr.
  - injection Hr as <- <-. rewrite Hthis. split; [done|]. exists pts. split; [done|].
    unfold surplus. rewrite length_app. cbn [length]. lia.
  - apply bind_Return in Hr as (pts0 & s3 & Hreq & Hr).
    rewrite Hpts in Hreq. injection Hreq as <- <-.
    apply bind_Return in Hr as (u3 & s3 & [= _ <-] & Hr). injection Hr as <- <-.
    cbn [this]. rewrite Hthis. split; [done|]. eexists. split; [done|].
    unfold surplus. rewrite !length_app. cbn [length]. lia.
Qed.

Lemma createBends_fold n l : forall bs s bs' s' pts,
  fold_cmd createBend l bs s = Return bs' s' ->
  points (this s) = Some pts ->
  length (abspoints (this s)) = n ->
  abspoints (this s') = abspoints (this s) /\
  exists pts',
    points (this s') = Some pts' /\
    surplus bs' pts'
    = (surplus bs pts + Z.of_nat (length (filter (fun i => terminal_index n i = true) l)))%Z.
Proof.
  induction l as [|i l IH]; intros bs s bs' s' pts Hr Hpts Hn.
  - injection Hr as <- <-. split; [done|]. exists pts. split; [done|]. cbn. lia.
  - cbn [fold_cmd] in Hr. apply bind_Return in Hr as (bs1 & s1 & Hstep & Hr).
    destruct (createBend_Return _ _ _ _ _ _ Hstep Hpts) as (Habs & pts1 & Hpts1 & Hsur).
    destruct (IH _ _ _ _ _ Hr Hpts1 ltac:(congruence)) as (Habs' & pts' & Hpts' & Hsur').
    split; [congruence|]. exists pts'. split; [done|].
    rewrite Hsur', Hsur, Hn. rewrite filter_cons.
    destruct (decide (terminal_index n i = true)) as [->|Hf].
    + cbn [length]. lia.
    + apply not_true_is_false in Hf. rewrite Hf. lia.
Qed.

Lemma terminal_indices n :
  length (filter (fun i => terminal_index n i = true) (seq 0 n)) = Nat.min 2 n.
Proof.
  assert (Hin : forall x, x ∈ filter (fun i => terminal_index n i = true) (seq 0 n)
                          <-> (x = 0 \/ x = n - 1) /\ x < n).
  { intros x. rewrite list_elem_of_filter, elem_of_seq. unfold terminal_index.
    rewrite orb_true_iff, !bool_decide_eq_true. lia. }
  assert (Hnd : NoDup (filter (fun i => terminal_index n i = true) (seq 0 n)))
    by apply NoDup_filter, NoDup_seq.
  destruct n as [|[|n]].
  - done.
  - done.
  - assert (Hp : filter (fun i => terminal_index (S (S n)) i = true) (seq 0 (S (S n)))
                 ≡ₚ [0; S n]).
    { apply NoDup_Permutation; [done| |].
      - apply NoDup_cons. split; [|apply NoDup_singleton].
        intros ?%list_elem_of_singleton. lia.
      - intros x. rewrite Hin. rewrite !elem_of_cons, elem_of_nil. lia. }
    by rewrite Hp.
Qed.

(** X12.  After [refresh] the handler has one bend for each end of the edge
    and one for each entry of [points]: [bends] outnumbers [points] by two
    (by one for a single point, by none without points), and [abspoints] are
    the points of the state. *)
Theorem refresh_pairs_bends_and_points (s s' : world) :
  refresh s = Return tt s' ->
  abspoints (this s') = absolutePoints (state (this s)) /\
  exists pts,
    points (this s') = Some pts /\
    length (bends (this s')) = length pts + Nat.min 2 (length (abspoints (this s'))).
Proof.
  unfold refresh. intros Hr.
  apply bind_Return in Hr as (h & s0 & [= <- <-] & Hr).
  apply bind_Return in Hr as (u1 & s1 & [= _ <-] & Hr).
  apply bind_Return in Hr as (u2 & s2 & [= _ <-] & Hr).
  apply bind_Return in Hr as (u3 & s3 & Hdestroy & Hr).
  apply (respects_Return _ _ _ _ _ (same_this_destroyBends _)) in Hdestroy.
  unfold same_this in Hdestroy. cbn [this] in Hdestroy.
  apply bind_Return in Hr as (bs & s4 & Hbends & Hr).
  unfold createBends in Hbends.
  apply bind_Return in Hbends as (h3 & s3' & [= <- <-] & Hbends).
  assert (Habs3 : abspoints (this s3) = absolutePoints (state (this s)))
    by (rewrite Hdestroy; done).
  destruct (createBends_fold (length (abspoints (this s3))) _ _ _ _ _ []
              Hbends ltac:(by rewrite Hdestroy) eq_refl)
    as (Habs4 & pts & Hpts & Hsur).
  rewrite terminal_indices in Hsur.
  apply bind_Return in Hr as (u4 & s5 & [= _ <-] & Hr).
  set (s5 := mkWorld (set_bends bs (this s4)) (store s4) (calls s4)) in Hr.
  assert (Hkeep : forall s6 : world,
            bends (this s6) = bends (this s5) /\ points (this s6) = points (this s5) /\
            abspoints (this s6) = abspoints (this s5) ->
            abspoints (this s6) = absolutePoints (state (this s)) /\
            exists pts,
              points (this s6) = Some pts /\
              length (bends (this s6)) = length pts + Nat.min 2 (length (abspoints (this s6)))).
  { intros s6 (Hb & Hp & Ha). rewrite Ha, Hb, Hp. subst s5.
    cbn [this bends points abspoints set_bends].
    split; [congruence|]. exists pts. split; [done|].
    rewrite Habs4. unfold surplus in Hsur. cbn [length] in Hsur. lia. }
  apply bind_Return in Hr as (u5 & s6 & Hvirtual & Hr).
  assert (H6 : bends (this s6) = bends (this s5) /\ points (this s6) = points (this s5) /\
               abspoints (this s6) = abspoints (this s5)).
  { destruct (virtualBends (this s)) as [vbs|]; [|by injection Hvirtual as _ <-].
    apply bind_Return in Hvirtual as (u & sa & Ha & Hvirtual).
    apply (respects_Return _ _ _ _ _ (same_this_destroyBends _)) in Ha.
    apply bind_Return in Hvirtual as (vbs' & sb & Hb & Hvirtual).
    assert (Hcv : respects same_this createVirtualBends)
      by (unfold createVirtualBends; cmd).
    apply (respects_Return _ _ _ _ _ Hcv) in Hb.
    injection Hvirtual as _ <-. unfold same_this in *. cbn [this]. rewrite Hb, Ha. done. }
  apply bind_Return in Hr as (u6 & s7 & Hcustom & Hr).
  assert (H7 : bends (this s7) = bends (this s6) /\ points (this s7) = points (this s6) /\
               abspoints (this s7) = abspoints (this s6)).
  { destruct (customHandles (this s)) as [chs|]; [|by injection Hcustom as _ <-].
    apply bind_Return in Hcustom as (u & sa & Ha & Hcustom).
    apply (respects_Return _ _ _ _ _ (same_this_destroyBends _)) in Ha.
    apply bind_Return in Hcustom as (chs' & sb & [= _ <-] & Hcustom).
    injection Hcustom as _ <-. unfold same_this in *. cbn [this]. rewrite Ha. done. }
  assert (H8 : this s' = this s7).
  { destruct (labelShape (this s)) as [[[]]|]; cbn [node] in Hr;
      try (unfold ret in Hr; by simplify_eq).
    apply invoke_Return in Hr. by rewrite Hr. }
  apply Hkeep. rewrite H8. destruct H6 as (?&?&?), H7 as (?&?&?). split_and!; congruence.
Qed.


(** ** Cloning *)

(** The calls that change a given cell or put it into the model. *)
Definition touches (edge : Cell) (c : call coord) : bool :=
  match c with
  | setGeometry c' _ | setTerminal c' _ _ | connectCell c' _ _ | add _ c' _ =>
      bool_decide (c' = edge)
  | _ => false
  end.

(** None of the calls made since [s] touches the cell. *)
Definition spares (edge : Cell) (s s' : world) : Prop :=
  exists t, calls s' = calls s ++ t /\ Forall (fun e => touches edge e.1 = false) t.

#[local] Instance spares_pre edge : PreOrder (spares edge).
Proof.
  split.
  - intros s. exists []. split; [by rewrite app_nil_r|done].
  - intros s1 s2 s3 (t1 & H1 & F1) (t2 & H2 & F2). exists (t1 ++ t2). split.
    + by rewrite H2, H1, app_assoc.
    + by apply Forall_app.
Qed.

Lemma spares_invoke edge c : touches edge c = false -> respects (spares edge) (invoke c).
Proof.
  intros Hc s. rewrite final_invoke. eexists. split; [done|]. by apply Forall_singleton.
Qed.

Lemma spares_modify edge f : respects (spares edge) (modify f).
Proof. intros s. exists []. cbn. by rewrite app_nil_r. Qed.

Lemma quiet_spares edge s s' : quiet s s' -> spares edge s s'.
Proof.
  intros (t & Ht & Hq). exists t. split; [done|].
  eapply Forall_impl; [exact Hq|]. intros [c b] Hc. by destruct c.
Qed.

#[local] Hint Resolve spares_modify : handler_cmds.
#[local] Hint Extern 1 (respects _ (invoke _)) =>
  apply spares_invoke; cbn [touches]; first [done | by apply bool_decide_eq_false_2]
  : handler_cmds.
#[local] Hint Extern 1 (respects _ (modify _)) => apply spares_modify : handler_cmds.

(** The rule for [bind] when what the first part returns matters. *)
Lemma respects_bind_post (I : world -> world -> Prop) `{!PreOrder I} {A B}
    (Q : A -> Prop) (m : Cmd A) (k : A -> Cmd B) :
  respects I m ->
  (forall s a s', m s = Return a s' -> Q a) ->
  (forall a, Q a -> respects I (k a)) ->
  respects I (bind m k).
Proof.
  intros Hm HQ Hk s. unfold bind. specialize (Hm s). specialize (HQ s).
  destruct (m s) as [a s'|s']; [|done].
  etransitivity; [exact Hm|]. apply Hk. by eapply HQ.
Qed.

(** The edge the commit works on is a clone of the dragged edge. *)
Definition is_clone (edge edge' : Cell) : Prop := exists st, edge' = cloned st edge.

Section Clone.
Variable edge : Cell.
Hypothesis Hclone : forall st, cloned st edge <> edge.

Lemma spares_clone_call (c : Cell -> call coord) edge' :
  is_clone edge edge' ->
  (forall e, e <> edge -> touches edge (c e) = false) ->
  respects (spares edge) (invoke (c edge')).
Proof. intros [st ->] Hc. apply spares_invoke, Hc, Hclone. Qed.

Lemma spares_changePoints pts : respects (spares edge) (changePoints edge pts true).
Proof.
  unfold changePoints.
  apply respects_bind; [typeclasses eauto|cmd|intros _].
  apply respects_try_finally; [typeclasses eauto| |cmd].
  apply (respects_bind_post _ (is_clone edge)).
  - apply respects_bind; [typeclasses eauto|cmd|intros st].
    apply respects_bind; [typeclasses eauto|cmd|intros _].
    apply respects_bind; [typeclasses eauto|cmd|intros p].
    apply respects_bind; [typeclasses eauto|cmd|intros st'].
    cmd; apply spares_invoke; cbn [touches]; by apply bool_decide_eq_false_2.
  - intros s a s' Hr.
    apply bind_Return in Hr as (st & s0 & [= <- <-] & Hr).
    apply bind_Return in Hr as (u1 & s1 & _ & Hr).
    apply bind_Return in Hr as (p & s2 & _ & Hr).
    apply bind_Return in Hr as (st' & s3 & _ & Hr).
    apply bind_Return in Hr as (u2 & s4 & _ & Hr).
    apply bind_Return in Hr as (u3 & s5 & _ & Hr).
    apply bind_Return in Hr as (u4 & s6 & _ & Hr).
    injection Hr as <- _. by eexists.
  - intros edge' Hedge'.
    apply respects_bind; [typeclasses eauto|cmd|intros st].
    apply respects_bind; [typeclasses eauto| |intros ?; cmd].
    destruct (getGeometry st edge'); [|cmd].
    apply (spares_clone_call (fun e => setGeometry e _)); [done|].
    intros e He. cbn [touches]. by apply bool_decide_eq_false_2.
Qed.

Lemma spares_changeTerminalPoint pt source :
  respects (spares edge) (changeTerminalPoint edge pt source true).
Proof.
  unfold changeTerminalPoint.
  apply respects_bind; [typeclasses eauto|cmd|intros _].
  apply respects_try_finally; [typeclasses eauto| |cmd].
  apply (respects_bind_post _ (is_clone edge)).
  - apply respects_bind; [typeclasses eauto|cmd|intros st].
    apply respects_bind; [typeclasses eauto|cmd|intros _].
    apply respects_bind; [typeclasses eauto|cmd|intros p].
    apply respects_bind; [typeclasses eauto|cmd|intros st'].
    cmd; apply spares_invoke; cbn [touches]; by apply bool_decide_eq_false_2.
  - intros s a s' Hr.
    apply bind_Return in Hr as (st & s0 & [= <- <-] & Hr).
    apply bind_Return in Hr as (u1 & s1 & _ & Hr).
    apply bind_Return in Hr as (p & s2 & _ & Hr).
    apply bind_Return in Hr as (st' & s3 & _ & Hr).
    apply bind_Return in Hr as (u2 & s4 & _ & Hr).
    apply bind_Return in Hr as (u3 & s5 & _ & Hr).
    injection Hr as <- _. by eexists.
  - intros edge' Hedge'.
    apply respects_bind; [typeclasses eauto|cmd|intros st].
    apply respects_bind; [typeclasses eauto| |intros ?; cmd].
    destruct (getGeometry st edge'); [|cmd].
    apply respects_bind; [typeclasses eauto| |intros _].
    + apply (spares_clone_call (fun e => setGeometry e _)); [done|].
      intros e He. cbn [touches]. by apply bool_decide_eq_false_2.
    + apply (spares_clone_call (fun e => connectCell e _ _)); [done|].
      intros e He. cbn [touches]. by apply bool_decide_eq_false_2.
Qed.

Lemma spares_mouseUpTerminal h : respects (spares edge) (mouseUpTerminal h edge true).
Proof.
  unfold mouseUpTerminal.
  apply respects_bind; [typeclasses eauto|unfold dropTerminal; cmd|intros [terminal|]];
    cycle 1.
  { destruct isAllowDanglingEdges; [|cmd].
    apply respects_bind; [typeclasses eauto|cmd|intros pt].
    apply respects_bind; [typeclasses eauto|cmd|intros st].
    apply respects_bind; [typeclasses eauto|cmd|intros _].
    apply spares_changeTerminalPoint. }
  apply respects_bind; [typeclasses eauto|cmd|intros st].
  apply respects_bind; [typeclasses eauto|cmd|intros _].
  apply respects_try_finally; [typeclasses eauto| |cmd].
  apply (respects_bind_post _ (is_clone edge)).
  - apply respects_bind; [typeclasses eauto|cmd|intros st0].
    apply respects_bind; [typeclasses eauto|cmd|intros _].
    apply respects_bind; [typeclasses eauto|cmd|intros p].
    apply respects_bind; [typeclasses eauto|cmd|intros st'].
    cmd; apply spares_invoke; cbn [touches]; by apply bool_decide_eq_false_2.
  - intros s a s' Hr.
    apply bind_Return in Hr as (st0 & s0 & [= <- <-] & Hr).
    apply bind_Return in Hr as (u1 & s1 & _ & Hr).
    apply bind_Return in Hr as (p & s2 & _ & Hr).
    apply bind_Return in Hr as (st' & s3 & _ & Hr).
    apply bind_Return in Hr as (u2 & s4 & _ & Hr).
    apply bind_Return in Hr as (u3 & s5 & _ & Hr).
    apply bind_Return in Hr as (st'' & s6 & _ & Hr).
    apply bind_Return in Hr as (u4 & s7 & _ & Hr).
    injection Hr as <- _. by eexists.
  - intros edge' Hedge'. unfold connect.
    apply respects_bind; [typeclasses eauto|cmd|intros _].
    apply respects_bind; [typeclasses eauto| |intros ?; cmd].
    apply respects_try_finally; [typeclasses eauto| |cmd].
    apply respects_bind; [typeclasses eauto|cmd|intros h'].
    apply respects_bind; [typeclasses eauto|cmd|intros _].
    apply (spares_clone_call (fun e => connectCell e _ _)); [done|].
    intros e He. cbn [touches]. by apply bool_decide_eq_false_2.
Qed.

End Clone.

(** X13.  A gesture that clones the edge leaves the edge itself alone: when
    [mouseUp] ends a clone gesture that is no move of the label, no call
    sets the geometry or a terminal of the dragged edge, connects it or adds
    it to the model; these calls are made on the clone.  (The clone is a cell
    of its own.) *)
Theorem clone_gesture_spares_the_edge (me : InternalMouseEvent coord) (s : world) :
  (forall st, cloned st (cell (state (this s))) <> cell (state (this s))) ->
  isIgnoreTerminalEvent me = false -> isCloneEvent me = true ->
  cloneEnabled (this s) = true -> isCellsCloneable = true ->
  label_gesture (this s) = false ->
  spares (cell (state (this s))) s (final (mouseUp me s)).
Proof.
  intros Hclone Hign Hev Hen Hable Hlabel.
  set (edge := cell (state (this s))) in *.
  assert (Hfinish : forall e, respects (spares edge) (mouseUpFinish e)).
  { intros e. eapply respects_weaken; [apply quiet_spares|].
    unfold mouseUpFinish. cmd. }
  unfold label_gesture in Hlabel.
  destruct (index (this s)) as [i|] eqn:Hi; cycle 1.
  { unfold mouseUp, bind, get_this. rewrite Hi. reflexivity. }
  destruct (marker (this s)) as [m|] eqn:Hm; cycle 1.
  { unfold mouseUp, bind, get_this. rewrite Hi, Hm. reflexivity. }
  set (h := set_index None (this s)).
  set (s1 := mkWorld h (store s) (calls s)).
  assert (Hup : mouseUp me s = bind (mouseUpGesture h i me) mouseUpFinish s1).
  { unfold mouseUp. unfold bind at 1, get_this. by rewrite Hi, Hm. }
  rewrite Hup. transitivity s1; [by exists []; rewrite app_nil_r|].
  apply respects_bind; [typeclasses eauto| |done].
  unfold mouseUpGesture.
  destruct (negb (c_eqb (getX me) (startX h)) || negb (c_eqb (getY me) (startY h)));
    [|cmd].
  unfold mouseUpCommit.
  change (cell (state h)) with edge. change (cloneEnabled h) with (cloneEnabled (this s)).
  rewrite Hign, Hev, Hen, Hable. cbn [negb andb].
  unfold moves_label in Hlabel. change (error h) with (error (this s)).
  destruct (error (this s)); [cmd|].
  destruct (is_custom_index i); [cmd|]. cbn [negb andb] in Hlabel.
  change (isLabel h) with (isLabel (this s)). change (label h) with (label (this s)).
  assert (Hrest : respects (spares edge)
            (if isSource h || isTarget h then mouseUpTerminal h edge true
             else if active h then changePoints edge (points h) true
             else bind (invoke (other "view.invalidate"))
                    (fun _ => bind (invoke (other "view.validate")) (fun _ => ret edge)))).
  { destruct (isSource h || isTarget h); [by apply spares_mouseUpTerminal|].
    destruct (active h); [by apply spares_changePoints|cmd]. }
  destruct (isLabel (this s)); [|done].
  destruct (label (this s)); [done|done].
Qed.

(** ** Starting a gesture *)

Lemma quiet_start sx sy i : respects quiet (start sx sy i).
Proof. unfold start. cmd. Qed.

(** Whether the handle of a terminal may be dragged. *)
Definition unlocked (st : Store) (c : Cell) (source : bool) : bool :=
  match getTerminal st c source with
  | None => isTerminalPointMovable c source
  | Some terminal => isCellDisconnectable c terminal source
  end.

(** X14.  [start] records where the gesture begins and which handle is
    dragged: the label handle sets [isLabel]; without bends no handle is a
    terminal handle; [index] becomes the handle, except for the handle of a
    terminal that may not be disconnected or moved, where [index] stays as it
    was.  It makes no call on the model, and releasing the mouse at the
    same place afterwards commits nothing. *)
Theorem start_begins_the_gesture (sx sy : coord) (i : Z) (s s' : world) :
  start sx sy i s = Return tt s' ->
  startX (this s') = sx /\ startY (this s') = sy /\
  isLabel (this s') = bool_decide (i = LABEL_HANDLE) /\
  (bends (this s) = [] -> isSource (this s') = false /\ isTarget (this s') = false) /\
  index (this s')
  = (if isSource (this s') || isTarget (this s')
     then if unlocked (store s) (cell (state (this s))) (isSource (this s'))
          then Some i else index (this s)
     else Some i) /\
  quiet s s' /\
  (forall me,
     c_eqb sx sx = true -> c_eqb sy sy = true -> getX me = sx -> getY me = sy ->
     quiet s' (final (mouseUp me s'))).
Proof.
  intros Hr.
  pose proof (respects_Return _ _ _ _ _ (quiet_start sx sy i) Hr) as Hquiet.
  unfold start in Hr.
  apply bind_Return in Hr as (u1 & s1 & [= _ <-] & Hr).
  apply bind_Return in Hr as (u2 & s2 & [= _ <-] & Hr).
  apply bind_Return in Hr as (h & s3 & [= <- <-] & Hr).
  cbn [this store calls] in Hr.
  set (n := length (bends (set_startY sy (set_startX sx (this s))))) in *.
  set (source := if bool_decide (n = 0) then false else bool_decide (i = 0)%Z) in *.
  set (target := if bool_decide (n = 0) then false else bool_decide (i = Z.of_nat n - 1)%Z) in *.
  apply bind_Return in Hr as (u3 & s3 & [= _ <-] & Hr).
  apply bind_Return in Hr as (u4 & s4 & [= _ <-] & Hr).
  apply bind_Return in Hr as (u5 & s5 & [= _ <-] & Hr).
  cbn [this store calls] in Hr.
  set (h5 := set_isLabel _ _) in Hr.
  apply bind_Return in Hr as (u6 & s6 & Hindex & Hr).
  set (index' := if source || target
                 then if unlocked (store s) (cell (state (this s))) source
                      then Some i else index (this s)
                 else Some i).
  assert (H6 : s6 = mkWorld (set_index index' h5) (store s) (calls s)).
  { subst index'. destruct (source || target).
    - apply bind_Return in Hindex as (st & s0 & [= <- <-] & Hindex).
      unfold unlocked. cbn [state cell set_startX set_startY] in Hindex.
      destruct (getTerminal (store s) (cell (state (this s))) source) as [t|].
      + destruct (isCellDisconnectable _ t source); injection Hindex as _ <-; [done|].
        by destruct s as [[] ? ?].
      + destruct (isTerminalPointMovable _ source); injection Hindex as _ <-; [done|].
        by destruct s as [[] ? ?].
    - by injection Hindex as _ <-. }
  apply bind_Return in Hr as (h6 & s7 & [= <- <-] & Hr).
  assert (Hthis : this s' = set_index index' h5).
  { assert (Hk : same_this s6 s'); [|by rewrite Hk, H6].
    match type of Hr with
    | ?m _ = Return _ _ => assert (Hm : respects same_this m) by cmd
    end.
    by apply (respects_Return _ _ _ _ _ Hm) in Hr. }
  rewrite Hthis. split_and!; try done.
  - intros Hb. subst h5 source target n. cbn. by rewrite Hb.
  - intros me Hx Hy Hmx Hmy. apply mouseUp_gesture.
    + typeclasses eauto.
    + intros j. apply quiet_idle_gesture. left. rewrite Hthis, Hmx, Hmy. done.
    + apply quiet_mouseUpFinish.
    + exists []. by rewrite app_nil_r.
Qed.

(** ** Adding a control point *)

Lemma splice_start_le {A} (a : list A) (start : Z) : splice_start a start <= length a.
Proof. unfold splice_start. case_bool_decide; lia. Qed.

Lemma splice_insert_length {A} (a : list A) (start : Z) (v : A) :
  length (splice_insert a start v) = S (length a).
Proof.
  unfold splice_insert. pose proof (splice_start_le a start).
  rewrite length_app, length_take. cbn [length]. rewrite length_drop. lia.
Qed.

Lemma splice_insert_delete {A} (a : list A) (start : Z) (v : A) :
  delete (splice_start a start) (splice_insert a start v) = a.
Proof.
  unfold splice_insert. pose proof (splice_start_le a start).
  rewrite delete_take_drop.
  rewrite take_app_le by (rewrite length_take; lia).
  rewrite take_take, Nat.min_id.
  rewrite drop_app_ge by (rewrite length_take; lia).
  rewrite length_take.
  replace (S (splice_start a start) - splice_start a start `min` length a) with 1 by lia.
  cbn [drop]. rewrite drop_0. apply take_drop.
Qed.

(** The offset [addPointAt] gives [findNearestSegment]. *)
Definition segment_offset (parent : Cell) : option (Point coord) :=
  if isVertex parent then stateXY parent
  else Some (mkPoint (c_mul (x translate) scale) (c_mul (y translate) scale)).


(** ** The preview points *)

(** The point [convertPoint] returns. *)
Definition converted (s : world) (point : Point coord) (gridEnabled : bool) : Point coord :=
  let p := if gridEnabled then mkPoint (snap (x point)) (snap (y point)) else point in
  let p := mkPoint (c_round (c_sub (c_div (x p) scale) (x translate)))
                   (c_round (c_sub (c_div (y p) scale) (y translate))) in
  match origin (store s) (getParent (store s) (cell (state (this s)))) with
  | Some o => mkPoint (c_sub (x p) (x o)) (c_sub (y p) (y o))
  | None => p
  end.

Lemma convertPoint_Return point gridEnabled s :
  convertPoint point gridEnabled s = Return (converted s point gridEnabled) s.
Proof. done. Qed.

Lemma quiet_convertPoint point gridEnabled : respects quiet (convertPoint point gridEnabled).
Proof. unfold convertPoint. cmd. Qed.

(** No bend other than the dragged one contains the pointer. *)
Definition clear_of_bends (contains : nat -> bool) (h : handler coord) (idx : Z)
    (l : list nat) : Prop :=
  forall i, i ∈ l -> Z.of_nat i <> idx -> at_index (bends h) i <> None -> contains i = false.

Lemma dropOnBend_clear contains h idx l : forall acc,
  clear_of_bends contains h idx l -> foldl (dropOnBend contains h idx) acc l = acc.
Proof.
  induction l as [|i l IH]; intros acc Hclear; [done|]. cbn [foldl].
  assert (Hstep : dropOnBend contains h idx acc i = acc).
  { unfold dropOnBend. case_bool_decide as Hi; [|done].
    destruct (at_index (bends h) i) eqn:Hb; [|done].
    rewrite (Hclear i); [done|by left|done|by rewrite Hb]. }
  rewrite Hstep. apply IH. intros j Hj. apply Hclear. by right.
Qed.


(** ** Destroying the handler *)

Lemma quiet_destroy l : respects quiet (destroy l).
Proof. unfold destroy. cmd. Qed.

(** What [destroy] leaves of the handler. *)
Definition destroyed (h : handler coord) : handler coord :=
  set_bends [] (set_customHandles None (set_virtualBends None
    (set_constraintHandler None (set_labelShape None (set_shape None (set_marker None h)))))).

Lemma set_marker_id (h : handler coord) : set_marker (marker h) h = h.
Proof. by destruct h. Qed.

Lemma set_shape_id (h : handler coord) : set_shape (shape h) h = h.
Proof. by destruct h. Qed.

Lemma set_labelShape_id (h : handler coord) : set_labelShape (labelShape h) h = h.
Proof. by destruct h. Qed.

Lemma set_constraintHandler_id (h : handler coord) :
  set_constraintHandler (constraintHandler h) h = h.
Proof. by destruct h. Qed.

Lemma destroy_Return l s l' s' :
  destroy l s = Return l' s' -> l' = mkLifecycle false None /\ this s' = destroyed (this s).
Proof.
  unfold destroy. intros Hr.
  apply bind_Return in Hr as (u0 & s0 & Hlisten & Hr).
  assert (K0 : this s0 = this s).
  { match type of Hlisten with
    | ?m _ = Return _ _ => assert (Hm : respects same_this m) by cmd
    end.
    by apply (respects_Return _ _ _ _ _ Hm) in Hlisten. }
  apply bind_Return in Hr as (h & s0' & [= <- <-] & Hr). rewrite K0 in Hr.
  apply bind_Return in Hr as (u1 & s1 & Hmarker & Hr).
  assert (K1 : this s1 = set_marker None (this s)).
  { destruct (marker (this s)) eqn:Hm.
    - apply bind_Return in Hmarker as (u & sa & Ha & Hmarker).
      apply invoke_Return in Ha. injection Hmarker as _ <-. rewrite Ha. cbn [this].
      by rewrite K0.
    - injection Hmarker as _ <-. by rewrite K0, <- Hm, set_marker_id. }
  apply bind_Return in Hr as (u2 & s2 & Hshape & Hr).
  assert (K2 : this s2 = set_shape None (this s1)).
  { destruct (shape (this s)) eqn:Hm.
    - apply bind_Return in Hshape as (u & sa & Ha & Hshape).
      apply invoke_Return in Ha. injection Hshape as _ <-. by rewrite Ha.
    - injection Hshape as _ <-.
      assert (Hs : shape (this s1) = None) by (by rewrite K1).
      by rewrite <- Hs, set_shape_id. }
  apply bind_Return in Hr as (u3 & s3 & Hhigh & Hr).
  assert (K3 : this s3 = this s2).
  { match type of Hhigh with
    | ?m _ = Return _ _ => assert (Hm : respects same_this m) by cmd
    end.
    by apply (respects_Return _ _ _ _ _ Hm) in Hhigh. }
  apply bind_Return in Hr as (u4 & s4 & Hlabel & Hr).
  assert (K4 : this s4 = set_labelShape None (this s3)).
  { destruct (labelShape (this s)) eqn:Hm.
    - apply bind_Return in Hlabel as (u & sa & Ha & Hlabel).
      apply invoke_Return in Ha. injection Hlabel as _ <-. by rewrite Ha.
    - injection Hlabel as _ <-.
      assert (Hs : labelShape (this s3) = None) by (by rewrite K3, K2, K1).
      by rewrite <- Hs, set_labelShape_id. }
  apply bind_Return in Hr as (u5 & s5 & Hconstraint & Hr).
  assert (K5 : this s5 = set_constraintHandler None (this s4)).
  { destruct (constraintHandler (this s)) eqn:Hm.
    - apply bind_Return in Hconstraint as (u & sa & Ha & Hconstraint).
      apply invoke_Return in Ha. injection Hconstraint as _ <-. by rewrite Ha.
    - injection Hconstraint as _ <-.
      assert (Hs : constraintHandler (this s4) = None) by (by rewrite K4, K3, K2, K1).
      by rewrite <- Hs, set_constraintHandler_id. }
  apply bind_Return in Hr as (u6 & s6 & Hvirtual & Hr).
  assert (K6 : this s6 = this s5).
  { match type of Hvirtual with
    | ?m _ = Return _ _ =>
        assert (Hm : respects same_this m)
          by (destruct (virtualBends (this s)); [apply same_this_destroyBends|cmd])
    end.
    by apply (respects_Return _ _ _ _ _ Hm) in Hvirtual. }
  apply bind_Return in Hr as (u7 & s7 & [= _ <-] & Hr).
  apply bind_Return in Hr as (u8 & s8 & Hcustom & Hr).
  assert (K8 : same_this (mkWorld (set_virtualBends None (this s6)) (store s6) (calls s6)) s8).
  { match type of Hcustom with
    | ?m _ = Return _ _ =>
        assert (Hm : respects same_this m)
          by (destruct (customHandles (this s)); [apply same_this_destroyBends|cmd])
    end.
    by apply (respects_Return _ _ _ _ _ Hm) in Hcustom. }
  apply bind_Return in Hr as (u9 & s9 & [= _ <-] & Hr).
  apply bind_Return in Hr as (u10 & s10 & Hbends & Hr).
  apply (respects_Return _ _ _ _ _ (same_this_destroyBends _)) in Hbends.
  apply bind_Return in Hr as (u11 & s11 & [= _ <-] & Hr).
  injection Hr as <- <-. split; [done|]. cbn [this].
  rewrite Hbends. cbn [this]. rewrite K8. cbn [this].
  by rewrite K6, K5, K4, K3, K2, K1.
Qed.

(** The label shape is left as it is. *)
Definition same_labelShape (s s' : world) : Prop := labelShape (this s') = labelShape (this s).

#[local] Instance same_labelShape_pre : PreOrder same_labelShape.
Proof. split; [by intros s|]. intros s1 s2 s3. unfold same_labelShape. congruence. Qed.

Lemma same_labelShape_modify f :
  (forall h, labelShape (f h) = labelShape h) -> respects same_labelShape (modify f).
Proof. intros Hf s. apply Hf. Qed.

Lemma same_labelShape_of_this (m : Cmd unit) :
  respects same_this m -> respects same_labelShape m.
Proof. intros Hm s. unfold same_labelShape. by rewrite (Hm s). Qed.

Lemma redrawHandles_needs_label s u s' :
  redrawHandles s = Return u s' -> labelShape (this s) <> None.
Proof.
  unfold redrawHandles. intros Hr.
  apply bind_Return in Hr as (h & s0 & [= <- <-] & Hr).
  apply bind_Return in Hr as (sh & s0 & Hreq & Hr).
  by destruct (labelShape (this s)).
Qed.

Lemma reset_needs_label s u s' : reset s = Return u s' -> labelShape (this s) <> None.
Proof.
  unfold reset. intros Hr.
  apply bind_Return in Hr as (h & s0 & [= <- <-] & Hr).
  apply bind_Return in Hr as (u1 & s1 & Hrefresh & Hr).
  assert (H1 : same_labelShape s s1).
  { destruct (active (this s)); [|by injection Hrefresh as _ <-].
    apply (respects_Return _ _ _ _ _ keeps_drag_refresh) in Hrefresh.
    apply Hrefresh. }
  do 9 (let Hm := fresh "Hm" in let a := fresh "u" in let b := fresh "s" in
        apply bind_Return in Hr as (a & b & Hm & Hr); injection Hm as _ <-).
  apply bind_Return in Hr as (hr & sr & [= <- <-] & Hr).
  apply bind_Return in Hr as (um & sm & Hmarker & Hr).
  apply bind_Return in Hr as (uc & sc & Hconstraint & Hr).
  apply bind_Return in Hr as (uh & sh & Hcustom & Hr).
  match type of Hmarker with
  | ?m _ = Return _ _ => assert (Hk : respects same_this m) by cmd
  end.
  apply (respects_Return _ _ _ _ _ Hk) in Hmarker. clear Hk.
  match type of Hconstraint with
  | ?m _ = Return _ _ => assert (Hk : respects same_this m) by cmd
  end.
  apply (respects_Return _ _ _ _ _ Hk) in Hconstraint. clear Hk.
  match type of Hcustom with
  | ?m _ = Return _ _ => assert (Hk : respects same_this m) by cmd
  end.
  apply (respects_Return _ _ _ _ _ Hk) in Hcustom. clear Hk.
  unfold redraw in Hr.
  apply bind_Return in Hr as (h' & s0 & [= <- <-] & Hr).
  apply bind_Return in Hr as (ua & sa & [= _ <-] & Hr).
  apply bind_Return in Hr as (st & s0 & [= <- <-] & Hr).
  apply bind_Return in Hr as (upts & sb & Hpts & Hr).
  apply bind_Return in Hr as (udraw & sd & Hdraw & Hr).
  cbn [negb] in Hr.
  match type of Hpts with
  | ?m _ = Return _ _ =>
      assert (Hk : respects keeps_drag m)
        by (unfold redrawPoint; cmd;
            first [apply keeps_drag_invoke
                  |apply keeps_drag_modify; intros ?; by repeat split])
  end.
  apply (respects_Return _ _ _ _ _ Hk) in Hpts.
  apply (respects_Return _ _ _ _ _ keeps_drag_drawPreview) in Hdraw.
  apply redrawHandles_needs_label in Hr.
  intros Hnone. apply Hr.
  destruct Hdraw as (_ & _ & _ & _ & _ & _ & _ & _ & -> & _).
  destruct Hpts as (_ & _ & _ & _ & _ & _ & _ & _ & -> & _).
  cbn [this labelShape set_abspoints].
  unfold same_this in *. rewrite Hcustom, Hconstraint, Hmarker. cbn.
  unfold same_labelShape in H1. by rewrite H1.
Qed.

(** X17.  [destroy] ends the handler.  It makes no call on the model;
    afterwards [isDestroyed] answers true, there are no bends, [mouseUp] does
    nothing at all, and a second [destroy] makes no call and changes nothing.
    [reset] does not return on a destroyed handler: it throws when it comes
    to redraw the label handle. *)
Theorem destroy_ends_the_handler (l l' : Lifecycle) (s s' : world) :
  destroy l s = Return l' s' ->
  quiet s s' /\
  isDestroyed s' = Return true s' /\
  bends (this s') = [] /\
  (forall me, mouseUp me s' = Return tt s') /\
  destroy l' s' = Return l' s' /\
  (forall s'', reset s' <> Return tt s'').
Proof.
  intros Hr.
  pose proof (respects_Return _ _ _ _ _ (quiet_destroy l) Hr) as Hquiet.
  apply destroy_Return in Hr as [-> Hthis].
  split_and!.
  - done.
  - unfold isDestroyed, bind, get_this, ret. by rewrite Hthis.
  - by rewrite Hthis.
  - intros me. unfold mouseUp, bind, get_this. rewrite Hthis. cbn.
    by destruct (index (this s)).
  - unfold destroy. unfold bind at 1. cbn [escapeListener ret].
    unfold bind at 1, get_this. rewrite Hthis. cbn.
    unfold bind, modify, ret. cbn. f_equal. destruct s' as [h' st' c']. cbn in *.
    by rewrite Hthis.
  - intros s'' Hreset. apply reset_needs_label in Hreset. apply Hreset.
    by rewrite Hthis.
Qed.

End Properties.

(** ** Examples in the small graph *)

(** The handler after the middle bend has been pressed at (0,0), and the
    example edge with that handler. *)
Definition pressed_bend : handler Z := set_index (Some 1%Z) example_handler.

Definition pressed : world (H := example_graph never) := example_world never pressed_bend.

Definition at_rest : world (H := example_graph never) := example_world never example_handler.

Lemma idle_mouseUp_commits_nothing_witness :
  quiet pressed (final (mouseUp (mouse_at 0 0) pressed)).
Proof.
  apply (idle_mouseUp_commits_nothing (H := example_graph never) (mouse_at 0 0) pressed).
  left. split; reflexivity.
Defined.

Lemma refresh_pairs_bends_and_points_witness :
  abspoints (this (final (refresh at_rest))) = absolutePoints example_state /\
  exists pts,
    points (this (final (refresh at_rest))) = Some pts /\
    length (bends (this (final (refresh at_rest)))) = length pts + 2.
Proof.
  destruct (refresh_pairs_bends_and_points (H := example_graph never) at_rest
              (final (refresh at_rest))) as (Habs & pts & Hpts & Hlen).
  - by vm_compute.
  - split; [exact Habs|]. exists pts. split; [exact Hpts|]. by rewrite Hlen, Habs.
Defined.

(** The mouse is released at (10,10) with the clone key held down. *)
Definition clone_event : InternalMouseEvent Z := mkMouseEvent 10%Z 10%Z false true false.

(** The example edge while its bend is dragged to (60,60). *)
Definition dragging : world (H := example_graph never) := example_world never dragging_bend.

Lemma clone_gesture_spares_the_edge_witness :
  spares 7 dragging (final (mouseUp clone_event dragging)).
Proof.
  apply (clone_gesture_spares_the_edge (H := example_graph never) clone_event dragging);
    try reflexivity.
  intros st. cbn. lia.
Defined.

(** The model calls of that gesture are made on the clone, cell 107. *)
Example clone_gesture_calls :
  take 6 (calls (final (mouseUp clone_event dragging)))
  = [(beginUpdate, false); (cloneCell 7, false); (add 0 107 1, false);
     (setTerminal 107 None true, false); (setTerminal 107 None false, false);
     (endUpdate, false)].
Proof. by vm_compute. Qed.

(** The example edge after the middle bend has been pressed at (10,20). *)
Definition started : world (H := example_graph never) :=
  final (start (H0 := example_editing) 10%Z 20%Z 1%Z at_rest).

Lemma start_begins_the_gesture_witness :
  startX (this started) = 10%Z /\ startY (this started) = 20%Z /\
  isLabel (this started) = false /\ index (this started) = Some 1%Z /\
  quiet at_rest started.
Proof.
  destruct (start_begins_the_gesture (H := example_graph never) (H0 := example_editing)
              10%Z 20%Z 1%Z at_rest started) as (Hx & Hy & Hl & _ & Hi & Hq & _).
  - by vm_compute.
  - split_and!; [exact Hx|exact Hy|by rewrite Hl|by rewrite Hi|exact Hq].
Defined.

(** The example edge after its handler has been destroyed. *)
Definition destroyed_world : world (H := example_graph never) :=
  final (destroy (H0 := example_editing) (mkLifecycle true None) at_rest).

Lemma destroy_ends_the_handler_witness :
  quiet at_rest destroyed_world /\
  isDestroyed destroyed_world = Return true destroyed_world /\
  (forall me, mouseUp me destroyed_world = Return tt destroyed_world) /\
  (forall s'', reset destroyed_world <> Return tt s'').
Proof.
  destruct (destroy_ends_the_handler (H := example_graph never) (H0 := example_editing)
              (mkLifecycle true None) (mkLifecycle false None) at_rest destroyed_world)
    as (Hq & Hd & _ & Hup & _ & Hreset).
  - by vm_compute.
  - split_and!; [exact Hq|exact Hd|exact Hup|exact Hreset].
Defined.

(** A point added at (20,20) goes before the old control point. *)
Example addPointAt_in_front :
  head (calls (final (addPointAt (H0 := example_editing) example_state 20%Z 20%Z at_rest)))
  = Some (setGeometry 7
            (with_points example_geometry
               (Some [Some (mkPoint 20 20); Some (mkPoint 50 50)]%Z)), false).
Proof. by vm_compute. Qed.

(** The preview while the pressed bend is at (60,60), on no other bend. *)
Example preview_of_the_pressed_bend :
  getPreviewPoints (H0 := example_editing) (fun _ => false) (mkPoint 60 60)%Z None pressed
  = Return (Some [Some (mkPoint 60 60)%Z]) pressed.
Proof. by vm_compute. Qed.

End EdgeHandlerMoreSpec.

(** * Properties of the segment handler *)
Module EdgeSegmentHandlerSpec.
Import EdgeHandler EdgeHandlerSpec EdgeHandlerMore EdgeHandlerMoreSpec EdgeSegmentHandler.

Local Open Scope list_scope.

#[local] Existing Instances quiet_pre bracketed_pre nested_pre.

Section Properties.
Context {coord : Type} `{Graph coord} `{Editing coord}.

Variable convertPoint : Point coord -> bool -> Cmd (Point coord).

(** ** Merging segments *)

(** The polyline turns at [p1]: one of the two segments there is not
    vertical and one is not horizontal. *)
Definition corner (p0 p1 p2 : Point coord) : bool :=
  (nonzero (c_sub (x p0) (x p1)) || nonzero (c_sub (x p1) (x p2))) &&
  (nonzero (c_sub (y p0) (y p1)) || nonzero (c_sub (y p1) (y p2))).

(** The inner points at which the polyline turns. *)
Fixpoint corners (ps : list (Point coord)) : list (Point coord) :=
  match ps with
  | p0 :: (p1 :: rest) as tail =>
      match rest with
      | p2 :: _ => (if corner p0 p1 p2 then [p1] else []) ++ corners tail
      | [] => []
      end
  | _ => []
  end.

Lemma turns_Return p0 p1 p2 s :
  turns (Some p0) (Some p1) (Some p2) s = Return (corner p0 p1 p2) s.
Proof.
  unfold turns, corner, bind, require, ret.
  destruct (nonzero (c_sub (x p0) (x p1))), (nonzero (c_sub (x p1) (x p2))),
    (nonzero (c_sub (y p0) (y p1))), (nonzero (c_sub (y p1) (y p2))); done.
Qed.

Section Merge.
Variable s : world.
Variable conv : Point coord -> Point coord.
Hypothesis Hconv : forall p, convertPoint p false s = Return (conv p) s.

Lemma mergeStep_Return p0 p1 p2 acc :
  mergeStep convertPoint (Some p0, Some p1, acc) (Some p2) s
  = Return (Some p1, Some p2,
            acc ++ if corner p0 p1 p2 then [Some (conv p1)] else []) s.
Proof.
  unfold mergeStep. cbn [fst snd]. unfold bind at 1. rewrite turns_Return.
  destruct (corner p0 p1 p2).
  - unfold bind at 1. unfold bind at 1. cbn [require ret]. unfold bind at 1.
    by rewrite Hconv.
  - unfold bind, ret. by rewrite app_nil_r.
Qed.

Lemma merge_fold ps : forall p0 p1 acc,
  exists a b,
    fold_cmd (mergeStep convertPoint) (Some <$> ps) (Some p0, Some p1, acc) s
    = Return (a, b, acc ++ (Some <$> (conv <$> corners (p0 :: p1 :: ps)))) s.
Proof.
  induction ps as [|p2 ps IH]; intros p0 p1 acc.
  - exists (Some p0), (Some p1). cbn. by rewrite app_nil_r.
  - cbn [fmap list_fmap fold_cmd]. unfold bind at 1. rewrite mergeStep_Return.
    destruct (IH p1 p2 (acc ++ if corner p0 p1 p2 then [Some (conv p1)] else []))
      as (a & b & ->).
    exists a, b. f_equal. f_equal. rewrite <- app_assoc. f_equal.
    change (corners (p0 :: p1 :: p2 :: ps))
      with ((if corner p0 p1 p2 then [p1] else []) ++ corners (p1 :: p2 :: ps)).
    rewrite !fmap_app. f_equal. by destruct (corner p0 p1 p2).
Qed.

Lemma mergeSegments_Return ps :
  mergeSegments convertPoint (Some <$> ps) s = Return (Some <$> (conv <$> corners ps)) s.
Proof.
  unfold mergeSegments.
  destruct ps as [|p0 [|p1 ps]]; [done|done|].
  rewrite !fmap_cons. unfold bind.
  change (drop 2 (Some p0 :: Some p1 :: (Some <$> ps))) with (Some <$> ps).
  change (at_index (Some p0 :: Some p1 :: (Some <$> ps)) 0) with (Some p0).
  change (at_index (Some p0 :: Some p1 :: (Some <$> ps)) 1) with (Some p1).
  destruct (merge_fold ps p0 p1 []) as (a & b & Hfold).
  by rewrite Hfold.
Qed.

End Merge.

Lemma corners_length ps : length (corners ps) <= length ps - 2.
Proof.
  induction ps as [|p0 ps IH]; [done|].
  destruct ps as [|p1 [|p2 ps]]; [done|done|].
  change (corners (p0 :: p1 :: p2 :: ps))
    with ((if corner p0 p1 p2 then [p1] else []) ++ corners (p1 :: p2 :: ps)).
  rewrite length_app. cbn [length] in *. destruct (corner p0 p1 p2); cbn [length]; lia.
Qed.

(** Consecutive points have the same x, up to rounding. *)
Fixpoint vertical_run (ps : list (Point coord)) : Prop :=
  match ps with
  | p0 :: (p1 :: _) as tail => nonzero (c_sub (x p0) (x p1)) = false /\ vertical_run tail
  | _ => True
  end.

Lemma corners_vertical ps : vertical_run ps -> corners ps = [].
Proof.
  induction ps as [|p0 ps IH]; [done|].
  destruct ps as [|p1 [|p2 ps]]; [done|done|].
  intros (H01 & Htail).
  change (corners (p0 :: p1 :: p2 :: ps))
    with ((if corner p0 p1 p2 then [p1] else []) ++ corners (p1 :: p2 :: ps)).
  rewrite IH by done. destruct Htail as (H12 & _).
  unfold corner. by rewrite H01, H12.
Qed.

(** ** Reconnecting *)

Section Connect.
Variable super_connect : Cell -> Cell -> bool -> Cmd Cell.

Lemma quiet_turns pt0 pt1 pt2 : respects quiet (turns pt0 pt1 pt2).
Proof. unfold turns. cmd. Qed.

Lemma quiet_mergeSegments pts :
  (forall p g, respects quiet (convertPoint p g)) ->
  respects quiet (mergeSegments convertPoint pts).
Proof.
  intros Hconv. unfold mergeSegments, mergeStep.
  pose proof quiet_turns. cmd.
Qed.


End Connect.

(** ** The preview while a segment is dragged *)

Section Preview.
Variable c_abs : coord -> coord.
Variable c_max : coord -> coord -> coord.
Variable super_getPreviewPoints : Point coord -> Cmd (option (list (option (Point coord)))).
Variable terminal_contains : bool -> coord -> coord -> bool.

(** The converted point [j] of [cps]. *)
Definition converted_at (conv : Point coord -> Point coord) (point : Point coord)
    (cps : list (Point coord)) (j : nat) : Point coord :=
  nth j (conv <$> cps) point.

(** The two ends of segment [i], moved to the pointer. *)
Definition dragged (conv : Point coord -> Point coord) (point : Point coord)
    (cps : list (Point coord)) (i : nat) : Point coord * Point coord :=
  dragSegment point (converted_at conv point cps (i - 1)) (converted_at conv point cps i).

(** Point [j] right after round [j] of the loop. *)
Definition after_round (conv : Point coord -> Point coord) (point : Point coord)
    (cps : list (Point coord)) (i j : nat) : Point coord :=
  if bool_decide (j = i) then (dragged conv point cps i).2
  else converted_at conv point cps j.

(** Point [j] of the preview. *)
Definition preview_point (conv : Point coord -> Point coord) (point : Point coord)
    (cps : list (Point coord)) (i j : nat) : Point coord :=
  if bool_decide (j + 1 = i) then (dragged conv point cps i).1
  else after_round conv point cps i j.

Section Loop.
Variable s : world.
Variable conv : Point coord -> Point coord.
Variable point : Point coord.
Variable cps : list (Point coord).
Variable i : nat.
Hypothesis Hconv : forall p, convertPoint p false s = Return (conv p) s.

Let n := length cps.

Definition preview_inv (k : nat) (acc : preview) : Prop :=
  last acc = after_round conv point cps i k /\
  shared acc = bool_decide (1 <= k <= n - 2) /\
  result acc
  = Some <$> ((preview_point conv point cps i <$> seq 1 (k - 1))
              ++ (if bool_decide (1 <= k <= n - 2)
                  then [after_round conv point cps i k] else [])).

Lemma previewStep_inv k acc p :
  S k <= n - 1 -> cps !! S k = Some p -> preview_inv k acc ->
  exists acc',
    previewStep convertPoint (Some (Z.of_nat i)) n point acc (S k, Some p) s = Return acc' s /\
    preview_inv (S k) acc'.
Proof.
  intros Hk Hp (Hlast & Hshared & Hresult).
  unfold previewStep. cbn [fst snd require]. unfold bind at 1. cbn [ret].
  unfold bind at 1. rewrite Hconv.
  set (moved := if bool_decide (Some (Z.of_nat (S k)) = Some (Z.of_nat i))
                then dragSegment point (last acc) (conv p) else (last acc, conv p)).
  assert (Hc : converted_at conv point cps (S k) = conv p).
  { unfold converted_at. by rewrite nth_lookup, list_lookup_fmap, Hp. }
  assert (Hmoved : moved.1 = preview_point conv point cps i k /\
                   moved.2 = after_round conv point cps i (S k)).
  { unfold moved, preview_point, after_round.
    destruct (decide (S k = i)) as [<-|Hne].
    - rewrite bool_decide_eq_true_2 by done.
      rewrite (bool_decide_eq_true_2 (k + 1 = S k)) by lia.
      rewrite (bool_decide_eq_true_2 (S k = S k)) by done.
      rewrite Hlast. unfold after_round.
      rewrite (bool_decide_eq_false_2 (k = S k)) by lia.
      unfold dragged. replace (S k - 1) with k by lia. by rewrite Hc.
    - rewrite bool_decide_eq_false_2 by (intros [=]; lia).
      rewrite (bool_decide_eq_false_2 (k + 1 = i)) by lia.
      rewrite (bool_decide_eq_false_2 (S k = i)) by done.
      cbn [fst snd]. by rewrite Hlast, Hc. }
  destruct Hmoved as (Hm1 & Hm2).
  set (res := if shared acc
              then take (length (result acc) - 1) (result acc) ++ [Some moved.1]
              else result acc).
  assert (Hres : res = Some <$> (preview_point conv point cps i <$> seq 1 k)).
  { unfold res. rewrite Hshared, Hresult.
    destruct (decide (1 <= k <= n - 2)) as [Hin|Hout].
    - rewrite !bool_decide_eq_true_2 by done.
      rewrite fmap_app, length_app, !length_fmap, length_seq. cbn [length fmap list_fmap].
      rewrite take_app_length' by (rewrite !length_fmap, length_seq; lia).
      assert (Hseq : seq 1 k = seq 1 (k - 1) ++ [k]).
      { replace k with (k - 1 + 1) at 1 by lia. rewrite seq_app. cbn [seq].
        by replace (1 + (k - 1)) with k by lia. }
      rewrite Hseq, !fmap_app. cbn [fmap list_fmap]. by rewrite Hm1.
    - rewrite !bool_decide_eq_false_2 by done.
      assert (k = 0) as -> by lia. by rewrite app_nil_r. }
  clearbody res moved.
  destruct (decide (S k < n - 1)) as [Hlt|Hge].
  - rewrite bool_decide_eq_true_2 by done. eexists. split; [done|].
    split_and!; cbn [last shared result].
    + done.
    + by rewrite bool_decide_eq_true_2 by lia.
    + rewrite bool_decide_eq_true_2 by lia.
      rewrite Hres, Hm2, !fmap_app. replace (S k - 1) with k by lia. done.
  - rewrite bool_decide_eq_false_2 by done. eexists. split; [done|].
    split_and!; cbn [last shared result].
    + done.
    + by rewrite bool_decide_eq_false_2 by lia.
    + rewrite bool_decide_eq_false_2 by lia.
      rewrite Hres, app_nil_r. replace (S k - 1) with k by lia. done.
Qed.

Lemma preview_fold rest k acc :
  drop (S k) cps = rest -> k <= n - 1 -> 1 <= n -> preview_inv k acc ->
  exists acc',
    fold_cmd (previewStep convertPoint (Some (Z.of_nat i)) n point)
      (zip (seq (S k) (length rest)) (Some <$> rest)) acc s = Return acc' s /\
    preview_inv (n - 1) acc'.
Proof.
  revert k acc. induction rest as [|p rest IH]; intros k acc Hdrop Hk Hn Hinv.
  - cbn. exists acc. split; [done|].
    apply drop_nil_inv in Hdrop. fold n in Hdrop.
    by replace (n - 1) with k by lia.
  - assert (Hp : cps !! S k = Some p).
    { rewrite <- (Nat.add_0_r (S k)), <- lookup_drop, Hdrop. done. }
    assert (Hlen : S k <= n - 1).
    { apply lookup_lt_Some in Hp. fold n in Hp. lia. }
    destruct (previewStep_inv k acc p Hlen Hp Hinv) as (acc1 & Hstep & Hinv1).
    cbn [length seq fmap list_fmap zip zip_with fold_cmd].
    unfold bind at 1. rewrite Hstep.
    apply IH; [|done..].
    replace (drop (S (S k)) cps) with (drop 1 (drop (S k) cps)).
    + by rewrite Hdrop.
    + rewrite drop_drop. f_equal. lia.
Qed.

End Loop.

Lemma getCurrentPoints_bent s :
  4 <= length (absolutePoints (state (this s))) ->
  getCurrentPoints c_abs c_max s = Return (absolutePoints (state (this s))) s.
Proof.
  intros Hlen. unfold getCurrentPoints. unfold bind at 1, get_this.
  rewrite !bool_decide_eq_false_2 by lia. done.
Qed.

Lemma getCurrentPoints_straight s p0 pe :
  absolutePoints (state (this s)) = [Some p0; Some pe] ->
  let c := mkPoint (halfway (x p0) (x pe)) (halfway (y p0) (y pe)) in
  getCurrentPoints c_abs c_max s = Return [Some p0; Some c; Some c; Some pe] s.
Proof.
  intros Hpts. unfold getCurrentPoints. unfold bind at 1, get_this.
  rewrite Hpts. done.
Qed.

(** X19.  While an inner segment [i] is dragged, the preview of the segment
    handler has the converted inner points of the current points, except
    that both ends of the dragged segment are moved: point [i - 1] too,
    which the loop has already pushed, because it changes that point in
    place.  A vertical segment takes the x of the pointer at both ends, a
    horizontal one its y.  An edge of four or more points has its absolute
    points as current points, a straight edge of two points gets its
    midpoint twice. *)
Theorem segment_preview_moves_both_ends (point : Point coord) (i : nat)
    (cps : list (Point coord)) (conv : Point coord -> Point coord) (s : world) :
  isSource (this s) = false -> isTarget (this s) = false ->
  index (this s) = Some (Z.of_nat i) -> 1 <= i ->
  getCurrentPoints c_abs c_max s = Return (Some <$> cps) s ->
  cps <> [] -> length cps <> 3 ->
  (forall p, convertPoint p false s = Return (conv p) s) ->
  getPreviewPoints c_abs c_max convertPoint super_getPreviewPoints terminal_contains point s
  = Return (Some (Some <$> (preview_point conv (conv point) cps i
                             <$> seq 1 (length cps - 2)))) s /\
  (4 <= length (absolutePoints (state (this s))) ->
   Some <$> cps = absolutePoints (state (this s))) /\
  (forall p0 pe, absolutePoints (state (this s)) = [Some p0; Some pe] ->
     cps = [p0; mkPoint (halfway (x p0) (x pe)) (halfway (y p0) (y pe));
            mkPoint (halfway (x p0) (x pe)) (halfway (y p0) (y pe)); pe]).
Proof.
  intros Hsrc Htrg Hidx Hi Hcur Hne Hlen Hconv. split_and!.
  - unfold getPreviewPoints. unfold bind at 1, get_this.
    rewrite Hsrc, Htrg, Hidx. cbn [orb].
    unfold bind at 1. rewrite Hcur.
    destruct cps as [|p0 tl] eqn:Hcps; [done|]. rewrite <- Hcps in *.
    assert (Hat : at_index (Some <$> cps) 0 = Some p0) by (by rewrite Hcps).
    rewrite Hat. cbn [require]. unfold bind at 1. cbn [ret].
    unfold bind at 1. rewrite Hconv. unfold bind at 1. rewrite Hconv.
    assert (Hlist : drop 1 (zip (seq 0 (length (Some <$> cps))) (Some <$> cps))
                    = zip (seq 1 (length tl)) (Some <$> tl))
      by (rewrite Hcps; cbn; by rewrite length_fmap).
    rewrite Hlist, length_fmap.
    destruct (preview_fold s conv (conv point) cps i Hconv tl 0
                (mkPreview (conv p0) [] false)) as (acc & Hfold & Hlast & Hshared & Hres).
    + by rewrite Hcps.
    + lia.
    + rewrite Hcps. cbn. lia.
    + split_and!; cbn [last shared result].
      * unfold after_round. rewrite bool_decide_eq_false_2 by lia.
        unfold converted_at. by rewrite Hcps.
      * by rewrite bool_decide_eq_false_2 by lia.
      * by rewrite bool_decide_eq_false_2 by lia.
    + unfold bind at 1. rewrite Hfold.
      rewrite bool_decide_eq_false_2 in Hres by lia.
      rewrite app_nil_r in Hres.
      replace (length cps - 1 - 1) with (length cps - 2) in Hres by lia.
      rewrite Hres, !length_fmap, length_seq.
      rewrite bool_decide_eq_false_2 by lia. done.
  - intros Hfour. rewrite (getCurrentPoints_bent s Hfour) in Hcur. by injection Hcur.
  - intros p0 pe Hpts. rewrite (getCurrentPoints_straight s p0 pe Hpts) in Hcur.
    injection Hcur as Hcur.
    apply (inj (fmap Some)). by rewrite <- Hcur.
Qed.

End Preview.

End Properties.

(** ** Examples: the segment handler over the edge handler

    The inherited methods are those of the edge handler; no terminal
    contains a point. *)

Definition segment_world : world (H := example_graph never) :=
  mkWorld (H := example_graph never) segment_handler
    {[ 7 := with_points example_geometry
              (Some [Some (mkPoint 0 50); Some (mkPoint 100 50)]%Z) ]} [].


(** Both control points are corners and are kept. *)
Example segment_connect_calls :
  take 2 (calls (final (connect (H := example_graph never)
                          (EdgeHandlerMore.convertPoint (H0 := example_editing))
                          EdgeHandler.connect 7 8 true segment_world)))
  = [(beginUpdate, false);
     (setGeometry 7 (with_points example_geometry
                       (Some [Some (mkPoint 0 50); Some (mkPoint 100 50)]%Z)), false)].
Proof. by vm_compute. Qed.

(** The middle segment, dragged to (30,70), moves to y = 70 at both ends. *)
Lemma segment_preview_moves_both_ends_witness :
  getPreviewPoints (H := example_graph never) (H0 := example_editing) Z.abs Z.max
    (EdgeHandlerMore.convertPoint (H0 := example_editing)) (fun _ => ret None)
    (fun _ _ _ => false) (mkPoint 30 70)%Z segment_world
  = Return (Some [Some (mkPoint 0 70); Some (mkPoint 100 70)]%Z) segment_world.
Proof.
  etrans.
  - apply (proj1 (segment_preview_moves_both_ends (H := example_graph never)
                    (H0 := example_editing)
                    (EdgeHandlerMore.convertPoint (H0 := example_editing))
                    Z.abs Z.max (fun _ => ret None) (fun _ _ _ => false)
                    (mkPoint 30 70)%Z 2
                    [mkPoint 0 0; mkPoint 0 50; mkPoint 100 50; mkPoint 100 100]%Z
                    (fun p => converted (H0 := example_editing) segment_world p false)
                    segment_world eq_refl eq_refl eq_refl ltac:(lia) eq_refl
                    ltac:(done) ltac:(cbn; lia) ltac:(reflexivity))).
  - by vm_compute.
Defined.

End EdgeSegmentHandlerSpec.
